(** * Audio-Visual temporal action detection: target assignment, losses, decoding

    A shallow embedding of the dense target assigner
    ([PtTransformer.label_points], [label_points_single_video],
    [ioa_with_anchors]), of the multi-task loss ([PtTransformer.losses],
    [ctr_giou_loss_1d], [sigmoid_focal_loss]) and of the per-level decoder
    ([PtTransformer.inference_single_video]) of
    [libs/modeling/meta_archs.py] and [libs/modeling/losses.py].

    Numbers.  Tensor entries are floating-point numbers in the program.  They
    are embedded as exact rationals ([Q]) wherever the code only adds,
    multiplies, divides and compares, so that every definition runs; the
    value [float('inf')] written into the duration table is a constructor of
    its own.  The transcendental kernels of the tensor library ([torch.exp],
    [torch.sigmoid], the logistic cross entropy) are fields of a record
    passed to the loss and to the decoder: their values are floating-point
    numbers, hence rationals, and a statement that depends on them names
    what it assumes of them.  The rounding of the four arithmetic operations
    is not modelled.

    Effects.  A Python exception is a value of [exn]; a function that can
    raise returns a [result].  The only state of the model object that the
    training path writes is [self.loss_normalizer]; [losses] and the training
    branch of [forward] thread it explicitly. *)

From Stdlib Require Import String List ZArith QArith Qabs Bool Arith Lia.
From Stdlib Require Import Psatz Sorted.
Import ListNotations.
Open Scope Q_scope.

(** ** Exceptions and results *)

Inductive exn : Type :=
| ValueError (msg : string)
| IndexError (msg : string)
| KeyError (key : string)
| UnboundLocalError (name : string)
| AssertionError (msg : string)
| RuntimeError (msg : string).

Inductive result (A : Type) : Type :=
| Ok (a : A)
| Err (e : exn).
Arguments Ok {A} a.
Arguments Err {A} e.

Definition bind {A B : Type} (r : result A) (k : A -> result B) : result B :=
  match r with
  | Ok a => k a
  | Err e => Err e
  end.

Notation "x <- r ;; k" := (bind r (fun x => k))
  (at level 61, r at next level, right associativity).

Fixpoint mapM {A B : Type} (f : A -> result B) (l : list A) : result (list B) :=
  match l with
  | [] => Ok []
  | x :: r => y <- f x ;; ys <- mapM f r ;; Ok (y :: ys)
  end.

(** ** Elementwise arithmetic ([torch.maximum], [torch.minimum], comparisons) *)

Definition Qlt_bool (x y : Q) : bool := negb (Qle_bool y x).

Definition qmax (x y : Q) : Q := if Qle_bool x y then y else x.
Definition qmin (x y : Q) : Q := if Qle_bool x y then x else y.

Definition qsum (l : list Q) : Q := fold_right Qplus 0 l.

Definition Q_of_nat (n : nat) : Q := inject_Z (Z.of_nat n).

(** A duration, or [float('inf')] after [masked_fill_]. *)
Inductive len_t : Type :=
| Finite (q : Q)
| Inf.

Definition len_ltb (a b : len_t) : bool :=
  match a, b with
  | Finite x, Finite y => Qlt_bool x y
  | Finite _, Inf => true
  | Inf, _ => false
  end.

Definition is_inf (a : len_t) : bool :=
  match a with Inf => true | Finite _ => false end.

(** [values, indices = row.min()]: the least entry together with the index of
    its first occurrence. [row_min_from i best besti l] scans [l], whose
    first entry has index [i]. *)
Fixpoint row_min_from (i : nat) (best : len_t) (besti : nat) (l : list len_t)
  : len_t * nat :=
  match l with
  | [] => (best, besti)
  | x :: r =>
      if len_ltb x best then row_min_from (S i) x i r
      else row_min_from (S i) best besti r
  end.

Definition row_min (l : list len_t) : result (len_t * nat) :=
  match l with
  | [] => Err (IndexError "min(): cannot reduce over an empty dimension")
  | x :: r => Ok (row_min_from 1 x 0 r)
  end.

(** [t[i]] for a one-dimensional tensor. *)
Definition index {A : Type} (what : string) (t : list A) (i : nat) : result A :=
  match nth_error t i with
  | Some a => Ok a
  | None => Err (IndexError what)
  end.

(** [np.max] of a one-dimensional array; numpy raises on an empty one. *)
Definition np_max (l : list Q) : result Q :=
  match l with
  | [] => Err (ValueError "zero-size array to reduction operation maximum")
  | x :: r => Ok (fold_left qmax r x)
  end.

(** ** Data model *)

(** One row of the point table: [(t, reg_min, reg_max, stride)]. *)
Record point : Type := mkPoint {
  pt_t : Q;
  pt_reg_min : Q;
  pt_reg_max : Q;
  pt_stride : Q
}.

(** One row of [gt_segment]: [(start, end)] in feature-grid units. *)
Definition segment : Type := (Q * Q)%type.

Inductive center_sample : Type :=
| Radius        (* 'radius' *)
| NoSampling.   (* 'none' *)

(** The attributes of [PtTransformer] read by the assigner, the loss and the
    decoder. *)
Record model_cfg : Type := mkCfg {
  num_classes_verb : Z;
  num_classes_noun : Z;
  train_center_sample : center_sample;
  train_center_sample_radius : Q;
  train_label_smoothing : Q;
  test_pre_nms_thresh : Q;
  test_pre_nms_topk : nat;
  test_duration_thresh : Q
}.

(** The command-line arguments ([args]) read by the same code. *)
Record cli_args : Type := mkArgs {
  gau_sigma : Q;
  cen_gau_sigma : Q;
  sigma1 : Q;
  loss_weight_boundary_conf : Q;
  verb_cls_weight : Q;
  noun_cls_weight : Q;
  loss_a_weight : Q;
  loss_act_weight : Q
}.

(** An entry of the actionness label: the floor [0.1], or the Gaussian
    [exp(-d^2 / (2 * sigma^2))] of a distance [d] to a segment centre, kept
    as the pair it is computed from. *)
Inductive act_val : Type :=
| ActFloor
| ActGauss (distance_cen sigma : Q).

(** What [label_points_single_video] returns: three tensors on the early
    return, six at the end of the function. *)
Inductive py_tuple : Type :=
| Tuple3 (cls_targets_v cls_targets_n : list Z) (reg_targets : list (Q * Q))
| Tuple6 (cls_targets_v cls_targets_n : list Z) (reg_targets : list (Q * Q))
         (starting_gt ending_gt : list Q) (action_gt : list act_val).

(** ** Target assigner *)

Section Assigner.

Variable cfg : model_cfg.
Variable args : cli_args.

Definition left_dist (p : point) (g : segment) : Q := pt_t p - fst g.
Definition right_dist (p : point) (g : segment) : Q := snd g - pt_t p.

(** [inside_gt_seg_mask] at one (point, segment) pair. *)
Definition inside_gt_seg_mask (p : point) (g : segment) : bool :=
  match train_center_sample cfg with
  | Radius =>
      let center_pts := (1 # 2) * (fst g + snd g) in
      let t_mins := center_pts - pt_stride p * train_center_sample_radius cfg in
      let t_maxs := center_pts + pt_stride p * train_center_sample_radius cfg in
      let cb_dist_left := pt_t p - qmax t_mins (fst g) in
      let cb_dist_right := qmin t_maxs (snd g) - pt_t p in
      Qlt_bool 0 (qmin cb_dist_left cb_dist_right)
  | NoSampling =>
      Qlt_bool 0 (qmin (left_dist p g) (right_dist p g))
  end.

(** [inside_regress_range] at one (point, segment) pair. *)
Definition inside_regress_range (p : point) (g : segment) : bool :=
  let max_regress_distance := qmax (left_dist p g) (right_dist p g) in
  Qle_bool (pt_reg_min p) max_regress_distance
  && Qle_bool max_regress_distance (pt_reg_max p).

(** One row of [lens] after the two [masked_fill_]. *)
Definition masked_lens (p : point) (gt_segment : list segment) : list len_t :=
  map (fun g =>
         if negb (inside_gt_seg_mask p g) then Inf
         else if negb (inside_regress_range p g) then Inf
         else Finite (snd g - fst g))
      gt_segment.

(** The matching of one point: class targets and normalised offsets. *)
Definition assign_point (gt_segment : list segment) (gt_label_v gt_label_n : list Z)
  (p : point) : result (Z * Z * (Q * Q)) :=
  m <- row_min (masked_lens p gt_segment) ;;
  let '(min_len, min_len_inds) := m in
  v <- index "gt_label_v[min_len_inds]" gt_label_v min_len_inds ;;
  n <- index "gt_label_n[min_len_inds]" gt_label_n min_len_inds ;;
  g <- index "reg_targets[range(num_pts), min_len_inds]" gt_segment min_len_inds ;;
  let cls_v := if is_inf min_len then num_classes_verb cfg else v in
  let cls_n := if is_inf min_len then num_classes_noun cfg else n in
  Ok (cls_v, cls_n,
      (left_dist p g / pt_stride p, right_dist p g / pt_stride p)).

(** *** Dense boundary and actionness labels *)

Definition num_levels : list nat := [2304; 1152; 576; 288; 144; 72]%nat.
Definition level_ratio : list Q := [1; 2; 4; 8; 16; 32].

(** [ioa_with_anchors] for one anchor and one box. *)
Definition ioa_with_anchors (anchors_min anchors_max box_min box_max : Q) : Q :=
  let len_anchors := anchors_max - anchors_min in
  let int_xmin := qmax anchors_min box_min in
  let int_xmax := qmin anchors_max box_max in
  let inter_len := qmax (int_xmax - int_xmin) 0 in
  inter_len / len_anchors.

(** The windows [gt_start_bboxs] (around [x = gt_xmins]) and [gt_end_bboxs]
    (around [x = gt_xmaxs]) of one segment whose scaled length is [gt_len]. *)
Definition gt_len_small (gt_len : Q) : Q := qmax 1 ((1 # 10) * gt_len).

Definition boundary_bbox (x gt_len : Q) : Q * Q :=
  (x - gt_len_small gt_len / 2, x + gt_len_small gt_len / 2).

(** [match_score_start] / [match_score_end] at anchor [jdx]. *)
Definition match_score (bboxs : list (Q * Q)) (jdx : nat) : result Q :=
  np_max (map (fun b => ioa_with_anchors (Q_of_nat jdx) (Q_of_nat jdx + 1)
                                          (fst b) (snd b))
              bboxs).

(** [match_score_action] at anchor [ii]: the loop over the segments, a later
    segment overwriting an earlier one. *)
Definition match_score_action (scaled : list segment) (ii : nat) : act_val :=
  fold_left
    (fun acc g =>
       if Qle_bool (fst g) (Q_of_nat ii) && Qle_bool (Q_of_nat ii) (snd g)
       then ActGauss (Qabs (Q_of_nat ii - (fst g + snd g) / 2)) (cen_gau_sigma args)
       else acc)
    scaled ActFloor.

(** The body of [for level in range(6)] for one level. *)
Definition level_labels (gt_segment : list segment) (n : nat) (ratio : Q)
  : result (list Q * list Q * list act_val) :=
  let scaled := map (fun g => (fst g / ratio, snd g / ratio)) gt_segment in
  let gt_start_bboxs := map (fun g => boundary_bbox (fst g) (snd g - fst g)) scaled in
  let gt_end_bboxs := map (fun g => boundary_bbox (snd g) (snd g - fst g)) scaled in
  let action := map (match_score_action scaled) (seq 0 n) in
  s <- mapM (match_score gt_start_bboxs) (seq 0 n) ;;
  e <- mapM (match_score gt_end_bboxs) (seq 0 n) ;;
  Ok (s, e, action).

Fixpoint boundary_labels (gt_segment : list segment) (levels : list (nat * Q))
  : result (list Q * list Q * list act_val) :=
  match levels with
  | [] => Ok ([], [], [])
  | (n, ratio) :: rest =>
      l <- level_labels gt_segment n ratio ;;
      r <- boundary_labels gt_segment rest ;;
      let '(s, e, a) := l in
      let '(ss, es, acts) := r in
      Ok (s ++ ss, e ++ es, a ++ acts)
  end.

(** [label_points_single_video].  The loop that fills [anchor_xmin_cen] and
    [anchor_xmax_cen] writes two lists that are never read and is left
    out. *)
Definition label_points_single_video (concat_points : list point)
  (gt_segment : list segment) (gt_label_v gt_label_n : list Z) : result py_tuple :=
  let num_pts := length concat_points in
  match gt_segment with
  | [] =>
      (* corner case where current sample does not have actions *)
      Ok (Tuple3 (repeat (num_classes_verb cfg) num_pts)
                 (repeat (num_classes_noun cfg) num_pts)
                 (repeat (0, 0) num_pts))
  | _ :: _ =>
      rows <- mapM (assign_point gt_segment gt_label_v gt_label_n) concat_points ;;
      aux <- boundary_labels gt_segment (combine num_levels level_ratio) ;;
      let '(starting_gt, ending_gt, action_gt) := aux in
      Ok (Tuple6 (map (fun r => fst (fst r)) rows)
                 (map (fun r => snd (fst r)) rows)
                 (map snd rows)
                 starting_gt ending_gt action_gt)
  end.

(** The six lists returned by [label_points], one entry per video. *)
Record batch_targets : Type := mkTargets {
  gt_cls_v : list (list Z);
  gt_cls_n : list (list Z);
  gt_offset : list (list (Q * Q));
  gt_start : list (list Q);
  gt_end : list (list Q);
  gt_action : list (list act_val)
}.

(** [a, b, c, d, e, f = t]: unpacking into six names. *)
Definition unpack6 (t : py_tuple)
  : result (list Z * list Z * list (Q * Q) * list Q * list Q * list act_val) :=
  match t with
  | Tuple6 v n r s e a => Ok (v, n, r, s, e, a)
  | Tuple3 _ _ _ => Err (ValueError "not enough values to unpack (expected 6, got 3)")
  end.

(** The loop of [label_points] over
    [zip(gt_segments, gt_labels_v, gt_labels_n)]. *)
Fixpoint label_points_loop (concat_points : list point)
  (videos : list (list segment * (list Z * list Z))) (acc : batch_targets)
  : result batch_targets :=
  match videos with
  | [] => Ok acc
  | (gt_segment, (gt_label_v, gt_label_n)) :: rest =>
      t <- label_points_single_video concat_points gt_segment gt_label_v gt_label_n ;;
      u <- unpack6 t ;;
      let '(v, n, r, s, e, a) := u in
      label_points_loop concat_points rest
        (mkTargets (gt_cls_v acc ++ [v]) (gt_cls_n acc ++ [n])
                   (gt_offset acc ++ [r]) (gt_start acc ++ [s])
                   (gt_end acc ++ [e]) (gt_action acc ++ [a]))
  end.

Definition label_points (points : list (list point))
  (gt_segments : list (list segment)) (gt_labels_v gt_labels_n : list (list Z))
  : result batch_targets :=
  let concat_points := concat points in
  label_points_loop concat_points
    (combine gt_segments (combine gt_labels_v gt_labels_n))
    (mkTargets [] [] [] [] [] []).

End Assigner.

(** ** Losses *)

(** The elementwise kernels of the tensor library used by the losses. *)
Record kernels : Type := mkKernels {
  t_exp : Q -> Q;                    (* torch.exp *)
  t_sigmoid : Q -> Q;                (* torch.sigmoid *)
  t_bce_with_logits : Q -> Q -> Q    (* F.binary_cross_entropy_with_logits, reduction="none" *)
}.

(** The value stored for an actionness label. *)
Definition act_value (K : kernels) (a : act_val) : Q :=
  match a with
  | ActFloor => 1 # 10
  | ActGauss d s => t_exp K (- (d * d) / (2 * s * s))
  end.

(** [sigmoid_focal_loss(inputs, targets, reduction='sum')] with the default
    [alpha = 0.25] and [gamma = 2.0]. *)
Definition focal_alpha : Q := 1 # 4.

Definition focal_elem (K : kernels) (x t : Q) : Q :=
  let p := t_sigmoid K x in
  let ce_loss := t_bce_with_logits K x t in
  let p_t := p * t + (1 - p) * (1 - t) in
  let loss := ce_loss * ((1 - p_t) * (1 - p_t)) in
  let alpha_t := focal_alpha * t + (1 - focal_alpha) * (1 - t) in
  alpha_t * loss.

Definition sigmoid_focal_loss (K : kernels) (inputs targets : list (list Q)) : Q :=
  qsum (map (fun rt => qsum (map (fun xt => focal_elem K (fst xt) (snd xt))
                                 (combine (fst rt) (snd rt))))
            (combine inputs targets)).

(** *** The 1D generalised IoU of [ctr_giou_loss_1d] *)

Definition eps : Q := 1 # 100000000.

(** [x.clamp(min=m)]. *)
Definition clamp_min (x m : Q) : Q := qmax x m.

(** [miouk] for one positive point: predicted offsets [(lp, rp)], target
    offsets [(lg, rg)]. *)
Definition miouk (pred gt : Q * Q) : Q :=
  let '(lp, rp) := pred in
  let '(lg, rg) := gt in
  let lkis := qmin lp lg in
  let rkis := qmin rp rg in
  let intsctk := rkis + lkis in
  let unionk := (lp + rp) + (lg + rg) - intsctk in
  let iouk := intsctk / clamp_min unionk eps in
  let lc := qmax lp lg in
  let rc := qmax rp rg in
  let len_c := lc + rc in
  iouk - ((len_c - unionk) / clamp_min len_c eps).

(** One entry of [loss_offset] before the reduction. *)
Definition loss_offset_elem (pred gt : Q * Q) : Q := 1 - miouk pred gt.

Definition all_nonneg (offsets : list (Q * Q)) : bool :=
  forallb (fun o => Qle_bool 0 (fst o) && Qle_bool 0 (snd o)) offsets.

(** [exp(-x^2 / (2 * sigma2 * sigma2))], the pseudo-probability of a raw
    boundary offset. *)
Definition gaussian_conf (K : kernels) (sigma2 x : Q) : Q :=
  t_exp K (- (x * x) / (2 * sigma2 * sigma2)).

Definition square (x : Q) : Q := x * x.

(** [ctr_giou_loss_1d(..., reduction='sum')]; it returns the pair
    [(loss, loss_action)].  [input_actionness] has shape [(P, 1)] and
    [target_action] shape [(P,)], so their difference broadcasts to
    [(P, P)] before the mean.  The function is only called on a non-empty
    set of [P] positive points, with [P] rows in every tensor; this is the
    domain of the definition (on tensors of other lengths the library
    broadcasts or raises, and the mean of no entry is not a number). *)
Definition ctr_giou_loss_1d (K : kernels) (args : cli_args)
  (input_offsets input_conf : list (Q * Q)) (input_actionness : list Q)
  (target_offsets : list (Q * Q)) (target_start target_end : list Q)
  (target_action : list act_val) : result (Q * Q) :=
  if negb (all_nonneg input_offsets)
  then Err (AssertionError "predicted offsets must be non-negative")
  else if negb (all_nonneg target_offsets)
  then Err (AssertionError "GT offsets must be non-negative")
  else
    let mious := map (fun pg => miouk (fst pg) (snd pg))
                     (combine input_offsets target_offsets) in
    let loss_offset := qsum (map (fun pg => loss_offset_elem (fst pg) (snd pg))
                                 (combine input_offsets target_offsets)) in
    let sigma2 := gau_sigma args in
    let input_conf_s := map (fun c => gaussian_conf K sigma2 (fst c)) input_conf in
    let input_conf_e := map (fun c => gaussian_conf K sigma2 (snd c)) input_conf in
    let iou_mask := map (fun m => if Qlt_bool (1 # 2) m then 1 else 0) mious in
    let masked_sq (target pred : list Q) :=
      qsum (map (fun x => square (fst (fst x) - snd (fst x)) * snd x)
                (combine (combine target pred) iou_mask)) in
    let loss_conf_s := masked_sq target_start input_conf_s in
    let loss_conf_e := masked_sq target_end input_conf_e in
    let loss_conf := (1 # 2) * loss_conf_s + (1 # 2) * loss_conf_e in
    let act := map (t_sigmoid K) input_actionness in
    let targets := map (act_value K) target_action in
    let loss_action :=
      qsum (map (fun a =>
                   qsum (map (fun tm => square (fst tm - a) * snd tm)
                             (combine targets iou_mask)))
                act)
      / (Q_of_nat (length act) * Q_of_nat (length (combine targets iou_mask))) in
    let loss := sigma1 args * loss_offset
                + loss_weight_boundary_conf args * loss_conf in
    Ok (loss, loss_action).

(** *** [PtTransformer.losses] *)

(** The part of the model object written during training. *)
Record model_state : Type := mkState {
  loss_normalizer : Q
}.

Definition loss_normalizer_momentum : Q := 9 # 10.

(** [torch.cat(levels, dim=1)] for per-level tensors of shape [(B, T_i, ...)]. *)
Fixpoint cat_dim1 {A : Type} (levels : list (list (list A))) : list (list A) :=
  match levels with
  | [] => []
  | [x] => x
  | x :: rest => map (fun ab => fst ab ++ snd ab) (combine x (cat_dim1 rest))
  end.

(** [x[mask]] for [x] and a boolean [mask] of shape [(B, N)]: the selected
    entries in row-major order; the shapes must agree. *)
Fixpoint select_row {A : Type} (row : list A) (mask : list bool) : list A :=
  match row, mask with
  | x :: r, b :: m => if b then x :: select_row r m else select_row r m
  | _, _ => []
  end.

Definition same_shape {A B : Type} (x : list (list A)) (y : list (list B)) : bool :=
  (length x =? length y)%nat
  && forallb (fun ab => (length (fst ab) =? length (snd ab))%nat) (combine x y).

Definition select_rows {A : Type} (x : list (list A)) (mask : list (list bool)) : list A :=
  concat (map (fun rm => select_row (fst rm) (snd rm)) (combine x mask)).

Definition masked_select {A : Type} (what : string) (x : list (list A))
  (mask : list (list bool)) : result (list A) :=
  if same_shape x mask then Ok (select_rows x mask) else Err (IndexError what).

(** [pos_mask]: foreground under both taxonomies, and valid. *)
Definition pos_mask (cfg : model_cfg) (gt_cls_v gt_cls_n : list (list Z))
  (valid_mask : list (list bool)) : list (list bool) :=
  map (fun r =>
         map (fun x =>
                let '(v, n, valid) := x in
                (0 <=? n)%Z && negb (n =? num_classes_noun cfg)%Z
                && (0 <=? v)%Z && negb (v =? num_classes_verb cfg)%Z && valid)
             (combine (combine (fst (fst r)) (snd (fst r))) (snd r)))
      (combine (combine gt_cls_v gt_cls_n) valid_mask).

Definition count_true (m : list (list bool)) : nat :=
  length (filter (fun b => b) (concat m)).

(** [F.one_hot(label, num_classes = C + 1)[:-1]], then label smoothing;
    [F.one_hot] raises on a label outside of [[0, C]]. *)
Definition one_hot_smoothed (C : Z) (smoothing : Q) (label : Z) : list Q :=
  map (fun k =>
         let hot := if (Z.of_nat k =? label)%Z then 1 else 0 in
         hot * (1 - smoothing) + smoothing / (inject_Z C + 1))
      (seq 0 (Z.to_nat C)).

Definition label_in_range (C : Z) (label : Z) : bool :=
  ((0 <=? label) && (label <=? C))%Z.

Definition one_hot_row (C : Z) (smoothing : Q) (label : Z) : result (list Q) :=
  if label_in_range C label
  then Ok (one_hot_smoothed C smoothing label)
  else Err (RuntimeError "Class values must be smaller than num_classes.").

(** The classification loss of one taxonomy before its weight:
    the focal loss over the valid points, divided by [normalizer]. *)
Definition cls_loss (K : kernels) (C : Z) (smoothing normalizer : Q)
  (gt_cls : list (list Z)) (logits : list (list (list Q)))
  (valid_mask : list (list bool)) : result Q :=
  labels <- masked_select "gt_cls[valid_mask]" gt_cls valid_mask ;;
  gt_target <- mapM (one_hot_row C smoothing) labels ;;
  inputs <- masked_select "out_cls_logits[valid_mask]" logits valid_mask ;;
  Ok (sigmoid_focal_loss K inputs gt_target / normalizer).

(** A Python [dict] with string keys, in insertion order. *)
Definition dict : Type := list (string * Q).

Fixpoint dict_get (d : dict) (key : string) : result Q :=
  match d with
  | [] => Err (KeyError key)
  | (k, v) :: r => if String.eqb k key then Ok v else dict_get r key
  end.

(** Reading a local variable that may not have been assigned. *)
Definition read_local (name : string) (v : option Q) : result Q :=
  match v with
  | Some x => Ok x
  | None => Err (UnboundLocalError name)
  end.

(** An argument that is [None] for the audio stream. *)
Definition not_none {A : Type} (what : string) (x : option A) : result A :=
  match x with
  | Some a => Ok a
  | None => Err (RuntimeError what)
  end.

(** The head outputs of one modality stream, per level, of shape
    [(B, T_i, ...)]. *)
Record stream_outputs : Type := mkStream {
  fpn_masks : list (list (list bool));
  out_cls_logits_v : list (list (list (list Q)));
  out_cls_logits_n : list (list (list (list Q)));
  out_offsets : option (list (list (list (Q * Q))));
  out_conf : option (list (list (list (Q * Q))));
  out_actionness_audio : option (list (list (list Q)))
}.

(** The selection on the positive points done before the normaliser is
    updated.  The three predicted tensors are only read on the visual
    stream. *)
Definition positive_inputs (o : stream_outputs) (g : batch_targets)
  (pm : list (list bool)) (is_audio : bool)
  : result (list (Q * Q) * list (Q * Q) * list Q
            * (list (Q * Q) * list Q * list Q * list act_val)) :=
  pred <-
    (if is_audio then Ok ([], [], [])
     else
       offs <- not_none "out_offsets" (out_offsets o) ;;
       pred_offsets <- masked_select "pred_offsets" (cat_dim1 offs) pm ;;
       conf <- not_none "out_conf" (out_conf o) ;;
       pred_conf <- masked_select "pred_conf" (cat_dim1 conf) pm ;;
       act <- not_none "out_actionness_audio" (out_actionness_audio o) ;;
       pred_act <- masked_select "out_actionness_audio" (cat_dim1 act) pm ;;
       Ok (pred_offsets, pred_conf, pred_act)) ;;
  gt_offsets <- masked_select "gt_offsets" (gt_offset g) pm ;;
  gt_start <- masked_select "gt_start" (gt_start g) pm ;;
  gt_end <- masked_select "gt_end" (gt_end g) pm ;;
  gt_action <- masked_select "gt_action" (gt_action g) pm ;;
  Ok (pred, (gt_offsets, gt_start, gt_end, gt_action)).

(** The update of [self.loss_normalizer]. *)
Definition update_normalizer (st : model_state) (num_pos : nat) : model_state :=
  mkState (loss_normalizer_momentum * loss_normalizer st
           + (1 - loss_normalizer_momentum) * Q_of_nat (Nat.max num_pos 1)).

(** What [losses] computes once the normaliser is updated to [st']. *)
Definition losses_body (K : kernels) (cfg : model_cfg) (args : cli_args)
  (o : stream_outputs) (g : batch_targets) (valid_mask : list (list bool))
  (num_pos : nat)
  (sel : list (Q * Q) * list (Q * Q) * list Q
         * (list (Q * Q) * list Q * list Q * list act_val))
  (is_audio : bool) (st' : model_state) : result dict :=
  let '(pred_offsets, pred_conf, pred_act, (gt_offsets, gt_start, gt_end, gt_action)) := sel in
  cls_loss_v <- cls_loss K (num_classes_verb cfg) (train_label_smoothing cfg) 250
                  (gt_cls_v g) (cat_dim1 (out_cls_logits_v o)) valid_mask ;;
  cls_loss_n <- cls_loss K (num_classes_noun cfg) (train_label_smoothing cfg) 500
                  (gt_cls_n g) (cat_dim1 (out_cls_logits_n o)) valid_mask ;;
  let cls_loss_v := verb_cls_weight args * cls_loss_v in
  let cls_loss_n := noun_cls_weight args * cls_loss_n in
  if negb is_audio then
    locals <-
      (if (num_pos =? 0)%nat
       then
         (* reg_loss = 0 * pred_offsets.sum(); actionness_loss is not assigned *)
         Ok (0 * qsum (map (fun o => fst o + snd o) pred_offsets), None)
       else
         r <- ctr_giou_loss_1d K args pred_offsets pred_conf pred_act
                gt_offsets gt_start gt_end gt_action ;;
         let '(reg_loss, actionness_loss) := r in
         Ok (reg_loss / loss_normalizer st', Some actionness_loss)) ;;
    let '(reg_loss, actionness_loss) := locals in
    act_loss <- read_local "actionness_loss" actionness_loss ;;
    Ok [("cls_loss_v"%string, cls_loss_v); ("cls_loss_n"%string, cls_loss_n);
        ("reg_loss"%string, reg_loss); ("act_loss"%string, act_loss)]
  else
    Ok [("cls_loss_v"%string, cls_loss_v); ("cls_loss_n"%string, cls_loss_n)].

(** [num_pos] of one call. *)
Definition num_pos_of (cfg : model_cfg) (o : stream_outputs) (g : batch_targets) : nat :=
  count_true (pos_mask cfg (gt_cls_v g) (gt_cls_n g) (cat_dim1 (fpn_masks o))).

(** [losses]: the result, or the exception raised, and the state of the
    model object afterwards. *)
Definition losses (K : kernels) (cfg : model_cfg) (args : cli_args)
  (o : stream_outputs) (g : batch_targets) (is_audio : bool) (st : model_state)
  : result dict * model_state :=
  let valid_mask := cat_dim1 (fpn_masks o) in
  let pm := pos_mask cfg (gt_cls_v g) (gt_cls_n g) valid_mask in
  match positive_inputs o g pm is_audio with
  | Err e => (Err e, st)
  | Ok sel =>
      let num_pos := count_true pm in
      let st' := update_normalizer st num_pos in
      (losses_body K cfg args o g valid_mask num_pos sel is_audio st', st')
  end.

(** The training branch of [forward], from the head outputs on: target
    assignment, the loss of the visual stream, the loss of the audio stream,
    and their combination.  Batching, the networks and the assertions that
    the batch carries labels come before it. *)
Definition forward_train (K : kernels) (cfg : model_cfg) (args : cli_args)
  (points : list (list point))
  (gt_segments : list (list segment)) (gt_labels_v gt_labels_n : list (list Z))
  (visual audio : stream_outputs) (st : model_state) : result dict * model_state :=
  match label_points cfg args points gt_segments gt_labels_v gt_labels_n with
  | Err e => (Err e, st)
  | Ok g =>
      match losses K cfg args visual g false st with
      | (Err e, st1) => (Err e, st1)
      | (Ok losses_visaul, st1) =>
          match losses K cfg args audio g true st1 with
          | (Err e, st2) => (Err e, st2)
          | (Ok losses_audio, st2) =>
              (vv <- dict_get losses_visaul "cls_loss_v" ;;
               av <- dict_get losses_audio "cls_loss_v" ;;
               vn <- dict_get losses_visaul "cls_loss_n" ;;
               an <- dict_get losses_audio "cls_loss_n" ;;
               reg <- dict_get losses_visaul "reg_loss" ;;
               act <- dict_get losses_visaul "act_loss" ;;
               let cls_v := vv + loss_a_weight args * av in
               let cls_n := vn + loss_a_weight args * an in
               Ok [("cls_v"%string, cls_v); ("cls_n"%string, cls_n);
                   ("reg_visual"%string, reg); ("action"%string, act);
                   ("final_loss"%string,
                    cls_v + cls_n + reg + loss_act_weight args * act)],
               st2)
          end
      end
  end.

(** ** Decoder: candidate selection of [inference_single_video] *)

Definition verb_topk : nat := 11.
Definition noun_topk : nat := 33.

(** [values, indices = t.sort(descending=True)] for a one-dimensional
    tensor, as the list of (value, index) pairs.  Equal values keep their
    order here; the property proved below holds for every order. *)
Fixpoint insert_desc (x : Q * nat) (l : list (Q * nat)) : list (Q * nat) :=
  match l with
  | [] => [x]
  | y :: r => if Qle_bool (fst y) (fst x) then x :: l else y :: insert_desc x r
  end.

Definition sort_desc (v : list Q) : list (Q * nat) :=
  fold_right insert_desc [] (combine v (seq 0 (length v))).

Definition mask_q (b : bool) : Q := if b then 1 else 0.
Definition mask_z (b : bool) : Z := if b then 1%Z else 0%Z.

(** [t[:, :k] * mask_i.unsqueeze(-1)]. *)
Definition topk_scores (k : nat) (t : list (list Q)) (mask_i : list bool) : list (list Q) :=
  map (fun rm => map (fun s => s * mask_q (snd rm)) (firstn k (fst rm))) (combine t mask_i).

Definition topk_labels (k : nat) (t : list (list Z)) (mask_i : list bool) : list (list Z) :=
  map (fun rm => map (fun l => (l * mask_z (snd rm))%Z) (firstn k (fst rm))) (combine t mask_i).

(** [torch.mul(noun.unsqueeze(-1), verb.unsqueeze(1)).flatten()]: per point
    a [noun x verb] block, rows of the block indexed by the noun. *)
Definition mul_cls_score (noun verb : list (list Q)) : list (list (list Q)) :=
  map (fun nv => map (fun n => map (fun v => n * v) (snd nv)) (fst nv))
      (combine noun verb).

Definition flatten3 (t : list (list (list Q))) : list Q := concat (map (@concat Q) t).

(** [t[i, j]] for a two-dimensional tensor. *)
Definition index2 {A : Type} (what : string) (t : list (list A)) (i j : nat) : result A :=
  row <- index what t i ;; index what row j.

(** The rows of the aligned tensors [pred_prob], [topk_idxs], [pt_idxs],
    [cls_noun_idxs1], [cls_verb_idxs1], [cls_noun_idxs], [cls_verb_idxs] and
    [pred_segs] of one level. *)
Record detection : Type := mkDet {
  det_score : Q;
  det_flat : nat;
  det_pt : nat;
  det_noun_idx1 : nat;
  det_verb_idx1 : nat;
  det_noun : Z;
  det_verb : Z;
  det_seg : Q * Q
}.

(** The thresholding and the global top-k: the kept scores with their index
    in the flattened score tensor. *)
Definition select_topk (cfg : model_cfg) (pred_prob : list Q) : result (list (Q * nat)) :=
  let thresh := test_pre_nms_thresh cfg * test_pre_nms_thresh cfg in
  let kept := filter (fun si => Qlt_bool thresh (fst si))
                     (combine pred_prob (seq 0 (length pred_prob))) in
  let pred_prob1 := map fst kept in
  let topk_idxs := map snd kept in
  let num_topk := Nat.min (test_pre_nms_topk cfg) (length topk_idxs) in
  let sorted := firstn num_topk (sort_desc pred_prob1) in
  mapM (fun si => i <- index "topk_idxs[idxs[:num_topk]]" topk_idxs (snd si) ;;
                  Ok (fst si, i))
       sorted.

(** The index arithmetic and the gathers for one selected entry. *)
Definition decode_entry (pts_i : list point) (offsets_i : list (Q * Q))
  (cls_noun_label_topk cls_verb_label_topk : list (list Z)) (si : Q * nat)
  : result detection :=
  let topk_idx := snd si in
  let pt_idx := (topk_idx / (verb_topk * noun_topk))%nat in
  let dx_loc := (topk_idx mod (verb_topk * noun_topk))%nat in
  let cls_noun_idx1 := (dx_loc / verb_topk)%nat in
  let cls_verb_idx1 := (dx_loc mod verb_topk)%nat in
  cls_noun_idx <- index2 "cls_noun_label_topk[pt_idxs,cls_noun_idxs1]"
                    cls_noun_label_topk pt_idx cls_noun_idx1 ;;
  cls_verb_idx <- index2 "cls_verb_label_topk[pt_idxs,cls_verb_idxs1]"
                    cls_verb_label_topk pt_idx cls_verb_idx1 ;;
  offsets <- index "offsets_i[pt_idxs]" offsets_i pt_idx ;;
  pts <- index "pts_i[pt_idxs]" pts_i pt_idx ;;
  let seg_left := pt_t pts - fst offsets * pt_stride pts in
  let seg_right := pt_t pts + snd offsets * pt_stride pts in
  Ok (mkDet (fst si) topk_idx pt_idx cls_noun_idx1 cls_verb_idx1
            cls_noun_idx cls_verb_idx (seg_left, seg_right)).

(** One level of the decoder, from the sorted class scores and labels to the
    candidates kept for this level. *)
Definition decode_level (cfg : model_cfg) (pts_i : list point) (mask_i : list bool)
  (cls_verb_score : list (list Q)) (cls_verb_label : list (list Z))
  (cls_noun_score : list (list Q)) (cls_noun_label : list (list Z))
  (offsets_i : list (Q * Q)) : result (list detection) :=
  let cls_verb_score_topk := topk_scores verb_topk cls_verb_score mask_i in
  let cls_verb_label_topk := topk_labels verb_topk cls_verb_label mask_i in
  let cls_noun_score_topk := topk_scores noun_topk cls_noun_score mask_i in
  let cls_noun_label_topk := topk_labels noun_topk cls_noun_label mask_i in
  let pred_prob := flatten3 (mul_cls_score cls_noun_score_topk cls_verb_score_topk) in
  selected <- select_topk cfg pred_prob ;;
  dets <- mapM (decode_entry pts_i offsets_i cls_noun_label_topk cls_verb_label_topk)
               selected ;;
  Ok (filter (fun d => Qlt_bool (test_duration_thresh cfg)
                                (snd (det_seg d) - fst (det_seg d)))
             dets).

(** ** Point tables *)

(** Modelled from the spec: the point generator ([make_generator('point')],
    whose module is not part of the sources at hand).  Section 4.1: one table
    per level, [T_l] points spaced at the level's stride, each carrying
    [(t, reg_min_l, reg_max_l, s_l)]. *)
Definition point_generator (max_seq_len : nat) (levels : list (nat * (Q * Q)))
  : list (list point) :=
  map (fun l =>
         let '(stride, (reg_min, reg_max)) := l in
         map (fun i => mkPoint (Q_of_nat (i * stride)) reg_min reg_max (Q_of_nat stride))
             (seq 0 (max_seq_len / stride)))
      levels.

(** ** Boundary evidence of the decoder *)

Module Evidence.

(** Training ([ctr_giou_loss_1d]): [input_conf_s] and [input_conf_e], the
    transform [torch.exp(torch.div(-torch.square(x), 2*sigma*sigma))] of a
    raw boundary offset, compared with the label by a squared error. *)
Definition train_conf (K : kernels) (sigma x : Q) : Q := gaussian_conf K sigma x.

Definition train_conf_sq_err (K : kernels) (sigma target x : Q) : Q :=
  square (target - train_conf K sigma x).

(** Inference: the same transform, then [conf_s = input_conf_s.sigmoid()]. *)
Definition conf (K : kernels) (sigma x : Q) : Q :=
  t_sigmoid K (gaussian_conf K sigma x).

(** Python's [int(r)]: truncation towards zero. *)
Definition py_int (r : Q) : Z := Z.quot (Qnum r) (Zpos (Qden r)).

(** [conf[min(len(conf)-1, max(0, int(pos)))]]. *)
Definition gather (conf_l : list Q) (pos : Q) : Q :=
  nth (Z.to_nat (Z.min (Z.of_nat (length conf_l) - 1) (Z.max 0 (py_int pos))))
      conf_l 0.

(** [torch.cat((v, torch.zeros(n - len(v))), 0)] when [len(v) < n]. *)
Definition pad_zeros (v : list Q) (n : nat) : list Q :=
  if (length v <? n)%nat then v ++ repeat 0 (n - length v) else v.

(** The vector [0.3*(gt_val_s_i+gt_val_e_i)] added to every verb and noun
    logit of a level, for [len(pts_i)] points, raw boundary offsets
    [out_conf_i] and predicted offsets [offsets_i]; [offsets_i[x]] is read
    for every row [x] of [out_conf_i]. *)
Definition boundary_term (K : kernels) (sigma : Q) (num_pts : nat)
  (offsets_i out_conf_i : list (Q * Q)) : result (list Q) :=
  let conf_s := map (fun c => conf K sigma (fst c)) out_conf_i in
  let conf_e := map (fun c => conf K sigma (snd c)) out_conf_i in
  gt_val_s_i <-
    mapM (fun x => o <- index "offsets_i[x]" offsets_i x ;;
                   Ok (gather conf_s (Q_of_nat x - fst o)))
         (seq 0 (length conf_s)) ;;
  gt_val_e_i <-
    mapM (fun x => o <- index "offsets_i[x]" offsets_i x ;;
                   Ok (gather conf_e (Q_of_nat x + snd o)))
         (seq 0 (length conf_e)) ;;
  Ok (map (fun se => (3 # 10) * (fst se + snd se))
          (combine (pad_zeros gt_val_s_i num_pts) (pad_zeros gt_val_e_i num_pts))).

End Evidence.

(** ** Post-processing of the decoded segments ([postprocessing]) *)

(** One element of [results]: the candidates of a video with the meta data
    passed through by [inference]. *)
Record video_result : Type := mkResult {
  res_segments : list (Q * Q);
  res_scores : list Q;
  res_labels_verb : list Z;
  res_labels_noun : list Z;
  res_fps : Q;
  res_duration : Q;
  res_feat_stride : Q;
  res_feat_num_frames : Q
}.

(** One element of [processed_results]. *)
Record processed_result : Type := mkProcessed {
  out_segments : list (Q * Q);
  out_scores : list Q;
  out_labels_verb : list Z;
  out_labels_noun : list Z
}.

Inductive nms_method : Type :=
| NmsSoft    (* 'soft' *)
| NmsHard    (* 'hard' *)
| NmsNone.   (* 'none' *)

(** [batched_nms] with the test configuration of the model: the suppression
    utility lives outside of the sources at hand and is a parameter. *)
Definition nms_fun : Type :=
  bool -> list (Q * Q) -> list Q -> list Z -> list Z
  -> list (Q * Q) * list Q * list Z * list Z.

(** [(segs * stride + 0.5 * nframes) / fps] for one boundary. *)
Definition to_seconds (stride nframes fps x : Q) : Q :=
  (x * stride + (1 # 2) * nframes) / fps.

(** The two in-place truncations of one boundary:
    [segs[segs<=0.0] *= 0.0], then
    [segs[segs>=vlen] = segs[segs>=vlen] * 0.0 + vlen]. *)
Definition truncate_boundary (vlen x : Q) : Q :=
  let x1 := if Qle_bool x 0 then x * 0 else x in
  if Qle_bool vlen x1 then x1 * 0 + vlen else x1.

Definition postprocess_video (test_nms_method : nms_method) (batched_nms : nms_fun)
  (r : video_result) : processed_result :=
  let '(segs, scores, labels_verb, labels_noun) :=
    match test_nms_method with
    | NmsNone => (res_segments r, res_scores r, res_labels_verb r, res_labels_noun r)
    | NmsSoft => batched_nms true (res_segments r) (res_scores r)
                   (res_labels_verb r) (res_labels_noun r)
    | NmsHard => batched_nms false (res_segments r) (res_scores r)
                   (res_labels_verb r) (res_labels_noun r)
    end in
  let conv x := truncate_boundary (res_duration r)
                  (to_seconds (res_feat_stride r) (res_feat_num_frames r) (res_fps r) x) in
  let segs :=
    if (0 <? length segs)%nat then map (fun s => (conv (fst s), conv (snd s))) segs
    else segs in
  mkProcessed segs scores labels_verb labels_noun.

Definition postprocessing (test_nms_method : nms_method) (batched_nms : nms_fun)
  (results : list video_result) : list processed_result :=
  map (postprocess_video test_nms_method batched_nms) results.

(** ** From seconds to the feature grid ([EpicKitchensDataset.__getitem__]) *)

(** [(segments * fps - 0.5 * num_frames) / feat_stride] for one boundary,
    where [feat_stride] is the stride after downsampling. *)
Definition to_feature_grid (fps num_frames feat_stride x : Q) : Q :=
  (x * fps - (1 # 2) * num_frames) / feat_stride.

(** The alignment of the audio features with the visual ones: one row is
    added by edge padding when the visual features are longer, the audio
    features are cut when they are longer.  [np.pad(..., 'edge')] cannot
    extend an empty axis. *)
Definition align_audio {A : Type} (feats_v feats_a : list A) : result (list A) :=
  if (length feats_a <? length feats_v)%nat then
    match rev feats_a with
    | [] => Err (ValueError "can't extend empty axis 0 using modes other than 'constant' or 'empty'")
    | last_row :: _ => Ok (feats_a ++ [last_row])
    end
  else if (length feats_v <? length feats_a)%nat then
    Ok (firstn (length feats_v) feats_a)
  else Ok feats_a.

(** [find_empty_cls]: the class ids without a sample.  [label_dict] is the
    dictionary from label names to ids, in insertion order. *)
Definition find_empty_cls (label_dict : list (string * Z)) (num_classes : nat) : list Z :=
  if (length label_dict =? num_classes)%nat then []
  else
    let label_ids := map snd label_dict in
    filter (fun id => negb (existsb (Z.eqb id) label_ids))
           (map Z.of_nat (seq 0 num_classes)).

(** ** Batching ([preprocessing_visual], [preprocessing_audio]) *)

(** A feature tensor of shape [(C, T)]: [C] rows of length [T]. *)
Definition feat_len (feat : list (list Q)) : nat :=
  match feat with
  | [] => 0%nat
  | row :: _ => length row
  end.

(** [F.pad(feat, [0, max_len - T], value=padding_val)]. *)
Definition pad_feat (padding_val : Q) (max_len : nat) (feat : list (list Q))
  : list (list Q) :=
  map (fun row => row ++ repeat padding_val (max_len - length row)) feat.

(** [pad_feat[..., :feat.shape[-1]].copy_(feat)] into a slice of shape
    [(C, max_len)] filled with [padding_val]: the source is broadcast, so it
    has [C] rows or one row. *)
Definition copy_into (C max_len : nat) (padding_val : Q) (feat : list (list Q))
  : result (list (list Q)) :=
  if (length feat =? C)%nat then Ok (pad_feat padding_val max_len feat)
  else
    match feat with
    | [row] => Ok (repeat (row ++ repeat padding_val (max_len - length row)) C)
    | _ => Err (RuntimeError "The size of tensor a must match the size of tensor b")
    end.

(** [torch.arange(max_len)[None, :] < feats_lens[:, None]]. *)
Definition batched_masks (max_len : nat) (feats_lens : list nat) : list (list bool) :=
  map (fun len => map (fun t => (t <? len)%nat) (seq 0 max_len)) feats_lens.

(** The two preprocessing methods have the same body; they differ in the key
    of the features they read ([feats_v], [feats_a]).  [__init__] starts
    [max_div_factor] at 1 and only ever raises it, hence its type. *)
Definition preprocessing (training : bool) (max_seq_len : nat) (max_div_factor : positive)
  (padding_val : Q) (feats : list (list (list Q)))
  : result (list (list (list Q)) * list (list bool)) :=
  match feats with
  | [] => Err (IndexError "max(): Expected reduction dim 0 to have non-zero size.")
  | feat0 :: _ =>
      let feats_lens := map feat_len feats in
      let max_len := list_max feats_lens in
      if training then
        if (max_len <=? max_seq_len)%nat then
          batched_inputs <- mapM (copy_into (length feat0) max_seq_len padding_val) feats ;;
          Ok (batched_inputs, batched_masks max_seq_len feats_lens)
        else Err (AssertionError
                    "Input length must be smaller than max_seq_len during training")
      else
        if (length feats =? 1)%nat then
          if (max_len <=? max_seq_len)%nat then
            Ok ([pad_feat padding_val max_seq_len feat0],
                batched_masks max_seq_len feats_lens)
          else
            let stride := Pos.to_nat max_div_factor in
            let max_len := ((max_len + (stride - 1)) / stride * stride)%nat in
            Ok ([pad_feat padding_val max_len feat0],
                batched_masks max_len feats_lens)
        else Err (AssertionError "Only support batch_size = 1 during inference")
  end.

(** ** [iou_with_anchors] *)

Definition iou_with_anchors (anchors_min anchors_max box_min box_max : Q) : Q :=
  let int_xmin := qmax anchors_min box_min in
  let int_xmax := qmin anchors_max box_max in
  let inter_len := qmax (int_xmax - int_xmin) 0 in
  let union_len := (anchors_max - anchors_min) + (box_max - box_min) - inter_len in
  inter_len / union_len.

(** ** [truncate_feats] ([libs/datasets/data_utils.py]) *)

(** The entries of the data dictionary that [truncate_feats] reads or
    writes; the features are [C x T] tensors. *)
Record data_item : Type := mkItem {
  item_feats_v : list (list Q);
  item_feats_a : list (list Q);
  item_segments : list segment;
  item_labels_v : list Z;
  item_labels_n : list Z
}.

(** The quotient of two floats, the dividend non-negative: division by zero
    gives [inf], or [nan] for [0 / 0]. *)
Inductive ratio : Type :=
| Ratio (q : Q)
| RatioInf
| RatioNaN.

Definition window_left (st : Q) (g : segment) : Q := qmax st (fst g).
Definition window_right (ed : Q) (g : segment) : Q := qmin ed (snd g).

(** [inter / area_segs] for one segment and the window [[st, ed]]. *)
Definition inter_ratio (st ed : Q) (g : segment) : ratio :=
  let inter := clamp_min (window_right ed g - window_left st g) 0 in
  let area_segs := Qabs (snd g - fst g) in
  if Qeq_bool area_segs 0 then
    if Qeq_bool inter 0 then RatioNaN else RatioInf
  else Ratio (inter / area_segs).

(** [inter_ratio >= trunc_thresh]; a comparison with [nan] is false. *)
Definition ratio_ge (trunc_thresh : Q) (r : ratio) : bool :=
  match r with
  | Ratio q => Qle_bool trunc_thresh q
  | RatioInf => true
  | RatioNaN => false
  end.

(** [(inter_ratio > 0.0) & (inter_ratio < 1.0)]. *)
Definition ratio_truncated (r : ratio) : bool :=
  match r with
  | Ratio q => Qlt_bool 0 q && Qlt_bool q 1
  | RatioInf => false
  | RatioNaN => false
  end.

(** [seg_idx] for the window that starts at [st]. *)
Definition seg_idx (trunc_thresh : Q) (max_seq_len : nat) (segments : list segment)
  (st : nat) : list bool :=
  map (fun g => ratio_ge trunc_thresh
                  (inter_ratio (Q_of_nat st) (Q_of_nat (st + max_seq_len)) g))
      segments.

(** The test that ends the sampling loop with [break]. *)
Definition window_accepted (has_action no_trunc : bool) (trunc_thresh : Q)
  (max_seq_len : nat) (segments : list segment) (st : nat) : bool :=
  let num_idx := length (filter (fun b => b) (seg_idx trunc_thresh max_seq_len segments st)) in
  if no_trunc then
    let seg_trunc_idx :=
      map (fun g => ratio_truncated
                      (inter_ratio (Q_of_nat st) (Q_of_nat (st + max_seq_len)) g))
          segments in
    (0 <? num_idx)%nat && (length (filter (fun b => b) seg_trunc_idx) =? 0)%nat
  else if has_action then (0 <? num_idx)%nat
  else true.

(** The sampling loop.  [draws t] is the value that [random.randint] returns
    in iteration [t]; [st] is the value of the loop variable of the same
    name so far, [None] before the first iteration. *)
Fixpoint sample_window (accepted : nat -> bool) (draws : nat -> nat)
  (trial remaining : nat) (st : option nat) : option nat :=
  match remaining with
  | O => st
  | S remaining' =>
      let st := draws trial in
      if accepted st then Some st
      else sample_window accepted draws (S trial) remaining' (Some st)
  end.

(** [x[mask]] for a boolean mask over the only dimension of [x]. *)
Definition bool_index {A : Type} (x : list A) (mask : list bool) : result (list A) :=
  if (length x =? length mask)%nat then
    Ok (map fst (filter snd (combine x mask)))
  else Err (IndexError "The shape of the mask does not match the shape of the indexed tensor").

(** [feats[:, st:ed]]. *)
Definition slice_cols {A : Type} (st ed : nat) (feats : list (list A)) : list (list A) :=
  map (fun row => firstn (ed - st) (skipn st row)) feats.

(** The part of [truncate_feats] after the early returns, for the window
    length in force. *)
Definition truncate_window (data_dict : data_item) (max_seq_len : nat)
  (trunc_thresh : Q) (max_num_trials : nat) (has_action no_trunc : bool)
  (draws : nat -> nat) : result data_item :=
  let segments := item_segments data_dict in
  match sample_window
          (window_accepted has_action no_trunc trunc_thresh max_seq_len segments)
          draws 0 max_num_trials None with
  | None => Err (UnboundLocalError "st")
  | Some st =>
      let ed := (st + max_seq_len)%nat in
      let idx := seg_idx trunc_thresh max_seq_len segments st in
      let feats_v := slice_cols st ed (item_feats_v data_dict) in
      let feats_a := slice_cols st ed (item_feats_a data_dict) in
      left <- bool_index (map (window_left (Q_of_nat st)) segments) idx ;;
      right <- bool_index (map (window_right (Q_of_nat ed)) segments) idx ;;
      let segments' :=
        map (fun lr => (fst lr - Q_of_nat st, snd lr - Q_of_nat st)) (combine left right) in
      labels_v <- bool_index (item_labels_v data_dict) idx ;;
      labels_n <- bool_index (item_labels_n data_dict) idx ;;
      Ok (mkItem feats_v feats_a segments' labels_v labels_n)
  end.

(** [crop] is [None] when [crop_ratio] is, and otherwise the value that
    [random.randint] returns for the new window length. *)
Definition truncate_feats (data_dict : data_item) (max_seq_len : nat)
  (trunc_thresh : Q) (crop : option nat) (max_num_trials : nat)
  (has_action no_trunc : bool) (draws : nat -> nat) : result data_item :=
  let feat_len := feat_len (item_feats_v data_dict) in
  if (feat_len <=? max_seq_len)%nat then
    match crop with
    | None => Ok data_dict
    | Some max_seq_len =>
        if (feat_len =? max_seq_len)%nat then Ok data_dict
        else truncate_window data_dict max_seq_len trunc_thresh max_num_trials
               has_action no_trunc draws
    end
  else truncate_window data_dict max_seq_len trunc_thresh max_num_trials
         has_action no_trunc draws.

(** ** The class scores of a level and the loop over the levels
    ([inference_single_video], [inference]) *)



(** [torch.sort(cls.sigmoid(), descending=True, dim=1)]: the sorted scores
    and the class indices. *)
Definition sort_classes (K : kernels) (cls : list (list Q))
  : list (list Q) * list (list Z) :=
  let sorted := map (fun row => sort_desc (map (t_sigmoid K) row)) cls in
  (map (map fst) sorted, map (map (fun si => Z.of_nat (snd si))) sorted).

(** What the loop body reads for one level once the logits are fused:
    [pts_i], [mask_i], [cls_i_verb], [cls_i_noun] and [offsets_i]. *)
Record level_inputs : Type := mkLevel {
  lvl_pts : list point;
  lvl_mask : list bool;
  lvl_cls_verb : list (list Q);
  lvl_cls_noun : list (list Q);
  lvl_offsets : list (Q * Q)
}.

(** The loop body from the sort of the class scores on. *)
Definition inference_level (K : kernels) (cfg : model_cfg) (l : level_inputs)
  : result (list detection) :=
  let (cls_verb_score, cls_verb_label) := sort_classes K (lvl_cls_verb l) in
  let (cls_noun_score, cls_noun_label) := sort_classes K (lvl_cls_noun l) in
  decode_level cfg (lvl_pts l) (lvl_mask l) cls_verb_score cls_verb_label
    cls_noun_score cls_noun_label (lvl_offsets l).

(** The loop over the levels and the concatenation of their candidates;
    [torch.cat] refuses an empty list. *)
Definition inference_single_video (K : kernels) (cfg : model_cfg)
  (levels : list level_inputs)
  : result (list (Q * Q) * list Q * list Z * list Z) :=
  per_level <- mapM (inference_level K cfg) levels ;;
  match per_level with
  | [] => Err (RuntimeError "torch.cat(): expected a non-empty list of Tensors")
  | _ =>
      let dets := concat per_level in
      Ok (map det_seg dets, map det_score dets, map det_verb dets, map det_noun dets)
  end.

(** The meta information of a video that [inference] passes through. *)
Record video_meta : Type := mkMeta {
  meta_fps : Q;
  meta_duration : Q;
  meta_feat_stride : Q;
  meta_feat_num_frames : Q
}.

Definition inference (K : kernels) (cfg : model_cfg) (test_nms_method : nms_method)
  (batched_nms : nms_fun) (videos : list (video_meta * list level_inputs))
  : result (list processed_result) :=
  results <- mapM (fun v =>
                     r <- inference_single_video K cfg (snd v) ;;
                     let '(segs, scores, labels_verb, labels_noun) := r in
                     Ok (mkResult segs scores labels_verb labels_noun
                                  (meta_fps (fst v)) (meta_duration (fst v))
                                  (meta_feat_stride (fst v))
                                  (meta_feat_num_frames (fst v))))
                  videos ;;
  Ok (postprocessing test_nms_method batched_nms results).

(** ** The strides of the levels and [max_div_factor] ([PtTransformer.__init__]) *)

(** [n_mha_win_size] is an integer or a list with one entry per level. *)
Inductive win_size : Type :=
| WinInt (w : Z)
| WinList (ws : list Z).

(** [[scale_factor**i for i in range(backbone_arch[-1]+1)]], for a positive
    scale factor and [num_levels = backbone_arch[-1]+1]. *)
Definition fpn_strides (scale_factor : positive) (num_levels : nat) : list Z :=
  map (fun i => (Zpos scale_factor ^ Z.of_nat i)%Z) (seq 0 num_levels).

Definition mha_win_sizes (n_mha_win_size : win_size) (num_levels : nat)
  : result (list Z) :=
  match n_mha_win_size with
  | WinInt w => Ok (repeat w num_levels)
  | WinList ws =>
      if (length ws =? num_levels)%nat then Ok ws
      else Err (AssertionError EmptyString)
  end.

(** [s * (w // 2) * 2 if w > 1 else s]. *)
Definition level_stride (s w : Z) : Z :=
  if (1 <? w)%Z then (s * (w / 2) * 2)%Z else s.

Fixpoint max_div_factor_loop (max_seq_len : Z) (levels : list (Z * Z))
  (max_div_factor : Z) : result Z :=
  match levels with
  | [] => Ok max_div_factor
  | (s, w) :: rest =>
      let stride := level_stride s w in
      if (max_seq_len mod stride =? 0)%Z then
        max_div_factor_loop max_seq_len rest
          (if (max_div_factor <? stride)%Z then stride else max_div_factor)
      else Err (AssertionError
                  "max_seq_len must be divisible by fpn stride and window size")
  end.

(** The part of [__init__] that checks the pyramid and computes
    [self.max_div_factor]. *)
Definition init_max_div_factor (scale_factor : positive) (num_levels : nat)
  (regression_range : list (Q * Q)) (max_seq_len : Z) (n_mha_win_size : win_size)
  : result Z :=
  if (length (fpn_strides scale_factor num_levels) =? length regression_range)%nat then
    mha_win_size <- mha_win_sizes n_mha_win_size
                      (length (fpn_strides scale_factor num_levels)) ;;
    max_div_factor_loop max_seq_len
      (combine (fpn_strides scale_factor num_levels) mha_win_size) 1%Z
  else Err (AssertionError EmptyString).

(** ** The epochs of a run ([main] of [train.py]) *)

(** What the loop over the epochs does, in order. *)
Inductive event : Type :=
| TrainOneEpoch (epoch : Z)
| SaveCheckpoint (epoch : Z).

(** [range(a, b)]. *)
Definition range (a b : Z) : list Z :=
  map (fun i => (a + Z.of_nat i)%Z) (seq 0 (Z.to_nat (b - a))).

(** The condition under which the states are saved after an epoch. *)
Definition saves_checkpoint (max_epochs ckpt_freq epoch : Z) : bool :=
  (epoch =? max_epochs - 1)%Z
  || ((0 <? ckpt_freq)%Z && (epoch mod ckpt_freq =? 0)%Z && (15 <? epoch)%Z).

Fixpoint epoch_loop (stop_save_epoch max_epochs ckpt_freq : Z) (epochs : list Z)
  : list event :=
  match epochs with
  | [] => []
  | epoch :: rest =>
      if (epoch =? stop_save_epoch)%Z then []
      else
        TrainOneEpoch epoch
        :: (if saves_checkpoint max_epochs ckpt_freq epoch
            then [SaveCheckpoint epoch] else [])
        ++ epoch_loop stop_save_epoch max_epochs ckpt_freq rest
  end.

Definition training_epochs (start_epoch stop_save_epoch max_epochs ckpt_freq : Z)
  : list event :=
  epoch_loop stop_save_epoch max_epochs ckpt_freq (range start_epoch max_epochs).

(** ** Configurations and inputs used in the examples *)

(** 97 verb and 300 noun classes, the default command-line arguments of
    [train.py]. *)
Definition cfg_none : model_cfg :=
  mkCfg 97 300 NoSampling (3 # 2) 0 (1 # 1000) 5000 (1 # 20).

Definition cfg_radius : model_cfg :=
  mkCfg 97 300 Radius (3 # 2) 0 (1 # 1000) 5000 (1 # 20).

Definition args_default : cli_args :=
  mkArgs (11 # 2) 4 (1 # 2) 1 1 (3 # 2) 1 (3 # 2).

(** Six anchors [t = 0..5] of one level with stride 1 and regression range
    [[0, 8]]. *)
Definition anchors6 : list point :=
  map (fun t => mkPoint (Q_of_nat t) 0 8 1) (seq 0 6).

(** Accessors for the first three components of the returned tuple. *)
Definition tuple_cls_v (t : py_tuple) : list Z :=
  match t with Tuple3 v _ _ => v | Tuple6 v _ _ _ _ _ => v end.
Definition tuple_cls_n (t : py_tuple) : list Z :=
  match t with Tuple3 _ n _ => n | Tuple6 _ n _ _ _ _ => n end.
Definition tuple_reg (t : py_tuple) : list (Q * Q) :=
  match t with Tuple3 _ _ r => r | Tuple6 _ _ r _ _ _ => r end.

(** Two points of one level with their sorted class scores and labels, for
    the decoder. *)
Definition decode_pts : list point := [mkPoint 0 0 4 1; mkPoint 1 0 4 1].
Definition decode_mask : list bool := [true; true].
Definition decode_offsets : list (Q * Q) := [(1, 2); (1 # 2, 3)].
Definition decode_verb_score : list (list Q) :=
  let row := map (fun k => Q_of_nat (11 - k) / 12) (seq 0 11) in [row; row].
Definition decode_noun_score : list (list Q) :=
  let row := map (fun k => Q_of_nat (33 - k) / 34) (seq 0 33) in [row; row].
Definition decode_verb_label : list (list Z) :=
  let row := map Z.of_nat (seq 0 11) in [row; row].
Definition decode_noun_label : list (list Z) :=
  let row := map Z.of_nat (seq 0 33) in [row; row].

(** The point tables of a model with [max_seq_len = 2304] and six levels of
    strides 1, 2, 4, 8, 16 and 32: 2304 + 1152 + ... + 72 = 4536 points, the
    number of entries of the dense labels. *)
Definition fpn_levels_2304 : list (nat * (Q * Q)) :=
  [(1%nat, (0, 4)); (2%nat, (4, 8)); (4%nat, (8, 16)); (8%nat, (16, 32));
   (16%nat, (32, 64)); (32%nat, (64, 10000))].

Definition points_2304 : list (list point) := point_generator 2304 fpn_levels_2304.

(** Head outputs of constant value for a batch of [B] videos: every point
    valid, every logit 0, predicted offsets [(1, 1)], raw boundary offsets
    [(0, 0)], actionness logit 0.  The audio stream has no regression
    outputs. *)
Definition per_level {A : Type} (B : nat) (x : A) : list (list (list A)) :=
  map (fun T => repeat (repeat x T) B) num_levels.

Definition visual_stream (B : nat) : stream_outputs :=
  mkStream (per_level B true) (per_level B (repeat 0 97)) (per_level B (repeat 0 300))
           (Some (per_level B (1, 1))) (Some (per_level B (0, 0))) (Some (per_level B 0)).

Definition audio_stream (B : nat) : stream_outputs :=
  mkStream (per_level B true) (per_level B (repeat 0 97)) (per_level B (repeat 0 300))
           None None None.

(** A batch of two videos with the segment [(2, 4)] each, and a batch of
    two videos with the zero-length segment [(5, 5)] each. *)
Definition batch_segments : list (list segment) := [[(2, 4)]; [(2, 4)]].
Definition batch_zero_length : list (list segment) := [[(5, 5)]; [(5, 5)]].
Definition batch_labels : list (list Z) := [[1%Z]; [1%Z]].

(** Kernels with rational values, to name a concrete call; no statement
    depends on their values. *)
Definition probe_kernels : kernels :=
  mkKernels (fun _ => 1) (fun _ => 1 # 2) (fun _ _ => 1).

(** ** Vocabulary of the statements *)

(** A point qualifies for a segment when it passes both masks of the
    matching. *)
Definition qualifies (cfg : model_cfg) (p : point) (g : segment) : bool :=
  inside_gt_seg_mask cfg p g && inside_regress_range p g.

Definition duration (g : segment) : Q := snd g - fst g.

Definition in_unit_interval (x : Q) : Prop := 0 <= x /\ x <= 1.

(** [t[i, j]] when both indices are in range. *)
Definition at2 {A : Type} (t : list (list A)) (i j : nat) : option A :=
  match nth_error t i with
  | Some row => nth_error row j
  | None => None
  end.

(** A decoded row is consistent with the flattened score tensor: its flat
    index is the row-major position of [(point, noun offset, verb offset)]
    in the per-point [noun_topk x verb_topk] blocks, its score is the entry
    at that position, which is the product of the two addressed class scores,
    and its labels are the two addressed labels. *)
Definition addresses_selected_score
  (cls_noun_score_topk cls_verb_score_topk : list (list Q))
  (cls_noun_label_topk cls_verb_label_topk : list (list Z)) (d : detection) : Prop :=
  det_pt d = (det_flat d / (verb_topk * noun_topk))%nat
  /\ det_noun_idx1 d = (det_flat d mod (verb_topk * noun_topk) / verb_topk)%nat
  /\ det_verb_idx1 d = (det_flat d mod (verb_topk * noun_topk) mod verb_topk)%nat
  /\ det_flat d
     = (det_pt d * (verb_topk * noun_topk) + det_noun_idx1 d * verb_topk
        + det_verb_idx1 d)%nat
  /\ (det_noun_idx1 d < noun_topk)%nat /\ (det_verb_idx1 d < verb_topk)%nat
  /\ nth_error (flatten3 (mul_cls_score cls_noun_score_topk cls_verb_score_topk))
               (det_flat d) = Some (det_score d)
  /\ (exists n_s v_s,
        at2 cls_noun_score_topk (det_pt d) (det_noun_idx1 d) = Some n_s
        /\ at2 cls_verb_score_topk (det_pt d) (det_verb_idx1 d) = Some v_s
        /\ det_score d = n_s * v_s)
  /\ at2 cls_noun_label_topk (det_pt d) (det_noun_idx1 d) = Some (det_noun d)
  /\ at2 cls_verb_label_topk (det_pt d) (det_verb_idx1 d) = Some (det_verb d).

(** The total focal loss of one taxonomy over the valid points, before the
    division by its normaliser. *)
Definition focal_total (K : kernels) (C : Z) (smoothing : Q)
  (gt_cls : list (list Z)) (logits : list (list (list Q)))
  (valid_mask : list (list bool)) : Q :=
  sigmoid_focal_loss K (select_rows logits valid_mask)
    (map (one_hot_smoothed C smoothing) (select_rows gt_cls valid_mask)).

(** The inputs of the classification loss of one taxonomy are well shaped:
    labels and logits have the shape of the mask and the valid labels are
    class indices or the sentinel. *)
Definition cls_ready (C : Z) (gt_cls : list (list Z)) (logits : list (list (list Q)))
  (valid_mask : list (list bool)) : bool :=
  same_shape gt_cls valid_mask
  && forallb (label_in_range C) (select_rows gt_cls valid_mask)
  && same_shape logits valid_mask.

(** The selections of [losses] succeed and both classification losses are
    well shaped. *)
Definition stream_ready (cfg : model_cfg) (o : stream_outputs) (g : batch_targets)
  (is_audio : bool) : bool :=
  let valid_mask := cat_dim1 (fpn_masks o) in
  match positive_inputs o g (pos_mask cfg (gt_cls_v g) (gt_cls_n g) valid_mask) is_audio with
  | Err _ => false
  | Ok _ =>
      cls_ready (num_classes_verb cfg) (gt_cls_v g) (cat_dim1 (out_cls_logits_v o)) valid_mask
      && cls_ready (num_classes_noun cfg) (gt_cls_n g) (cat_dim1 (out_cls_logits_n o)) valid_mask
  end.

(** There are positive points and the two assertions of [ctr_giou_loss_1d]
    hold on them. *)
Definition giou_ready (cfg : model_cfg) (o : stream_outputs) (g : batch_targets) : bool :=
  let pm := pos_mask cfg (gt_cls_v g) (gt_cls_n g) (cat_dim1 (fpn_masks o)) in
  match positive_inputs o g pm false with
  | Err _ => false
  | Ok (pred_offsets, _, _, (gt_offsets, _, _, _)) =>
      negb (count_true pm =? 0)%nat && all_nonneg pred_offsets && all_nonneg gt_offsets
  end.

(** The number of positive points that a training step sees on a stream. *)
Definition step_num_pos (cfg : model_cfg) (args : cli_args) (points : list (list point))
  (gt_segments : list (list segment)) (gt_labels_v gt_labels_n : list (list Z))
  (o : stream_outputs) : nat :=
  match label_points cfg args points gt_segments gt_labels_v gt_labels_n with
  | Ok g => num_pos_of cfg o g
  | Err _ => 0%nat
  end.

(** A training step on which both calls of [losses] go through. *)
Definition forward_ready (cfg : model_cfg) (args : cli_args) (points : list (list point))
  (gt_segments : list (list segment)) (gt_labels_v gt_labels_n : list (list Z))
  (visual audio : stream_outputs) : bool :=
  match label_points cfg args points gt_segments gt_labels_v gt_labels_n with
  | Ok g => stream_ready cfg visual g false && giou_ready cfg visual g
            && stream_ready cfg audio g true
  | Err _ => false
  end.

(** An anchor index lies in the closed span of a (scaled) segment: the test
    of the loop that writes [match_score_action]. *)
Definition covers (g : segment) (ii : nat) : bool :=
  Qle_bool (fst g) (Q_of_nat ii) && Qle_bool (Q_of_nat ii) (snd g).

(** The segments of a video at a resolution level. *)
Definition scaled_segments (gts : list segment) (ratio : Q) : list segment :=
  map (fun g => (fst g / ratio, snd g / ratio)) gts.

(** The shape of the targets of a batch of [B] videos for [N] points: one
    row per video; [N] class and regression targets per row, 4536 dense
    labels per row. *)
Definition targets_shape (N B : nat) (g : batch_targets) : Prop :=
  (length (gt_cls_v g) = B /\ Forall (fun r => length r = N) (gt_cls_v g))
  /\ (length (gt_cls_n g) = B /\ Forall (fun r => length r = N) (gt_cls_n g))
  /\ (length (gt_offset g) = B /\ Forall (fun r => length r = N) (gt_offset g))
  /\ (length (gt_start g) = B /\ Forall (fun r => length r = 4536%nat) (gt_start g))
  /\ (length (gt_end g) = B /\ Forall (fun r => length r = 4536%nat) (gt_end g))
  /\ (length (gt_action g) = B /\ Forall (fun r => length r = 4536%nat) (gt_action g)).

(** A video of a batch that the assigner accepts: at least one segment, and
    one verb and one noun label per segment. *)
Definition video_labelled (v : list segment * (list Z * list Z)) : Prop :=
  fst v <> [] /\ length (fst (snd v)) = length (fst v)
  /\ length (snd (snd v)) = length (fst v).

(** What the losses use of the elementwise kernels: a sigmoid with values
    in [[0, 1]] and a cross entropy that is non-negative on targets in
    [[0, 1]]. *)
Definition kernels_in_range (K : kernels) : Prop :=
  (forall x, 0 <= t_sigmoid K x /\ t_sigmoid K x <= 1)
  /\ (forall x t, 0 <= t -> t <= 1 -> 0 <= t_bce_with_logits K x t).

(** Scores in descending order. *)
Definition descending (l : list Q) : Prop := StronglySorted (fun a b => b <= a) l.

(** The segment decoded from a point and a pair of normalised offsets
    ([seg_left], [seg_right] of [inference_single_video]). *)
Definition pred_seg (p : point) (offsets : Q * Q) : Q * Q :=
  (pt_t p - fst offsets * pt_stride p, pt_t p + snd offsets * pt_stride p).

(** [x] clamped to [[0, vlen]]. *)
Definition clamp_to_duration (vlen x : Q) : Q := qmin vlen (qmax 0 x).

(** What [postprocessing] hands to the rescaling: the candidates as they
    come out of the suppression, or as they came in when it is switched
    off. *)
Definition suppressed (test_nms_method : nms_method) (batched_nms : nms_fun)
  (r : video_result) : list (Q * Q) * list Q * list Z * list Z :=
  match test_nms_method with
  | NmsNone => (res_segments r, res_scores r, res_labels_verb r, res_labels_noun r)
  | NmsSoft => batched_nms true (res_segments r) (res_scores r)
                 (res_labels_verb r) (res_labels_noun r)
  | NmsHard => batched_nms false (res_segments r) (res_scores r)
                 (res_labels_verb r) (res_labels_noun r)
  end.

(** A rectangular feature tensor with [C] rows. *)
Definition rectangular (C : nat) (feat : list (list Q)) : Prop :=
  length feat = C /\ Forall (fun row => length row = feat_len feat) feat.

(** A suppression that returns nothing, to name a concrete call. *)
Definition nms_nothing : nms_fun := fun _ _ _ _ _ => ([], [], [], []).

(** The window that starts at [st] keeps at least one segment. *)
Definition sees_action (trunc_thresh : Q) (max_seq_len : nat)
  (segments : list segment) (st : nat) : Prop :=
  exists g, In g segments
            /\ ratio_ge trunc_thresh
                 (inter_ratio (Q_of_nat st) (Q_of_nat (st + max_seq_len)) g) = true.

(** The annotations of an item, one row per action. *)
Definition annotations (d : data_item) : list (segment * (Z * Z)) :=
  combine (item_segments d) (combine (item_labels_v d) (item_labels_n d)).

(** Every segment has a verb and a noun label. *)
Definition labels_aligned (d : data_item) : Prop :=
  length (item_labels_v d) = length (item_segments d)
  /\ length (item_labels_n d) = length (item_segments d).

(** A short video with two actions, used to name concrete calls. *)
Definition item_two_actions : data_item :=
  mkItem [[1; 2; 3; 4; 5; 6; 7; 8]; [11; 12; 13; 14; 15; 16; 17; 18]]
         [[21; 22; 23; 24; 25; 26; 27; 28]]
         [(1, 3); (6, 8)] [4%Z; 5%Z] [40%Z; 50%Z].

(** The tensors of a level agree on the number of points, and every point
    has at least [verb_topk] verb and [noun_topk] noun classes. *)
Definition level_well_shaped (l : level_inputs) : Prop :=
  length (lvl_mask l) = length (lvl_pts l)
  /\ length (lvl_cls_verb l) = length (lvl_pts l)
  /\ length (lvl_cls_noun l) = length (lvl_pts l)
  /\ length (lvl_offsets l) = length (lvl_pts l)
  /\ Forall (fun r => (verb_topk <= length r)%nat) (lvl_cls_verb l)
  /\ Forall (fun r => (noun_topk <= length r)%nat) (lvl_cls_noun l).

(** The sigmoid of the kernels is strictly increasing. *)
Definition sigmoid_increasing (K : kernels) : Prop :=
  forall x y, t_sigmoid K x <= t_sigmoid K y <-> x <= y.


(** A strictly increasing map of the rationals into the unit interval, in
    the place of the sigmoid in concrete calls. *)
Definition rational_sigmoid (x : Q) : Q := (1 + x / (1 + Qabs x)) / 2.

Definition rational_kernels : kernels :=
  mkKernels (fun _ => 1) rational_sigmoid (fun _ _ => 1).

(** A level of two points with 11 verb and 33 noun classes. *)
Definition level_two_points : level_inputs :=
  mkLevel decode_pts decode_mask
          (let row := map (fun k => Q_of_nat k) (seq 0 11) in [row; row])
          (let row := map (fun k => Q_of_nat k) (seq 0 33) in [row; row])
          decode_offsets.

(** A candidate [d] of level [l] is explained by the logits: it sits on an
    unmasked point, its segment is decoded from the offsets of that point,
    its labels are class indices of that point and its score is the product
    of the sigmoids of the two logits they name. *)
Definition explained_by (K : kernels) (l : level_inputs) (d : detection) : Prop :=
  exists p offsets verb_row noun_row v n verb_logit noun_logit,
    nth_error (lvl_pts l) (det_pt d) = Some p
    /\ nth_error (lvl_mask l) (det_pt d) = Some true
    /\ nth_error (lvl_offsets l) (det_pt d) = Some offsets
    /\ det_seg d = pred_seg p offsets
    /\ nth_error (lvl_cls_verb l) (det_pt d) = Some verb_row
    /\ nth_error verb_row v = Some verb_logit
    /\ det_verb d = Z.of_nat v
    /\ nth_error (lvl_cls_noun l) (det_pt d) = Some noun_row
    /\ nth_error noun_row n = Some noun_logit
    /\ det_noun d = Z.of_nat n
    /\ det_score d == t_sigmoid K noun_logit * t_sigmoid K verb_logit.



(** A video that [inference] can decode: at least one level, well-shaped
    levels, a positive frame rate, a non-negative stride and duration. *)
Definition video_ready (v : video_meta * list level_inputs) : Prop :=
  snd v <> [] /\ Forall level_well_shaped (snd v)
  /\ 0 < meta_fps (fst v) /\ 0 <= meta_feat_stride (fst v)
  /\ 0 <= meta_duration (fst v).

(** What the float32 kernels guarantee on the arguments of the boundary
    confidence: [torch.exp] of a number that is not positive lies in
    [[0, 1]] (it is 0 once the result underflows), and [torch.sigmoid] of a
    number of [[0, 1]] lies between [1/2 = sigmoid 0] and [sigmoid 1]. *)
Definition float_kernels (K : kernels) : Prop :=
  (forall x, x <= 0 -> 0 <= t_exp K x /\ t_exp K x <= 1)
  /\ (forall y, 0 <= y -> y <= 1 ->
                1 # 2 <= t_sigmoid K y /\ t_sigmoid K y <= t_sigmoid K 1).

(** Kernels that agree with the float32 ones where the example below
    evaluates them: [exp] is 0 below [-110] ([e^-110] is less than half of
    the least positive float32 number, [2^-149]) and [sigmoid 0] is [1/2].
    Elsewhere they are rational functions with the same monotonicity and
    range. *)
Definition underflow_kernels : kernels :=
  mkKernels (fun x => if Qle_bool x (-110) then 0
                      else if Qle_bool x 0 then 1 / (1 - x) else 1 + x)
            rational_sigmoid
            (fun _ _ => 1).

(** * Properties *)

(** ** Arithmetic helpers *)

Lemma Qlt_bool_iff (x y : Q) : Qlt_bool x y = true <-> x < y.
Proof.
  unfold Qlt_bool. rewrite negb_true_iff. split.
  - intros H. apply Qnot_le_lt. intros Hle.
    apply Qle_bool_iff in Hle. congruence.
  - intros H. destruct (Qle_bool y x) eqn:E; [|reflexivity].
    apply Qle_bool_iff in E. lra.
Qed.

Lemma Qlt_bool_false_iff (x y : Q) : Qlt_bool x y = false <-> y <= x.
Proof.
  unfold Qlt_bool. rewrite negb_false_iff. apply Qle_bool_iff.
Qed.

Lemma qmax_spec (x y : Q) : (x <= y /\ qmax x y = y) \/ (y < x /\ qmax x y = x).
Proof.
  unfold qmax. destruct (Qle_bool x y) eqn:E.
  - left. split; [now apply Qle_bool_iff|reflexivity].
  - right. split; [|reflexivity].
    apply Qnot_le_lt. intros H. apply Qle_bool_iff in H. congruence.
Qed.

Lemma qmin_spec (x y : Q) : (x <= y /\ qmin x y = x) \/ (y < x /\ qmin x y = y).
Proof.
  unfold qmin. destruct (Qle_bool x y) eqn:E.
  - left. split; [now apply Qle_bool_iff|reflexivity].
  - right. split; [|reflexivity].
    apply Qnot_le_lt. intros H. apply Qle_bool_iff in H. congruence.
Qed.

(** Case analysis on every [qmax] and [qmin] in sight, then linear
    arithmetic. *)
Ltac minmax :=
  repeat match goal with
         | |- context [qmax ?a ?b] =>
             let H := fresh in
             destruct (qmax_spec a b) as [[? H]|[? H]]; rewrite H in *; clear H
         | _ : context [qmax ?a ?b] |- _ =>
             let H := fresh in
             destruct (qmax_spec a b) as [[? H]|[? H]]; rewrite H in *; clear H
         | |- context [qmin ?a ?b] =>
             let H := fresh in
             destruct (qmin_spec a b) as [[? H]|[? H]]; rewrite H in *; clear H
         | _ : context [qmin ?a ?b] |- _ =>
             let H := fresh in
             destruct (qmin_spec a b) as [[? H]|[? H]]; rewrite H in *; clear H
         end.

Lemma Q_of_nat_S (n : nat) : Q_of_nat (S n) == Q_of_nat n + 1.
Proof.
  unfold Q_of_nat. rewrite Nat2Z.inj_succ. unfold Z.succ.
  rewrite inject_Z_plus. reflexivity.
Qed.

(** ** The result monad *)

Lemma bind_ok {A B : Type} (a : A) (k : A -> result B) : bind (Ok a) k = k a.
Proof. reflexivity. Qed.

Lemma mapM_ok {A B : Type} (f : A -> result B) (l : list A) :
  (forall x, In x l -> exists y, f x = Ok y) ->
  exists ys, mapM f l = Ok ys /\ Forall2 (fun x y => f x = Ok y) l ys.
Proof.
  induction l as [|x l IH]; intros H.
  - exists []. split; [reflexivity|constructor].
  - destruct (H x (or_introl eq_refl)) as [y Hy].
    destruct IH as [ys [Hys HF]]; [intros z Hz; apply H; now right|].
    exists (y :: ys). simpl. rewrite Hy. simpl. rewrite Hys. simpl.
    split; [reflexivity|now constructor].
Qed.

Lemma mapM_inv {A B : Type} (f : A -> result B) (l : list A) (ys : list B) :
  mapM f l = Ok ys -> Forall2 (fun x y => f x = Ok y) l ys.
Proof.
  revert ys. induction l as [|x l IH]; simpl; intros ys H.
  - inversion H. constructor.
  - destruct (f x) as [y|e] eqn:Hy; simpl in H; [|discriminate].
    destruct (mapM f l) as [ys'|e] eqn:Hys; simpl in H; [|discriminate].
    inversion H; subst. constructor; [assumption|now apply IH].
Qed.

Lemma mapM_length {A B : Type} (f : A -> result B) (l : list A) (ys : list B) :
  mapM f l = Ok ys -> length ys = length l.
Proof.
  intros H. apply mapM_inv in H. symmetry. exact (Forall2_length H).
Qed.

Lemma Forall2_nth_error {A B : Type} (R : A -> B -> Prop) (l : list A) (l' : list B) :
  Forall2 R l l' ->
  forall i x, nth_error l i = Some x -> exists y, nth_error l' i = Some y /\ R x y.
Proof.
  induction 1 as [|a b l l' Hab HF IH]; intros i x Hi.
  - destruct i; discriminate.
  - destruct i as [|i]; simpl in *.
    + inversion Hi; subst. now exists b.
    + now apply IH.
Qed.

(** ** The order on durations and the row minimum *)

Lemma len_ltb_irrefl (a : len_t) : len_ltb a a = false.
Proof.
  destruct a as [q|]; simpl; [|reflexivity].
  apply Qlt_bool_false_iff. lra.
Qed.

Lemma len_le_lt_trans (x b y : len_t) :
  len_ltb x b = true -> len_ltb y b = false -> len_ltb x y = true.
Proof.
  destruct x as [x|], b as [b|], y as [y|]; simpl; try congruence.
  rewrite !Qlt_bool_iff, Qlt_bool_false_iff. lra.
Qed.

Lemma len_lt_not_gt (x y : len_t) : len_ltb x y = true -> len_ltb y x = false.
Proof.
  destruct x as [x|], y as [y|]; simpl; try congruence.
  rewrite Qlt_bool_iff, Qlt_bool_false_iff. lra.
Qed.

Lemma row_min_from_spec (l pre : list len_t) (best : len_t) (besti : nat) :
  nth_error pre besti = Some best ->
  (forall k y, nth_error pre k = Some y -> len_ltb y best = false) ->
  (forall k y, (k < besti)%nat -> nth_error pre k = Some y -> len_ltb best y = true) ->
  forall m j, row_min_from (length pre) best besti l = (m, j) ->
  nth_error (pre ++ l) j = Some m
  /\ (forall k y, nth_error (pre ++ l) k = Some y -> len_ltb y m = false)
  /\ (forall k y, (k < j)%nat -> nth_error (pre ++ l) k = Some y -> len_ltb m y = true).
Proof.
  revert pre best besti.
  induction l as [|x r IH]; intros pre best besti Hb Hmin Hfirst m j Hrun.
  - simpl in Hrun. inversion Hrun; subst. rewrite app_nil_r.
    repeat split; assumption.
  - simpl in Hrun.
    assert (Hlen : length (pre ++ [x]) = S (length pre))
      by (rewrite length_app; simpl; lia).
    assert (Happ : pre ++ x :: r = (pre ++ [x]) ++ r)
      by (rewrite <- app_assoc; reflexivity).
    rewrite Happ. rewrite <- Hlen in Hrun.
    destruct (len_ltb x best) eqn:Hx.
    + apply (IH (pre ++ [x]) x (length pre)); try assumption.
      * rewrite nth_error_app2 by lia. now rewrite Nat.sub_diag.
      * intros k y Hk.
        destruct (Nat.lt_ge_cases k (length pre)) as [Hlt|Hge].
        -- rewrite nth_error_app1 in Hk by assumption.
           apply len_lt_not_gt.
           apply (len_le_lt_trans x best y); [assumption|now apply (Hmin k)].
        -- rewrite nth_error_app2 in Hk by assumption.
           destruct (k - length pre)%nat as [|d] eqn:Hd; simpl in Hk.
           ++ inversion Hk; subst. apply len_ltb_irrefl.
           ++ destruct d; discriminate.
      * intros k y Hlt Hk. rewrite nth_error_app1 in Hk by assumption.
        apply (len_le_lt_trans x best y); [assumption|now apply (Hmin k)].
    + apply (IH (pre ++ [x]) best besti); try assumption.
      * rewrite nth_error_app1; [assumption|].
        apply nth_error_Some. congruence.
      * intros k y Hk.
        destruct (Nat.lt_ge_cases k (length pre)) as [Hlt|Hge].
        -- rewrite nth_error_app1 in Hk by assumption. now apply (Hmin k).
        -- rewrite nth_error_app2 in Hk by assumption.
           destruct (k - length pre)%nat as [|d] eqn:Hd; simpl in Hk.
           ++ inversion Hk; subst. assumption.
           ++ destruct d; discriminate.
      * intros k y Hlt Hk.
        assert (Hbi : (besti < length pre)%nat)
          by (apply nth_error_Some; congruence).
        rewrite nth_error_app1 in Hk by lia. now apply (Hfirst k).
Qed.

(** [row_min] returns the first occurrence of a least entry. *)
Lemma row_min_spec (l : list len_t) :
  l <> [] ->
  exists m j, row_min l = Ok (m, j)
    /\ nth_error l j = Some m
    /\ (forall k y, nth_error l k = Some y -> len_ltb y m = false)
    /\ (forall k y, (k < j)%nat -> nth_error l k = Some y -> len_ltb m y = true).
Proof.
  destruct l as [|x r]; [congruence|]. intros _.
  destruct (row_min_from 1 x 0 r) as [m j] eqn:Hrun.
  exists m, j. split; [simpl; now rewrite Hrun|].
  apply (row_min_from_spec r [x] x 0); try assumption.
  - reflexivity.
  - intros [|[|k]] y Hk; simpl in Hk; try discriminate.
    inversion Hk; subst. apply len_ltb_irrefl.
  - intros k y Hlt. lia.
Qed.

(** ** Matching of one point *)

Lemma masked_lens_nth (cfg : model_cfg) (p : point) (gts : list segment) (j : nat) (g : segment) :
  nth_error gts j = Some g ->
  nth_error (masked_lens cfg p gts) j
  = Some (if qualifies cfg p g then Finite (duration g) else Inf).
Proof.
  intros H. unfold masked_lens. rewrite nth_error_map, H. simpl.
  unfold qualifies, duration.
  destruct (inside_gt_seg_mask cfg p g), (inside_regress_range p g); reflexivity.
Qed.

Lemma masked_lens_length (cfg : model_cfg) (p : point) (gts : list segment) :
  length (masked_lens cfg p gts) = length gts.
Proof. unfold masked_lens. apply length_map. Qed.

Lemma nth_error_same_length {A B : Type} (l : list A) (l' : list B) (j : nat) (x : A) :
  length l' = length l -> nth_error l j = Some x -> exists y, nth_error l' j = Some y.
Proof.
  intros Hlen Hj.
  destruct (nth_error l' j) as [y|] eqn:E; [now exists y|].
  apply nth_error_None in E.
  assert (j < length l)%nat by (apply nth_error_Some; congruence). lia.
Qed.

(** What [assign_point] computes: the index [j] of the first shortest
    qualifying segment, or of the first segment when none qualifies. *)
Lemma assign_point_spec (cfg : model_cfg) (gts : list segment) (lv ln : list Z) (p : point) :
  gts <> [] -> length lv = length gts -> length ln = length gts ->
  exists j g v n,
    nth_error gts j = Some g /\ nth_error lv j = Some v /\ nth_error ln j = Some n
    /\ assign_point cfg gts lv ln p
       = Ok (if qualifies cfg p g then v else num_classes_verb cfg,
             if qualifies cfg p g then n else num_classes_noun cfg,
             (left_dist p g / pt_stride p, right_dist p g / pt_stride p))
    /\ (forall k g', nth_error gts k = Some g' -> qualifies cfg p g' = true ->
          qualifies cfg p g = true /\ duration g <= duration g')
    /\ (forall k g', (k < j)%nat -> nth_error gts k = Some g' ->
          qualifies cfg p g' = true -> duration g < duration g').
Proof.
  intros Hne Hlv Hln.
  destruct (row_min_spec (masked_lens cfg p gts)) as [m [j [Hrow [Hj [Hmin Hfirst]]]]].
  { intros E. apply Hne. apply length_zero_iff_nil.
    rewrite <- (masked_lens_length cfg p gts), E. reflexivity. }
  assert (Hjlt : (j < length gts)%nat).
  { rewrite <- (masked_lens_length cfg p gts). apply nth_error_Some. congruence. }
  destruct (nth_error gts j) as [g|] eqn:Hg;
    [|apply nth_error_None in Hg; lia].
  destruct (nth_error_same_length gts lv j g Hlv Hg) as [v Hv].
  destruct (nth_error_same_length gts ln j g Hln Hg) as [n Hn].
  rewrite (masked_lens_nth cfg p gts j g Hg) in Hj. inversion Hj as [Hm].
  exists j, g, v, n.
  refine (conj Hg (conj Hv (conj Hn (conj _ (conj _ _))))).
  - unfold assign_point. rewrite Hrow. simpl. unfold index.
    rewrite Hv, Hn, Hg. simpl. rewrite <- Hm.
    destruct (qualifies cfg p g); reflexivity.
  - intros k g' Hk Hq.
    pose proof (Hmin k _ (masked_lens_nth cfg p gts k g' Hk)) as Hle.
    rewrite Hq, <- Hm in Hle.
    destruct (qualifies cfg p g); [|discriminate].
    split; [reflexivity|].
    simpl in Hle. now apply Qlt_bool_false_iff in Hle.
  - intros k g' Hlt Hk Hq.
    pose proof (Hfirst k _ Hlt (masked_lens_nth cfg p gts k g' Hk)) as Hs.
    rewrite Hq, <- Hm in Hs.
    destruct (qualifies cfg p g); simpl in Hs; [|discriminate].
    now apply Qlt_bool_iff in Hs.
Qed.

(** ** Geometry of the two masks *)

Lemma inside_gt_seg_positive (cfg : model_cfg) (p : point) (g : segment) :
  inside_gt_seg_mask cfg p g = true ->
  0 < left_dist p g /\ 0 < right_dist p g.
Proof.
  unfold inside_gt_seg_mask, left_dist, right_dist.
  destruct (train_center_sample cfg); intros H;
    apply Qlt_bool_iff in H; minmax; split; lra.
Qed.

Lemma inside_regress_range_band (p : point) (g : segment) :
  inside_regress_range p g = true ->
  pt_reg_min p <= qmax (left_dist p g) (right_dist p g)
  /\ qmax (left_dist p g) (right_dist p g) <= pt_reg_max p.
Proof.
  unfold inside_regress_range. intros H.
  apply andb_true_iff in H. destruct H as [H1 H2].
  now rewrite !Qle_bool_iff in *.
Qed.

Lemma qualifies_facts (cfg : model_cfg) (p : point) (g : segment) :
  qualifies cfg p g = true ->
  0 < left_dist p g /\ 0 < right_dist p g
  /\ pt_reg_min p <= qmax (left_dist p g) (right_dist p g)
  /\ qmax (left_dist p g) (right_dist p g) <= pt_reg_max p.
Proof.
  unfold qualifies. intros H. apply andb_true_iff in H. destruct H as [Hi Hr].
  destruct (inside_gt_seg_positive cfg p g Hi) as [Hl Hrt].
  destruct (inside_regress_range_band p g Hr) as [Hlo Hhi].
  tauto.
Qed.

(** A point on the boundary of a segment, or outside of it, is not inside,
    whatever the sampling mode. *)
Lemma not_inside_on_boundary (cfg : model_cfg) (p : point) (g : segment) :
  left_dist p g <= 0 \/ right_dist p g <= 0 -> qualifies cfg p g = false.
Proof.
  intros H. destruct (qualifies cfg p g) eqn:E; [|reflexivity].
  apply qualifies_facts in E. lra.
Qed.

(** ** Boundary labels *)

Lemma ioa_unit_anchor_bounds (x box_min box_max : Q) :
  in_unit_interval (ioa_with_anchors x (x + 1) box_min box_max).
Proof.
  unfold in_unit_interval, ioa_with_anchors.
  set (inter_len := qmax (qmin (x + 1) box_max - qmax x box_min) 0).
  assert (Hdiv : inter_len / (x + 1 - x) == inter_len) by (field; lra).
  rewrite Hdiv. subst inter_len.
  minmax; split; lra.
Qed.

Lemma fold_left_qmax_bounds (l : list Q) (a : Q) :
  in_unit_interval a -> Forall in_unit_interval l ->
  in_unit_interval (fold_left qmax l a).
Proof.
  revert a. induction l as [|x l IH]; intros a Ha Hl; simpl; [assumption|].
  inversion Hl; subst. apply IH; [|assumption].
  unfold qmax. destruct (Qle_bool a x); assumption.
Qed.

Lemma match_score_ok (bboxs : list (Q * Q)) (jdx : nat) :
  bboxs <> [] ->
  exists s, match_score bboxs jdx = Ok s /\ in_unit_interval s.
Proof.
  destruct bboxs as [|b bs]; [congruence|]. intros _.
  unfold match_score. simpl. eexists. split; [reflexivity|].
  apply fold_left_qmax_bounds.
  - apply ioa_unit_anchor_bounds.
  - apply Forall_map, Forall_forall. intros c _. apply ioa_unit_anchor_bounds.
Qed.

Lemma match_scores_ok (bboxs : list (Q * Q)) (anchors : list nat) :
  bboxs <> [] ->
  exists s, mapM (match_score bboxs) anchors = Ok s
            /\ length s = length anchors /\ Forall in_unit_interval s.
Proof.
  intros Hne. induction anchors as [|a l IH].
  - exists []. repeat split; constructor.
  - destruct (match_score_ok bboxs a Hne) as [x [Hx Hb]].
    destruct IH as [s [Hs [Hlen HF]]].
    exists (x :: s). simpl. rewrite Hx. simpl. rewrite Hs. simpl.
    repeat split; [now rewrite Hlen|now constructor].
Qed.

Lemma level_labels_ok (args : cli_args) (gts : list segment) (n : nat) (ratio : Q) :
  gts <> [] ->
  exists s e a, level_labels args gts n ratio = Ok (s, e, a)
    /\ length s = n /\ length e = n /\ length a = n
    /\ Forall in_unit_interval s /\ Forall in_unit_interval e.
Proof.
  intros Hne. unfold level_labels.
  set (scaled := map (fun g => (fst g / ratio, snd g / ratio)) gts).
  assert (Hsc : scaled <> []) by (destruct gts; [congruence|discriminate]).
  set (sb := map (fun g => boundary_bbox (fst g) (snd g - fst g)) scaled).
  set (eb := map (fun g => boundary_bbox (snd g) (snd g - fst g)) scaled).
  assert (Hsb : sb <> []) by (subst sb; destruct scaled; [congruence|discriminate]).
  assert (Heb : eb <> []) by (subst eb; destruct scaled; [congruence|discriminate]).
  destruct (match_scores_ok sb (seq 0 n) Hsb) as [s [Hs [Hls HFs]]].
  destruct (match_scores_ok eb (seq 0 n) Heb) as [e [He [Hle HFe]]].
  exists s, e, (map (match_score_action args scaled) (seq 0 n)).
  rewrite Hs, He. simpl. rewrite length_seq in Hls, Hle.
  repeat split; try assumption.
  now rewrite length_map, length_seq.
Qed.

Lemma boundary_labels_ok (args : cli_args) (gts : list segment) (levels : list (nat * Q)) :
  gts <> [] ->
  exists s e a, boundary_labels args gts levels = Ok (s, e, a)
    /\ length s = list_sum (map fst levels)
    /\ length e = list_sum (map fst levels)
    /\ length a = list_sum (map fst levels)
    /\ Forall in_unit_interval s /\ Forall in_unit_interval e.
Proof.
  intros Hne. induction levels as [|[n ratio] rest IH].
  - exists [], [], []. repeat split; constructor.
  - destruct (level_labels_ok args gts n ratio Hne)
      as [s [e [a [Hl [Hls [Hle [Hla [HFs HFe]]]]]]]].
    destruct IH as [ss [es [acts [Hr [Hlss [Hles [Hlas [HFss HFes]]]]]]]].
    exists (s ++ ss), (e ++ es), (a ++ acts).
    simpl. rewrite Hl. simpl. rewrite Hr. simpl.
    rewrite !length_app, Hls, Hle, Hla, Hlss, Hles, Hlas.
    repeat split; try reflexivity; now apply Forall_app.
Qed.

(** ** The assigner returns *)

Lemma assign_points_ok (cfg : model_cfg) (gts : list segment) (lv ln : list Z)
  (pts : list point) :
  gts <> [] -> length lv = length gts -> length ln = length gts ->
  exists rows, mapM (assign_point cfg gts lv ln) pts = Ok rows
    /\ Forall2 (fun p r => assign_point cfg gts lv ln p = Ok r) pts rows.
Proof.
  intros Hne Hlv Hln. apply mapM_ok. intros p _.
  destruct (assign_point_spec cfg gts lv ln p Hne Hlv Hln)
    as [j [g [v [n [_ [_ [_ [H _]]]]]]]].
  eexists. exact H.
Qed.

Lemma label_points_single_video_ok (cfg : model_cfg) (args : cli_args)
  (pts : list point) (gts : list segment) (lv ln : list Z) :
  gts <> [] -> length lv = length gts -> length ln = length gts ->
  exists rows s e a,
    label_points_single_video cfg args pts gts lv ln
    = Ok (Tuple6 (map (fun r => fst (fst r)) rows) (map (fun r => snd (fst r)) rows)
                 (map snd rows) s e a)
    /\ Forall2 (fun p r => assign_point cfg gts lv ln p = Ok r) pts rows
    /\ length s = 4536%nat /\ length e = 4536%nat /\ length a = 4536%nat
    /\ Forall in_unit_interval s /\ Forall in_unit_interval e.
Proof.
  intros Hne Hlv Hln.
  destruct (assign_points_ok cfg gts lv ln pts Hne Hlv Hln) as [rows [Hrows HF]].
  destruct (boundary_labels_ok args gts (combine num_levels level_ratio) Hne)
    as [s [e [a [Hb [Hls [Hle [Hla [HFs HFe]]]]]]]].
  exists rows, s, e, a.
  split; [|repeat split; assumption].
  unfold label_points_single_video.
  destruct gts as [|g gs]; [congruence|].
  rewrite Hrows, bind_ok, Hb. reflexivity.
Qed.

Lemma nth_error_repeat_inv {A : Type} (a x : A) (n i : nat) :
  nth_error (repeat a n) i = Some x -> x = a.
Proof.
  intros H. apply nth_error_In in H. now apply repeat_spec in H.
Qed.

(** The targets of the [i]-th point, read off the tuple returned for a
    non-empty set of segments. *)
Lemma label_points_single_video_nth (cfg : model_cfg) (args : cli_args)
  (pts : list point) (gts : list segment) (lv ln : list Z) :
  gts <> [] -> length lv = length gts -> length ln = length gts ->
  exists t, label_points_single_video cfg args pts gts lv ln = Ok t
    /\ forall i p, nth_error pts i = Some p ->
       exists v n reg, assign_point cfg gts lv ln p = Ok (v, n, reg)
         /\ nth_error (tuple_cls_v t) i = Some v
         /\ nth_error (tuple_cls_n t) i = Some n
         /\ nth_error (tuple_reg t) i = Some reg.
Proof.
  intros Hne Hlv Hln.
  destruct (label_points_single_video_ok cfg args pts gts lv ln Hne Hlv Hln)
    as [rows [s [e [a [Hret [HF _]]]]]].
  eexists. split; [exact Hret|].
  intros i p Hi.
  destruct (Forall2_nth_error _ pts rows HF i p Hi) as [[[v n] reg] [Hr Hp]].
  exists v, n, reg. simpl. rewrite !nth_error_map, Hr. simpl. tauto.
Qed.

(** ** Claims on the target assigner *)

Lemma in_combine_exists {A B : Type} (l : list A) (l' : list B) (a : A) :
  length l' = length l -> In a l -> exists b, In (a, b) (combine l l').
Proof.
  revert l'. induction l as [|x l IH]; intros [|y l'] Hlen Hin; simpl in *;
    try contradiction; try discriminate.
  destruct Hin as [->|Hin].
  - exists y. now left.
  - destruct (IH l') as [b Hb]; [lia|assumption|]. exists b. now right.
Qed.

Lemma label_points_loop_empty_video (cfg : model_cfg) (args : cli_args)
  (concat_points : list point) (videos : list (list segment * (list Z * list Z)))
  (labels : list Z * list Z) :
  In ([], labels) videos ->
  forall acc, exists e, label_points_loop cfg args concat_points videos acc = Err e.
Proof.
  induction videos as [|[segs [lv ln]] rest IH]; intros Hin acc; [contradiction|].
  cbn [label_points_loop].
  destruct Hin as [Heq|Hin].
  - injection Heq as -> _. eexists. reflexivity.
  - destruct (label_points_single_video cfg args concat_points segs lv ln) as [t|e].
    + rewrite bind_ok. destruct (unpack6 t) as [[[[[[v n] r] s] e] a]|e].
      * rewrite bind_ok. apply IH. exact Hin.
      * eexists. reflexivity.
    + eexists. reflexivity.
Qed.

(** A batch that contains a video without segments, at any position, makes
    [label_points] raise. *)
Lemma label_points_with_empty_video_never_returns (cfg : model_cfg) (args : cli_args)
  (points : list (list point)) (gt_segments : list (list segment))
  (gt_labels_v gt_labels_n : list (list Z)) :
  length gt_labels_v = length gt_segments -> length gt_labels_n = length gt_segments ->
  In [] gt_segments ->
  exists e, label_points cfg args points gt_segments gt_labels_v gt_labels_n = Err e.
Proof.
  intros Hv Hn Hin. unfold label_points.
  destruct (in_combine_exists gt_segments (combine gt_labels_v gt_labels_n) [])
    as [labels Hl]; [rewrite length_combine; lia|assumption|].
  exact (label_points_loop_empty_video cfg args (concat points) _ labels Hl _).
Qed.

(** C1 (the code does not do what the claim says).  For a video without
    ground-truth segments [label_points_single_video] takes its early
    return and yields the all-background class targets (the sentinel
    [num_classes_verb], resp. [num_classes_noun], at every point) and all-zero
    regression targets, but as a tuple of three tensors; [label_points]
    unpacks six values from every call, so a batch whose first video has no
    segment makes it raise [ValueError] instead of returning targets. *)
Theorem label_points_empty_video_raises (cfg : model_cfg) (args : cli_args)
  (points : list (list point)) (gt_label_v gt_label_n : list Z)
  (rest_segments : list (list segment)) (rest_labels_v rest_labels_n : list (list Z)) :
  label_points_single_video cfg args (concat points) [] gt_label_v gt_label_n
  = Ok (Tuple3 (repeat (num_classes_verb cfg) (length (concat points)))
               (repeat (num_classes_noun cfg) (length (concat points)))
               (repeat (0, 0) (length (concat points))))
  /\ label_points cfg args points ([] :: rest_segments)
       (gt_label_v :: rest_labels_v) (gt_label_n :: rest_labels_n)
     = Err (ValueError "not enough values to unpack (expected 6, got 3)").
Proof.
  split; reflexivity.
Qed.

(** C5.  Whenever a point qualifies for some ground-truth segment (inside
    it, and within the point's regression band), the assigner returns, and
    the targets of the point are the labels and the normalised offsets of a
    qualifying segment [g] that is no longer than any other qualifying
    segment and strictly shorter than every qualifying segment listed before
    it: the first shortest one. *)
Theorem shortest_duration_wins (cfg : model_cfg) (args : cli_args)
  (pts : list point) (gts : list segment) (lv ln : list Z)
  (i : nat) (p : point) (k : nat) (g' : segment) :
  length lv = length gts -> length ln = length gts ->
  nth_error pts i = Some p ->
  nth_error gts k = Some g' -> qualifies cfg p g' = true ->
  exists t j g v n,
    label_points_single_video cfg args pts gts lv ln = Ok t
    /\ nth_error gts j = Some g /\ nth_error lv j = Some v /\ nth_error ln j = Some n
    /\ qualifies cfg p g = true
    /\ nth_error (tuple_cls_v t) i = Some v
    /\ nth_error (tuple_cls_n t) i = Some n
    /\ nth_error (tuple_reg t) i
       = Some (left_dist p g / pt_stride p, right_dist p g / pt_stride p)
    /\ (forall k2 g2, nth_error gts k2 = Some g2 -> qualifies cfg p g2 = true ->
          duration g <= duration g2)
    /\ (forall k2 g2, (k2 < j)%nat -> nth_error gts k2 = Some g2 ->
          qualifies cfg p g2 = true -> duration g < duration g2).
Proof.
  intros Hlv Hln Hi Hk Hq.
  assert (Hne : gts <> []) by (intros E; subst; destruct k; discriminate).
  destruct (label_points_single_video_nth cfg args pts gts lv ln Hne Hlv Hln)
    as [t [Hret Hnth]].
  destruct (Hnth i p Hi) as [v0 [n0 [reg [Ha [Hv0 [Hn0 Hreg]]]]]].
  destruct (assign_point_spec cfg gts lv ln p Hne Hlv Hln)
    as [j [g [v [n [Hg [Hv [Hn [Hspec [Hmin Hfirst]]]]]]]]].
  destruct (Hmin k g' Hk Hq) as [Hqg _].
  rewrite Hqg in Hspec. rewrite Hspec in Ha. injection Ha as <- <- <-.
  exists t, j, g, v, n.
  refine (conj Hret (conj Hg (conj Hv (conj Hn (conj Hqg
           (conj Hv0 (conj Hn0 (conj Hreg (conj _ Hfirst))))))))).
  intros k2 g2 Hk2 Hq2. now destruct (Hmin k2 g2 Hk2 Hq2).
Qed.

(** C6.  The assigner returns, and for every point whose class target is not
    the background sentinel there is a ground-truth segment [g] such that
    the regression target of the point is [(left, right) / stride] for the
    distances [left = t - g.start] and [right = g.end - t], both distances
    are positive, [max(left, right)] lies in the point's
    [[reg_min, reg_max]] band, and the target itself is non-negative once
    the stride is positive.  [cfg] is arbitrary, so both sampling modes are
    covered. *)
Theorem assigned_targets_within_band (cfg : model_cfg) (args : cli_args)
  (pts : list point) (gts : list segment) (lv ln : list Z) :
  length lv = length gts -> length ln = length gts ->
  exists t,
    label_points_single_video cfg args pts gts lv ln = Ok t
    /\ forall i p v n,
         nth_error pts i = Some p ->
         nth_error (tuple_cls_v t) i = Some v ->
         nth_error (tuple_cls_n t) i = Some n ->
         v <> num_classes_verb cfg \/ n <> num_classes_noun cfg ->
         exists g,
           In g gts
           /\ nth_error (tuple_reg t) i
              = Some (left_dist p g / pt_stride p, right_dist p g / pt_stride p)
           /\ 0 < left_dist p g /\ 0 < right_dist p g
           /\ pt_reg_min p <= qmax (left_dist p g) (right_dist p g)
           /\ qmax (left_dist p g) (right_dist p g) <= pt_reg_max p
           /\ (0 < pt_stride p ->
               0 <= left_dist p g / pt_stride p /\ 0 <= right_dist p g / pt_stride p).
Proof.
  intros Hlv Hln.
  destruct gts as [|g0 gs].
  - eexists. split; [reflexivity|].
    intros i p v n _ Hv Hn Hbg. simpl in Hv, Hn.
    apply nth_error_repeat_inv in Hv. apply nth_error_repeat_inv in Hn. tauto.
  - assert (Hne : g0 :: gs <> []) by discriminate.
    destruct (label_points_single_video_nth cfg args pts (g0 :: gs) lv ln Hne Hlv Hln)
      as [t [Hret Hnth]].
    exists t. split; [exact Hret|].
    intros i p v n Hi Hv Hn Hbg.
    destruct (Hnth i p Hi) as [v0 [n0 [reg [Ha [Hv0 [Hn0 Hreg]]]]]].
    rewrite Hv in Hv0. rewrite Hn in Hn0. inversion Hv0; inversion Hn0; subst v0 n0.
    destruct (assign_point_spec cfg (g0 :: gs) lv ln p Hne Hlv Hln)
      as [j [g [v' [n' [Hg [_ [_ [Hspec _]]]]]]]].
    rewrite Hspec in Ha.
    destruct (qualifies cfg p g) eqn:Hq.
    + injection Ha as _ _ <-.
      destruct (qualifies_facts cfg p g Hq) as [Hl [Hr [Hlo Hhi]]].
      exists g.
      refine (conj (nth_error_In _ _ Hg) (conj Hreg (conj Hl (conj Hr
               (conj Hlo (conj Hhi _)))))).
      intros Hs. split; apply Qle_shift_div_l; try assumption; lra.
    + injection Ha as <- <- _. tauto.
Qed.

(** C9.  For every non-empty set of ground-truth segments, zero-length and
    inverted segments included, the assigner returns, and each of the 4536
    entries of [starting_gt] and of [ending_gt] (the six resolutions
    2304, 1152, 576, 288, 144 and 72, concatenated) lies in [[0, 1]]. *)
Theorem boundary_scores_in_unit_interval (cfg : model_cfg) (args : cli_args)
  (pts : list point) (gts : list segment) (lv ln : list Z) :
  (0 < length gts)%nat -> length lv = length gts -> length ln = length gts ->
  exists v n r s e a,
    label_points_single_video cfg args pts gts lv ln = Ok (Tuple6 v n r s e a)
    /\ length s = 4536%nat /\ length e = 4536%nat
    /\ Forall in_unit_interval s /\ Forall in_unit_interval e.
Proof.
  intros Hpos Hlv Hln.
  assert (Hne : gts <> []) by (intros E; subst; simpl in Hpos; lia).
  destruct (label_points_single_video_ok cfg args pts gts lv ln Hne Hlv Hln)
    as [rows [s [e [a [Hret [_ [Hls [Hle [_ [HFs HFe]]]]]]]]]].
  eexists _, _, _, s, e, a. split; [exact Hret|]. tauto.
Qed.

Lemma shortest_duration_wins_witness :
  exists t,
    label_points_single_video cfg_none args_default [mkPoint 5 0 8 1]
      [(0, 10); (4, 6)] [1%Z; 2%Z] [3%Z; 4%Z] = Ok t
    /\ nth_error (tuple_cls_v t) 0 = Some 2%Z
    /\ nth_error (tuple_cls_n t) 0 = Some 4%Z
    /\ nth_error (tuple_reg t) 0
       = Some (left_dist (mkPoint 5 0 8 1) (4, 6) / 1,
               right_dist (mkPoint 5 0 8 1) (4, 6) / 1).
Proof.
  destruct (shortest_duration_wins cfg_none args_default [mkPoint 5 0 8 1]
              [(0, 10); (4, 6)] [1%Z; 2%Z] [3%Z; 4%Z] 0 (mkPoint 5 0 8 1) 0 (0, 10)
              eq_refl eq_refl eq_refl eq_refl eq_refl)
    as (t & j & g & v & n & Hret & Hg & Hv & Hn & _ & Hcv & Hcn & Hreg & Hmin & _).
  exists t. split; [exact Hret|].
  assert (Hle : duration g <= duration (4, 6)) by (apply (Hmin 1%nat); reflexivity).
  destruct j as [|[|j]]; simpl in Hg, Hv, Hn.
  - injection Hg as <-. unfold duration in Hle. simpl in Hle. lra.
  - injection Hg as <-. injection Hv as <-. injection Hn as <-.
    repeat split; assumption.
  - destruct j; discriminate.
Defined.

Lemma boundary_scores_zero_length_witness :
  (0 < length [(5, 5)])%nat
  /\ exists v n r s e a,
       label_points_single_video cfg_none args_default anchors6 [(5, 5)] [1%Z] [1%Z]
       = Ok (Tuple6 v n r s e a)
       /\ length s = 4536%nat /\ length e = 4536%nat
       /\ Forall in_unit_interval s /\ Forall in_unit_interval e.
Proof.
  split; [simpl; lia|].
  apply (boundary_scores_in_unit_interval cfg_none args_default anchors6 [(5, 5)]
           [1%Z] [1%Z]); [simpl; lia|reflexivity|reflexivity].
Defined.

(** ** The six-anchor scenario *)

Lemma assign_point_single_segment (cfg : model_cfg) (g : segment) (v n : Z) (p : point) :
  assign_point cfg [g] [v] [n] p
  = Ok (if qualifies cfg p g then v else num_classes_verb cfg,
        if qualifies cfg p g then n else num_classes_noun cfg,
        (left_dist p g / pt_stride p, right_dist p g / pt_stride p)).
Proof.
  unfold assign_point, masked_lens, qualifies. simpl.
  destruct (inside_gt_seg_mask cfg p g), (inside_regress_range p g); reflexivity.
Qed.

Lemma anchor3_qualifies (cfg : model_cfg) :
  train_center_sample cfg = NoSampling \/ 0 < train_center_sample_radius cfg ->
  qualifies cfg (mkPoint (Q_of_nat 3) 0 8 1) (2, 4) = true.
Proof.
  intros H. unfold qualifies. apply andb_true_iff. split; [|reflexivity].
  unfold inside_gt_seg_mask, left_dist, right_dist, Q_of_nat, inject_Z. simpl.
  destruct (train_center_sample cfg) eqn:E.
  - destruct H as [H|H]; [discriminate|].
    apply Qlt_bool_iff. minmax; lra.
  - reflexivity.
Qed.

(** The tuple returned in the six-anchor scenario. *)
Lemma six_anchor_targets (cfg : model_cfg) (args : cli_args) :
  train_center_sample cfg = NoSampling \/ 0 < train_center_sample_radius cfg ->
  exists reg s e a,
    label_points_single_video cfg args anchors6 [(2, 4)] [1%Z] [1%Z]
    = Ok (Tuple6 [num_classes_verb cfg; num_classes_verb cfg; num_classes_verb cfg;
                  1%Z; num_classes_verb cfg; num_classes_verb cfg]
                 [num_classes_noun cfg; num_classes_noun cfg; num_classes_noun cfg;
                  1%Z; num_classes_noun cfg; num_classes_noun cfg]
                 reg s e a)
    /\ exists l r, nth_error reg 3 = Some (l, r) /\ l == 1 /\ r == 1.
Proof.
  intros Hmode.
  destruct (boundary_labels_ok args [(2, 4)] (combine num_levels level_ratio))
    as (s & e & a & Hb & _); [discriminate|].
  eexists _, s, e, a. split.
  - unfold label_points_single_video, anchors6.
    cbn [map seq mapM].
    rewrite !assign_point_single_segment.
    rewrite (anchor3_qualifies cfg Hmode).
    rewrite !not_inside_on_boundary
      by (unfold left_dist, right_dist, Q_of_nat, inject_Z; simpl; lra).
    rewrite !bind_ok. rewrite Hb. rewrite bind_ok. reflexivity.
  - eexists _, _. split; [reflexivity|].
    unfold left_dist, right_dist. simpl. split; reflexivity.
Qed.

Lemma assigned_targets_within_band_witness :
  exists g,
    In g [(2, 4)]
    /\ 0 < left_dist (mkPoint (Q_of_nat 3) 0 8 1) g
    /\ 0 < right_dist (mkPoint (Q_of_nat 3) 0 8 1) g
    /\ 0 <= qmax (left_dist (mkPoint (Q_of_nat 3) 0 8 1) g)
                 (right_dist (mkPoint (Q_of_nat 3) 0 8 1) g)
    /\ qmax (left_dist (mkPoint (Q_of_nat 3) 0 8 1) g)
            (right_dist (mkPoint (Q_of_nat 3) 0 8 1) g) <= 8.
Proof.
  destruct (assigned_targets_within_band cfg_none args_default anchors6 [(2, 4)]
              [1%Z] [1%Z] eq_refl eq_refl) as [t [Hret H]].
  destruct (six_anchor_targets cfg_none args_default (or_introl eq_refl))
    as (reg & s & e & a & Hret' & _).
  rewrite Hret' in Hret. injection Hret as <-.
  destruct (H 3%nat (mkPoint (Q_of_nat 3) 0 8 1) 1%Z 1%Z eq_refl eq_refl eq_refl)
    as (g & Hin & _ & Hl & Hr & Hlo & Hhi & _).
  { left. discriminate. }
  exists g. tauto.
Defined.

(** C3, as the code has it.  Six anchors [t = 0..5] with stride 1 and
    regression range [[0, 8]], one segment [(2, 4)] with verb 1 and noun 1,
    sampling mode 'none' or 'radius' with a positive radius: anchor 3 alone
    is assigned verb 1 and noun 1, with offsets [(1, 1)]; anchors 0, 1, 2, 4
    and 5 receive the background sentinel of both taxonomies.  Anchor 2 lies
    on the start of the segment: its left distance is 0 and the inside test
    is strict. *)
Theorem six_anchor_scenario (cfg : model_cfg) (args : cli_args) :
  train_center_sample cfg = NoSampling \/ 0 < train_center_sample_radius cfg ->
  exists reg s e a,
    label_points_single_video cfg args anchors6 [(2, 4)] [1%Z] [1%Z]
    = Ok (Tuple6 [num_classes_verb cfg; num_classes_verb cfg; num_classes_verb cfg;
                  1%Z; num_classes_verb cfg; num_classes_verb cfg]
                 [num_classes_noun cfg; num_classes_noun cfg; num_classes_noun cfg;
                  1%Z; num_classes_noun cfg; num_classes_noun cfg]
                 reg s e a)
    /\ exists l r, nth_error reg 3 = Some (l, r) /\ l == 1 /\ r == 1.
Proof.
  exact (six_anchor_targets cfg args).
Qed.

Lemma six_anchor_scenario_witness :
  (train_center_sample cfg_none = NoSampling
   \/ 0 < train_center_sample_radius cfg_none)
  /\ exists reg s e a,
       label_points_single_video cfg_none args_default anchors6 [(2, 4)] [1%Z] [1%Z]
       = Ok (Tuple6 [97; 97; 97; 1; 97; 97]%Z [300; 300; 300; 1; 300; 300]%Z reg s e a)
       /\ exists l r, nth_error reg 3 = Some (l, r) /\ l == 1 /\ r == 1.
Proof.
  split; [left; reflexivity|].
  apply (six_anchor_scenario cfg_none args_default). left. reflexivity.
Defined.

(** C3, as stated, fails: the class targets of anchor 2 are the background
    sentinels 97 and 300, not verb 1 and noun 1, under both sampling
    modes. *)
Lemma anchor_on_segment_start_is_background :
  (exists t,
     label_points_single_video cfg_none args_default anchors6 [(2, 4)] [1%Z] [1%Z] = Ok t
     /\ nth_error (tuple_cls_v t) 2 = Some 97%Z
     /\ nth_error (tuple_cls_n t) 2 = Some 300%Z)
  /\ (exists t,
        label_points_single_video cfg_radius args_default anchors6 [(2, 4)] [1%Z] [1%Z] = Ok t
        /\ nth_error (tuple_cls_v t) 2 = Some 97%Z
        /\ nth_error (tuple_cls_n t) 2 = Some 300%Z).
Proof.
  split.
  - destruct (six_anchor_targets cfg_none args_default)
      as (reg & s & e & a & H & _); [left; reflexivity|].
    eexists. split; [exact H|]. split; reflexivity.
  - destruct (six_anchor_targets cfg_radius args_default)
      as (reg & s & e & a & H & _); [right; reflexivity|].
    eexists. split; [exact H|]. split; reflexivity.
Qed.

(** ** The 1D generalised IoU *)

(** With a shared centre the smallest enclosing interval is the union, so
    the second term of [miouk] vanishes. *)
Lemma giou_enclosing_is_union (lp rp lg rg : Q) :
  qmax lp lg + qmax rp rg - (lp + rp + (lg + rg) - (qmin rp rg + qmin lp lg)) == 0.
Proof. minmax; lra. Qed.

Lemma miouk_is_iou (lp rp lg rg : Q) :
  miouk (lp, rp) (lg, rg)
  == (qmin rp rg + qmin lp lg)
     / clamp_min (lp + rp + (lg + rg) - (qmin rp rg + qmin lp lg)) eps.
Proof.
  unfold miouk.
  set (I := qmin rp rg + qmin lp lg).
  set (U := lp + rp + (lg + rg) - I).
  assert (Hz : qmax lp lg + qmax rp rg - U == 0)
    by (subst U I; apply giou_enclosing_is_union).
  unfold Qdiv at 2. rewrite Hz. ring.
Qed.

Lemma one_minus_quotient_zero (a d : Q) : 0 < d -> (1 - a / d == 0 <-> a == d).
Proof.
  intros Hd. split; intros H.
  - assert (Ha : a == (a / d) * d) by (field; lra).
    assert (H1 : a / d == 1) by lra.
    rewrite Ha, H1. ring.
  - rewrite H. field. lra.
Qed.

Lemma eps_positive : 0 < eps.
Proof. reflexivity. Qed.

(** C8, as the code has it.  The loss term [1 - miouk] of one positive point
    is 0 exactly when the predicted and the ground-truth offsets are
    identical and their total extent [left + right] is at least
    [eps = 1e-8], the floor that the code puts on the union before dividing;
    the offsets [(3, 3)] are such a case. *)
Theorem giou_loss_zero_iff (pred gt : Q * Q) :
  loss_offset_elem pred gt == 0
  <-> (fst pred == fst gt /\ snd pred == snd gt /\ eps <= fst gt + snd gt).
Proof.
  destruct pred as [lp rp], gt as [lg rg]. unfold loss_offset_elem. simpl fst; simpl snd.
  rewrite miouk_is_iou.
  assert (Hd : 0 < clamp_min (lp + rp + (lg + rg) - (qmin rp rg + qmin lp lg)) eps).
  { pose proof eps_positive. unfold clamp_min. minmax; lra. }
  rewrite (one_minus_quotient_zero _ _ Hd).
  pose proof eps_positive as He. unfold clamp_min.
  split.
  - intros H. minmax; repeat split; lra.
  - intros [H1 [H2 H3]]. minmax; lra.
Qed.

Lemma giou_loss_zero_witness :
  loss_offset_elem (3, 3) (3, 3) == 0.
Proof.
  apply (giou_loss_zero_iff (3, 3) (3, 3)).
  split; [reflexivity|]. split; [reflexivity|]. vm_compute. discriminate.
Defined.

(** C8, as stated, fails: identical positive offsets below the floor give a
    loss of 4/5. *)
Lemma giou_loss_of_tiny_identical_offsets :
  0 < 1 # 1000000000
  /\ loss_offset_elem (1 # 1000000000, 1 # 1000000000)
                      (1 # 1000000000, 1 # 1000000000) == 4 # 5
  /\ ~ loss_offset_elem (1 # 1000000000, 1 # 1000000000)
                        (1 # 1000000000, 1 # 1000000000) == 0.
Proof.
  split; [reflexivity|]. split; [reflexivity|].
  intros H. vm_compute in H. discriminate.
Qed.

(** ** Layout of the flattened score tensor *)

Lemma length_concat_uniform {A : Type} (ll : list (list A)) (w : nat) :
  Forall (fun l => length l = w) ll -> length (concat ll) = (length ll * w)%nat.
Proof.
  induction 1 as [|l ll Hl HF IH]; simpl; [reflexivity|].
  rewrite length_app, Hl, IH. reflexivity.
Qed.

(** Row-major addressing of a concatenation of blocks of width [w]. *)
Lemma nth_error_concat_uniform {A : Type} (ll : list (list A)) (w : nat) :
  (0 < w)%nat -> Forall (fun l => length l = w) ll ->
  forall i, nth_error (concat ll) i
            = match nth_error ll (i / w) with
              | Some l => nth_error l (i mod w)
              | None => None
              end.
Proof.
  intros Hw. induction 1 as [|l ll Hl HF IH]; intros i; simpl concat.
  - rewrite !nth_error_nil. reflexivity.
  - destruct (Nat.lt_ge_cases i w) as [Hlt|Hge].
    + rewrite Nat.div_small, Nat.mod_small by assumption. simpl.
      apply nth_error_app1. now rewrite Hl.
    + rewrite nth_error_app2 by (rewrite Hl; assumption).
      rewrite Hl, IH.
      assert (Hi : i = ((i - w) + 1 * w)%nat) by lia.
      assert (Hd : (i / w = S ((i - w) / w))%nat).
      { rewrite Hi at 1. rewrite Nat.div_add by lia. lia. }
      assert (Hm : (i mod w = (i - w) mod w)%nat).
      { rewrite Hi at 1. apply Nat.Div0.mod_add. }
      rewrite Hd, Hm. reflexivity.
Qed.

Lemma topk_scores_length (k : nat) (t : list (list Q)) (mask_i : list bool) :
  length mask_i = length t -> length (topk_scores k t mask_i) = length t.
Proof.
  intros H. unfold topk_scores. rewrite length_map, length_combine. lia.
Qed.

Lemma topk_scores_rows (k : nat) (t : list (list Q)) (mask_i : list bool) :
  Forall (fun r => (k <= length r)%nat) t ->
  Forall (fun r => length r = k) (topk_scores k t mask_i).
Proof.
  intros H. unfold topk_scores. apply Forall_map, Forall_forall.
  intros [r m] Hin. simpl. rewrite length_map, length_firstn.
  apply in_combine_l in Hin. rewrite Forall_forall in H.
  specialize (H r Hin). lia.
Qed.

Lemma topk_labels_length (k : nat) (t : list (list Z)) (mask_i : list bool) :
  length mask_i = length t -> length (topk_labels k t mask_i) = length t.
Proof.
  intros H. unfold topk_labels. rewrite length_map, length_combine. lia.
Qed.

Lemma topk_labels_rows (k : nat) (t : list (list Z)) (mask_i : list bool) :
  Forall (fun r => (k <= length r)%nat) t ->
  Forall (fun r => length r = k) (topk_labels k t mask_i).
Proof.
  intros H. unfold topk_labels. apply Forall_map, Forall_forall.
  intros [r m] Hin. simpl. rewrite length_map, length_firstn.
  apply in_combine_l in Hin. rewrite Forall_forall in H.
  specialize (H r Hin). lia.
Qed.

(** The blocks of [mul_cls_score] have [nn] rows of [nv] products. *)
Lemma mul_cls_score_blocks (noun verb : list (list Q)) (nn nv : nat) :
  Forall (fun r => length r = nn) noun -> Forall (fun r => length r = nv) verb ->
  Forall (fun blk => length blk = nn /\ Forall (fun row => length row = nv) blk)
         (mul_cls_score noun verb).
Proof.
  intros Hn Hv. unfold mul_cls_score. apply Forall_map, Forall_forall.
  intros [nr vr] Hin. simpl.
  pose proof (in_combine_l _ _ _ _ Hin) as H1.
  pose proof (in_combine_r _ _ _ _ Hin) as H2.
  rewrite Forall_forall in Hn, Hv. split.
  - rewrite length_map. now apply Hn.
  - apply Forall_map, Forall_forall. intros x _. rewrite length_map. now apply Hv.
Qed.

Lemma nth_error_combine {A B : Type} (l : list A) (l' : list B) (i : nat) :
  nth_error (combine l l') i
  = match nth_error l i, nth_error l' i with
    | Some a, Some b => Some (a, b)
    | _, _ => None
    end.
Proof.
  revert l' i. induction l as [|a l IH]; intros [|b l'] [|i]; simpl;
    try reflexivity.
  - destruct (nth_error l i); reflexivity.
  - apply IH.
Qed.

(** The entry of the flattened tensor at a flat index: the product of the
    noun score and the verb score addressed by the decomposition. *)
Lemma flatten3_mul_cls_score_nth (noun verb : list (list Q)) (nn nv : nat) (idx : nat) (s : Q) :
  (0 < nn)%nat -> (0 < nv)%nat ->
  Forall (fun r => length r = nn) noun -> Forall (fun r => length r = nv) verb ->
  nth_error (flatten3 (mul_cls_score noun verb)) idx = Some s ->
  exists nrow vrow n_s v_s,
    nth_error noun (idx / (nv * nn)) = Some nrow
    /\ nth_error verb (idx / (nv * nn)) = Some vrow
    /\ nth_error nrow (idx mod (nv * nn) / nv) = Some n_s
    /\ nth_error vrow (idx mod (nv * nn) mod nv) = Some v_s
    /\ s = n_s * v_s.
Proof.
  intros Hnn Hnv Hn Hv Hs.
  pose proof (mul_cls_score_blocks noun verb nn nv Hn Hv) as Hblk.
  unfold flatten3 in Hs.
  rewrite (nth_error_concat_uniform _ (nv * nn)) in Hs.
  - rewrite nth_error_map in Hs.
    destruct (nth_error (mul_cls_score noun verb) (idx / (nv * nn))) as [blk|] eqn:Hb;
      simpl in Hs; [|discriminate].
    pose proof Hb as Hin. apply nth_error_In in Hin.
    rewrite Forall_forall in Hblk. destruct (Hblk blk Hin) as [_ Hrows].
    rewrite (nth_error_concat_uniform _ nv Hnv Hrows) in Hs.
    unfold mul_cls_score in Hb. rewrite nth_error_map, nth_error_combine in Hb.
    destruct (nth_error noun (idx / (nv * nn))) as [nrow|] eqn:Hnr; [|discriminate].
    destruct (nth_error verb (idx / (nv * nn))) as [vrow|] eqn:Hvr; [|discriminate].
    simpl in Hb. injection Hb as <-.
    rewrite nth_error_map in Hs.
    destruct (nth_error nrow (idx mod (nv * nn) / nv)) as [n_s|] eqn:Hns; [|discriminate].
    simpl in Hs. rewrite nth_error_map in Hs.
    destruct (nth_error vrow (idx mod (nv * nn) mod nv)) as [v_s|] eqn:Hvs; [|discriminate].
    simpl in Hs. injection Hs as <-.
    exists nrow, vrow, n_s, v_s. repeat split; assumption.
  - nia.
  - apply Forall_map. rewrite Forall_forall in Hblk. apply Forall_forall.
    intros blk Hin. destruct (Hblk blk Hin) as [Hl Hrows].
    rewrite (length_concat_uniform blk nv Hrows), Hl. lia.
Qed.

(** ** Thresholding and global top-k *)

Lemma mapM_ok_Forall {A B : Type} (f : A -> result B) (P : B -> Prop) (l : list A) :
  (forall x, In x l -> exists y, f x = Ok y /\ P y) ->
  exists ys, mapM f l = Ok ys /\ Forall P ys.
Proof.
  induction l as [|x l IH]; intros H.
  - exists []. split; [reflexivity|constructor].
  - destruct (H x (or_introl eq_refl)) as [y [Hy Py]].
    destruct IH as [ys [Hys HF]]; [intros z Hz; apply H; now right|].
    exists (y :: ys). simpl. rewrite Hy. simpl. rewrite Hys. simpl.
    split; [reflexivity|now constructor].
Qed.

Lemma in_combine_seq {A : Type} (v : list A) (a : nat) (x : A) (k : nat) :
  In (x, k) (combine v (seq a (length v))) ->
  (a <= k)%nat /\ nth_error v (k - a) = Some x.
Proof.
  revert a. induction v as [|y v IH]; intros a H; simpl in H; [contradiction|].
  destruct H as [H|H].
  - injection H as -> ->. rewrite Nat.sub_diag. split; [lia|reflexivity].
  - destruct (IH (S a) H) as [Hle Hn]. split; [lia|].
    replace (k - a)%nat with (S (k - S a)) by lia. exact Hn.
Qed.

Lemma insert_desc_In (x y : Q * nat) (l : list (Q * nat)) :
  In y (insert_desc x l) -> y = x \/ In y l.
Proof.
  induction l as [|z l IH]; simpl.
  - intros [H|[]]. now left.
  - destruct (Qle_bool (fst z) (fst x)); simpl.
    + intros [H|[H|H]]; auto.
    + intros [H|H]; auto. destruct (IH H); auto.
Qed.

Lemma sort_desc_In (v : list Q) (y : Q * nat) :
  In y (sort_desc v) -> nth_error v (snd y) = Some (fst y).
Proof.
  unfold sort_desc.
  assert (H : forall l, In y (fold_right insert_desc [] l) -> In y l).
  { induction l as [|z l IH]; simpl; [tauto|].
    intros Hin. apply insert_desc_In in Hin. destruct Hin; auto. }
  intros Hin. apply H in Hin. destruct y as [x k].
  apply in_combine_seq in Hin. destruct Hin as [_ Hn].
  now rewrite Nat.sub_0_r in Hn.
Qed.

Lemma in_firstn {A : Type} (n : nat) (l : list A) (x : A) :
  In x (firstn n l) -> In x l.
Proof.
  intros H. rewrite <- (firstn_skipn n l). apply in_or_app. now left.
Qed.

(** The selection returns, and every selected score sits at its index in the
    flattened tensor. *)
Lemma select_topk_ok (cfg : model_cfg) (pred_prob : list Q) :
  exists sel, select_topk cfg pred_prob = Ok sel
    /\ Forall (fun si => nth_error pred_prob (snd si) = Some (fst si)) sel.
Proof.
  unfold select_topk. cbv zeta.
  set (kept := filter _ _).
  apply mapM_ok_Forall. intros [x k] Hin.
  apply in_firstn, sort_desc_In in Hin. simpl in Hin.
  rewrite nth_error_map in Hin.
  destruct (nth_error kept k) as [[x' i]|] eqn:Hk; [|discriminate].
  simpl in Hin. injection Hin as ->.
  exists (x, i). unfold index. cbn [snd fst]. rewrite nth_error_map, Hk. simpl.
  split; [reflexivity|].
  apply nth_error_In in Hk. subst kept. apply filter_In in Hk.
  destruct Hk as [Hk _]. apply in_combine_seq in Hk.
  destruct Hk as [_ Hk]. now rewrite Nat.sub_0_r in Hk.
Qed.

Lemma nth_error_lt_exists {A : Type} (l : list A) (i : nat) :
  (i < length l)%nat -> exists x, nth_error l i = Some x.
Proof.
  intros H. destruct (nth_error l i) as [x|] eqn:E; [now exists x|].
  apply nth_error_None in E. lia.
Qed.

Lemma nth_error_length_lt {A : Type} (l : list A) (i : nat) (x : A) :
  nth_error l i = Some x -> (i < length l)%nat.
Proof. intros H. apply nth_error_Some. congruence. Qed.

Lemma at2_in_range {A : Type} (t : list (list A)) (w i j : nat) :
  Forall (fun r => length r = w) t -> (i < length t)%nat -> (j < w)%nat ->
  exists x, at2 t i j = Some x.
Proof.
  intros HF Hi Hj. unfold at2.
  destruct (nth_error_lt_exists t i Hi) as [row Hrow]. rewrite Hrow.
  apply nth_error_lt_exists.
  rewrite Forall_forall in HF. rewrite (HF row (nth_error_In _ _ Hrow)). exact Hj.
Qed.

Lemma index2_at2 {A : Type} (what : string) (t : list (list A)) (i j : nat) (x : A) :
  at2 t i j = Some x -> index2 what t i j = Ok x.
Proof.
  unfold at2, index2, index. destruct (nth_error t i) as [row|]; [|discriminate].
  simpl. intros H. now rewrite H.
Qed.

(** ** One decoded entry *)

Lemma decode_entry_ok (pts_i : list point) (offsets_i : list (Q * Q))
  (ns vs : list (list Q)) (nl vl : list (list Z)) (si : Q * nat) :
  length ns = length pts_i -> length nl = length pts_i -> length vl = length pts_i ->
  length offsets_i = length pts_i ->
  Forall (fun r => length r = noun_topk) ns -> Forall (fun r => length r = verb_topk) vs ->
  Forall (fun r => length r = noun_topk) nl -> Forall (fun r => length r = verb_topk) vl ->
  nth_error (flatten3 (mul_cls_score ns vs)) (snd si) = Some (fst si) ->
  exists d, decode_entry pts_i offsets_i nl vl si = Ok d
    /\ addresses_selected_score ns vs nl vl d.
Proof.
  intros Hns Hnl Hvl Hoff Fns Fvs Fnl Fvl Hflat.
  destruct si as [s idx]. simpl in Hflat.
  destruct (flatten3_mul_cls_score_nth ns vs noun_topk verb_topk idx s)
    as (nrow & vrow & n_s & v_s & Hnr & Hvr & Hn & Hv & Hs); try assumption;
    try (unfold noun_topk, verb_topk; lia).
  set (pt_idx := (idx / (verb_topk * noun_topk))%nat) in *.
  set (dx_loc := (idx mod (verb_topk * noun_topk))%nat) in *.
  assert (Hpt : (pt_idx < length pts_i)%nat)
    by (rewrite <- Hns; exact (nth_error_length_lt _ _ _ Hnr)).
  assert (Hn1 : (dx_loc / verb_topk < noun_topk)%nat).
  { pose proof (proj1 (Forall_forall _ _) Fns nrow (nth_error_In _ _ Hnr)) as Hlen.
    pose proof (nth_error_length_lt _ _ _ Hn) as Hlt.
    rewrite Hlen in Hlt. exact Hlt. }
  assert (Hv1 : (dx_loc mod verb_topk < verb_topk)%nat).
  { pose proof (proj1 (Forall_forall _ _) Fvs vrow (nth_error_In _ _ Hvr)) as Hlen.
    pose proof (nth_error_length_lt _ _ _ Hv) as Hlt.
    rewrite Hlen in Hlt. exact Hlt. }
  destruct (at2_in_range nl noun_topk pt_idx (dx_loc / verb_topk) Fnl)
    as [ln Hln]; [lia|assumption|].
  destruct (at2_in_range vl verb_topk pt_idx (dx_loc mod verb_topk) Fvl)
    as [lv Hlv]; [lia|assumption|].
  destruct (nth_error_lt_exists offsets_i pt_idx) as [off Hoffs]; [lia|].
  destruct (nth_error_lt_exists pts_i pt_idx Hpt) as [p Hp].
  eexists. split.
  - unfold decode_entry. cbn [snd fst]. fold pt_idx. fold dx_loc.
    rewrite (index2_at2 _ _ _ _ _ Hln), bind_ok.
    rewrite (index2_at2 _ _ _ _ _ Hlv), bind_ok.
    unfold index. rewrite Hoffs, Hp. cbn [bind]. reflexivity.
  - unfold addresses_selected_score. cbn [det_pt det_flat det_noun_idx1 det_verb_idx1
      det_score det_noun det_verb].
    fold pt_idx. fold dx_loc.
    refine (conj eq_refl (conj eq_refl (conj eq_refl (conj _ (conj Hn1 (conj Hv1
             (conj Hflat (conj _ (conj Hln Hlv))))))))).
    + subst pt_idx dx_loc.
      pose proof (Nat.div_mod_eq idx (verb_topk * noun_topk)) as E1.
      pose proof (Nat.div_mod_eq (idx mod (verb_topk * noun_topk)) verb_topk) as E2.
      lia.
    + exists n_s, v_s. unfold at2. rewrite Hnr, Hvr. repeat split; assumption.
Qed.

(** ** Completeness of the selection *)

Lemma insert_desc_length (x : Q * nat) (l : list (Q * nat)) :
  length (insert_desc x l) = S (length l).
Proof.
  induction l as [|y r IH]; [reflexivity|].
  simpl. destruct (Qle_bool (fst y) (fst x)); simpl; [reflexivity|now rewrite IH].
Qed.

Lemma sort_desc_length (v : list Q) : length (sort_desc v) = length v.
Proof.
  unfold sort_desc.
  assert (H : forall l, length (fold_right insert_desc [] l) = length l).
  { induction l as [|x l IH]; [reflexivity|].
    simpl. now rewrite insert_desc_length, IH. }
  rewrite H, length_combine, length_seq. lia.
Qed.

Lemma insert_desc_In_inv (x y : Q * nat) (l : list (Q * nat)) :
  y = x \/ In y l -> In y (insert_desc x l).
Proof.
  induction l as [|z l IH]; simpl.
  - intros [H|[]]. now left.
  - destruct (Qle_bool (fst z) (fst x)); simpl.
    + intros [H|[H|H]]; auto.
    + intros [H|[H|H]]; auto.
Qed.

Lemma combine_seq_In {A : Type} (v : list A) (a k : nat) (x : A) :
  nth_error v k = Some x -> In (x, (a + k)%nat) (combine v (seq a (length v))).
Proof.
  revert a k. induction v as [|y v IH]; intros a [|k] H; simpl in H; try discriminate.
  - injection H as ->. rewrite Nat.add_0_r. now left.
  - right. simpl. replace (a + S k)%nat with (S a + k)%nat by lia. now apply IH.
Qed.

Lemma sort_desc_complete (v : list Q) (k : nat) (x : Q) :
  nth_error v k = Some x -> In (x, k) (sort_desc v).
Proof.
  intros H. unfold sort_desc.
  assert (Hin : forall l y, In y l -> In y (fold_right insert_desc [] l)).
  { induction l as [|z l IH]; simpl; [tauto|].
    intros y [Hy|Hy]; apply insert_desc_In_inv; auto. }
  apply Hin. exact (combine_seq_In v 0 k x H).
Qed.

Lemma filter_combine_seq_length {A : Type} (p : A -> bool) (v : list A) (a : nat) :
  length (filter (fun si => p (fst si)) (combine v (seq a (length v))))
  = length (filter p v).
Proof.
  revert a. induction v as [|y v IH]; intros a; [reflexivity|].
  simpl. destruct (p y); simpl; now rewrite IH.
Qed.

Lemma Forall2_in_l {A B : Type} (R : A -> B -> Prop) (l : list A) (l' : list B) (x : A) :
  Forall2 R l l' -> In x l -> exists y, In y l' /\ R x y.
Proof.
  induction 1 as [|a b l l' Hab _ IH]; intros Hin; [destruct Hin|].
  destruct Hin as [<-|Hin].
  - exists b. split; [now left|assumption].
  - destruct (IH Hin) as (y & Hy & HR). exists y. split; [now right|assumption].
Qed.

(** The selection keeps [min(pre_nms_topk, #scores above the threshold)]
    entries, each with its own flat index, and every score above the
    threshold when they are at most [pre_nms_topk]. *)
Lemma select_topk_complete (cfg : model_cfg) (pred_prob : list Q) :
  let above := Qlt_bool (test_pre_nms_thresh cfg * test_pre_nms_thresh cfg) in
  exists sel,
    select_topk cfg pred_prob = Ok sel
    /\ Forall (fun si => nth_error pred_prob (snd si) = Some (fst si)) sel
    /\ length sel = Nat.min (test_pre_nms_topk cfg) (length (filter above pred_prob))
    /\ ((length (filter above pred_prob) <= test_pre_nms_topk cfg)%nat ->
        forall idx score,
          nth_error pred_prob idx = Some score -> above score = true ->
          In (score, idx) sel).
Proof.
  cbv zeta.
  destruct (select_topk_ok cfg pred_prob) as (sel & Hsel & HF).
  exists sel. split; [exact Hsel|]. split; [exact HF|].
  unfold select_topk in Hsel. cbv zeta in Hsel.
  set (above := Qlt_bool (test_pre_nms_thresh cfg * test_pre_nms_thresh cfg)) in *.
  set (kept := filter (fun si : Q * nat => above (fst si))
                      (combine pred_prob (seq 0 (length pred_prob)))) in *.
  assert (Hk : length kept = length (filter above pred_prob))
    by apply filter_combine_seq_length.
  pose proof (mapM_length _ _ _ Hsel) as Hl.
  rewrite length_firstn, sort_desc_length, !length_map in Hl.
  split; [lia|].
  intros Hfew idx score Hnth Hab.
  assert (Hin : In (score, idx) kept).
  { apply filter_In. split; [exact (combine_seq_In pred_prob 0 idx score Hnth)|exact Hab]. }
  apply In_nth_error in Hin. destruct Hin as [j Hj].
  assert (Hs : In (score, j) (sort_desc (map fst kept))).
  { apply sort_desc_complete. now rewrite nth_error_map, Hj. }
  rewrite length_map in Hsel.
  replace (Nat.min (test_pre_nms_topk cfg) (length kept)) with (length kept) in Hsel by lia.
  rewrite firstn_all2 in Hsel by (rewrite sort_desc_length, length_map; lia).
  destruct (Forall2_in_l _ _ _ _ (mapM_inv _ _ _ Hsel) Hs) as (r & Hr & Hf).
  unfold index in Hf. cbn [snd fst] in Hf. rewrite nth_error_map, Hj in Hf.
  simpl in Hf. injection Hf as <-. exact Hr.
Qed.

Lemma decode_entry_flat (pts_i : list point) (offsets_i : list (Q * Q))
  (nl vl : list (list Z)) (si : Q * nat) (d : detection) :
  decode_entry pts_i offsets_i nl vl si = Ok d ->
  det_flat d = snd si /\ det_score d = fst si.
Proof.
  unfold decode_entry. cbv zeta.
  destruct (index2 _ nl _ _) as [n|e]; [|discriminate]. rewrite bind_ok.
  destruct (index2 _ vl _ _) as [v|e]; [|discriminate]. rewrite bind_ok.
  destruct (index _ offsets_i _) as [o|e]; [|discriminate]. rewrite bind_ok.
  destruct (index _ pts_i _) as [q|e]; [|discriminate]. rewrite bind_ok.
  intros H. injection H as <-. split; reflexivity.
Qed.

Lemma flat_index_of_triple (pt n v : nat) :
  (n < noun_topk)%nat -> (v < verb_topk)%nat ->
  let block := (verb_topk * noun_topk)%nat in
  let idx := (pt * block + n * verb_topk + v)%nat in
  (idx / block = pt /\ idx mod block / verb_topk = n
   /\ idx mod block mod verb_topk = v)%nat.
Proof.
  intros Hn Hv. cbv zeta. unfold noun_topk, verb_topk in *.
  assert (Hm : ((pt * (11 * 33) + n * 11 + v) mod (11 * 33) = n * 11 + v)%nat).
  { symmetry. apply (Nat.mod_unique _ _ pt); lia. }
  rewrite Hm. split; [|split].
  - symmetry. apply (Nat.div_unique _ _ _ (n * 11 + v)); lia.
  - symmetry. apply (Nat.div_unique _ _ _ v); lia.
  - symmetry. apply (Nat.mod_unique _ _ n); lia.
Qed.

Lemma flatten3_mul_cls_score_length (ns vs : list (list Q)) (T : nat) :
  length ns = T -> length vs = T ->
  Forall (fun r => length r = noun_topk) ns ->
  Forall (fun r => length r = verb_topk) vs ->
  length (flatten3 (mul_cls_score ns vs)) = (T * (verb_topk * noun_topk))%nat.
Proof.
  intros Hn Hv Fn Fv. unfold flatten3.
  pose proof (mul_cls_score_blocks ns vs noun_topk verb_topk Fn Fv) as Hblk.
  rewrite (length_concat_uniform _ (verb_topk * noun_topk)).
  - rewrite length_map. unfold mul_cls_score.
    rewrite length_map, length_combine. lia.
  - apply Forall_map. rewrite Forall_forall in *. intros blk Hin.
    destruct (Hblk blk Hin) as [Hl Hrows].
    rewrite (length_concat_uniform blk verb_topk Hrows), Hl. lia.
Qed.

(** ** Claim on the decoder *)

(** C7.  For tables of one level with at least [verb_topk = 11] verb and
    [noun_topk = 33] noun columns and agreeing lengths, the flattened score
    tensor has [363] entries per point, and for every flat index [idx] of it
    the decoding of [idx] returns the triple (point index = [idx div 363],
    noun offset = [(idx mod 363) div 11], verb offset = [(idx mod 363) mod
    11]); this triple is the row-major position of [idx], the entry of the
    tensor at [idx] is the product of the noun score and the verb score that
    the triple addresses, and the labels are those at the same positions.
    Conversely every triple in range is recovered from its flat index
    [pt * 363 + n * 11 + v].  The decoder returns exactly the decoded
    entries of the selected flat indexes that pass the duration filter; it
    selects [min(pre_nms_topk, #scores above the threshold)] flat indexes,
    each with the score found at that index, and all of those above the
    threshold when they are at most [pre_nms_topk]. *)
Theorem topk_index_decomposition (cfg : model_cfg) (pts_i : list point)
  (mask_i : list bool) (cls_verb_score : list (list Q)) (cls_verb_label : list (list Z))
  (cls_noun_score : list (list Q)) (cls_noun_label : list (list Z))
  (offsets_i : list (Q * Q)) :
  length mask_i = length pts_i ->
  length cls_verb_score = length pts_i -> length cls_verb_label = length pts_i ->
  length cls_noun_score = length pts_i -> length cls_noun_label = length pts_i ->
  length offsets_i = length pts_i ->
  Forall (fun r => (verb_topk <= length r)%nat) cls_verb_score ->
  Forall (fun r => (verb_topk <= length r)%nat) cls_verb_label ->
  Forall (fun r => (noun_topk <= length r)%nat) cls_noun_score ->
  Forall (fun r => (noun_topk <= length r)%nat) cls_noun_label ->
  let ns := topk_scores noun_topk cls_noun_score mask_i in
  let vs := topk_scores verb_topk cls_verb_score mask_i in
  let nl := topk_labels noun_topk cls_noun_label mask_i in
  let vl := topk_labels verb_topk cls_verb_label mask_i in
  let pred_prob := flatten3 (mul_cls_score ns vs) in
  let block := (verb_topk * noun_topk)%nat in
  let above := Qlt_bool (test_pre_nms_thresh cfg * test_pre_nms_thresh cfg) in
  length pred_prob = (length pts_i * block)%nat
  /\ (forall idx, (idx < length pred_prob)%nat ->
        exists score d,
          nth_error pred_prob idx = Some score
          /\ decode_entry pts_i offsets_i nl vl (score, idx) = Ok d
          /\ det_flat d = idx /\ det_score d = score
          /\ addresses_selected_score ns vs nl vl d)
  /\ (forall pt n v,
        (pt < length pts_i)%nat -> (n < noun_topk)%nat -> (v < verb_topk)%nat ->
        let idx := (pt * block + n * verb_topk + v)%nat in
        (idx < length pred_prob)%nat
        /\ (idx / block)%nat = pt
        /\ (idx mod block / verb_topk)%nat = n
        /\ (idx mod block mod verb_topk)%nat = v
        /\ exists n_s v_s,
             at2 ns pt n = Some n_s /\ at2 vs pt v = Some v_s
             /\ nth_error pred_prob idx = Some (n_s * v_s))
  /\ exists sel cands,
       select_topk cfg pred_prob = Ok sel
       /\ mapM (decode_entry pts_i offsets_i nl vl) sel = Ok cands
       /\ decode_level cfg pts_i mask_i cls_verb_score cls_verb_label
            cls_noun_score cls_noun_label offsets_i
          = Ok (filter (fun d => Qlt_bool (test_duration_thresh cfg)
                                          (snd (det_seg d) - fst (det_seg d))) cands)
       /\ map det_flat cands = map snd sel
       /\ map det_score cands = map fst sel
       /\ Forall (addresses_selected_score ns vs nl vl) cands
       /\ length sel
          = Nat.min (test_pre_nms_topk cfg) (length (filter above pred_prob))
       /\ ((length (filter above pred_prob) <= test_pre_nms_topk cfg)%nat ->
           forall idx score,
             nth_error pred_prob idx = Some score -> above score = true ->
             In (score, idx) sel).
Proof.
  intros Hm Hvs Hvl Hns Hnl Hoff Fvs Fvl Fns Fnl. cbv zeta.
  set (vs := topk_scores verb_topk cls_verb_score mask_i).
  set (vl := topk_labels verb_topk cls_verb_label mask_i).
  set (ns := topk_scores noun_topk cls_noun_score mask_i).
  set (nl := topk_labels noun_topk cls_noun_label mask_i).
  set (pred_prob := flatten3 (mul_cls_score ns vs)).
  assert (Lns : length ns = length pts_i)
    by (subst ns; rewrite topk_scores_length; congruence).
  assert (Lvs : length vs = length pts_i)
    by (subst vs; rewrite topk_scores_length; congruence).
  assert (Lnl : length nl = length pts_i)
    by (subst nl; rewrite topk_labels_length; congruence).
  assert (Lvl : length vl = length pts_i)
    by (subst vl; rewrite topk_labels_length; congruence).
  assert (Rns : Forall (fun r => length r = noun_topk) ns)
    by now apply topk_scores_rows.
  assert (Rvs : Forall (fun r => length r = verb_topk) vs)
    by now apply topk_scores_rows.
  assert (Rnl : Forall (fun r => length r = noun_topk) nl)
    by now apply topk_labels_rows.
  assert (Rvl : Forall (fun r => length r = verb_topk) vl)
    by now apply topk_labels_rows.
  assert (Hlen : length pred_prob = (length pts_i * (verb_topk * noun_topk))%nat)
    by now apply flatten3_mul_cls_score_length.
  assert (Hentry : forall si, nth_error pred_prob (snd si) = Some (fst si) ->
            exists d, decode_entry pts_i offsets_i nl vl si = Ok d
                      /\ det_flat d = snd si /\ det_score d = fst si
                      /\ addresses_selected_score ns vs nl vl d).
  { intros si Hsi.
    destruct (decode_entry_ok pts_i offsets_i ns vs nl vl si) as (d & Hd & Ha);
      try assumption.
    exists d. destruct (decode_entry_flat _ _ _ _ _ _ Hd) as [H1 H2].
    exact (conj Hd (conj H1 (conj H2 Ha))). }
  assert (Hidx : forall idx, (idx < length pred_prob)%nat ->
            exists score d,
              nth_error pred_prob idx = Some score
              /\ decode_entry pts_i offsets_i nl vl (score, idx) = Ok d
              /\ det_flat d = idx /\ det_score d = score
              /\ addresses_selected_score ns vs nl vl d).
  { intros idx Hi. destruct (nth_error_lt_exists pred_prob idx Hi) as [score Hs].
    destruct (Hentry (score, idx) Hs) as (d & Hd & H1 & H2 & Ha).
    exists score, d. exact (conj Hs (conj Hd (conj H1 (conj H2 Ha)))). }
  split; [exact Hlen|]. split; [exact Hidx|]. split.
  - intros pt n v Hpt Hn Hv.
    destruct (flat_index_of_triple pt n v Hn Hv) as (E1 & E2 & E3).
    cbv zeta in E1, E2, E3.
    set (idx := (pt * (verb_topk * noun_topk) + n * verb_topk + v)%nat) in *.
    assert (Hi : (idx < length pred_prob)%nat).
    { rewrite Hlen. subst idx. unfold noun_topk, verb_topk in *. nia. }
    refine (conj Hi (conj E1 (conj E2 (conj E3 _)))).
    destruct (Hidx idx Hi) as (score & d & Hs & _ & Hflat & Hscore & Ha).
    destruct Ha as (Hp & Hn1 & Hv1 & _ & _ & _ & _ & (n_s & v_s & Hans & Havs & Hprod) & _).
    rewrite Hflat in Hp, Hn1, Hv1. rewrite Hp, Hn1, Hv1, E1, E2, E3 in *.
    exists n_s, v_s. rewrite Hs, <- Hscore, Hprod.
    exact (conj Hans (conj Havs eq_refl)).
  - destruct (select_topk_complete cfg pred_prob) as (sel & Hsel & HF & Hcount & Hall).
    destruct (mapM_ok (decode_entry pts_i offsets_i nl vl) sel) as (cands & Hd & Hrel).
    { intros si Hin. rewrite Forall_forall in HF.
      destruct (Hentry si (HF si Hin)) as (d & Hd & _). now exists d. }
    exists sel, cands. split; [exact Hsel|]. split; [exact Hd|]. split.
    { unfold decode_level. cbv zeta. fold vs vl ns nl. fold pred_prob.
      now rewrite Hsel, bind_ok, Hd, bind_ok. }
    assert (Hfacts : map det_flat cands = map snd sel
                     /\ map det_score cands = map fst sel
                     /\ Forall (addresses_selected_score ns vs nl vl) cands).
    { clear Hsel Hd Hcount Hall.
      induction Hrel as [|si d sel' cands' Hsd _ IH]; [repeat split; constructor|].
      pose proof (Forall_inv HF) as Hsi. apply Forall_inv_tail in HF.
      destruct (IH HF) as (I1 & I2 & I3).
      destruct (Hentry si Hsi) as (d' & Hd' & H1 & H2 & Ha).
      rewrite Hsd in Hd'. injection Hd' as <-.
      simpl. rewrite I1, I2, H1, H2.
      refine (conj eq_refl (conj eq_refl _)). now constructor. }
    destruct Hfacts as (F1 & F2 & F3).
    refine (conj F1 (conj F2 (conj F3 (conj Hcount Hall)))).
Qed.

Lemma topk_index_decomposition_witness :
  length (flatten3 (mul_cls_score
                      (topk_scores noun_topk decode_noun_score decode_mask)
                      (topk_scores verb_topk decode_verb_score decode_mask)))
  = (length decode_pts * (verb_topk * noun_topk))%nat
  /\ forall idx,
    (idx < length (flatten3 (mul_cls_score
                               (topk_scores noun_topk decode_noun_score decode_mask)
                               (topk_scores verb_topk decode_verb_score decode_mask))))%nat ->
    exists score d,
      nth_error (flatten3 (mul_cls_score
                             (topk_scores noun_topk decode_noun_score decode_mask)
                             (topk_scores verb_topk decode_verb_score decode_mask)))
                idx = Some score
      /\ decode_entry decode_pts decode_offsets
           (topk_labels noun_topk decode_noun_label decode_mask)
           (topk_labels verb_topk decode_verb_label decode_mask) (score, idx) = Ok d
      /\ det_flat d = idx /\ det_score d = score
      /\ addresses_selected_score
           (topk_scores noun_topk decode_noun_score decode_mask)
           (topk_scores verb_topk decode_verb_score decode_mask)
           (topk_labels noun_topk decode_noun_label decode_mask)
           (topk_labels verb_topk decode_verb_label decode_mask) d.
Proof.
  refine ((fun full => conj (proj1 full) (proj1 (proj2 full)))
            (topk_index_decomposition cfg_none decode_pts decode_mask
               decode_verb_score decode_verb_label decode_noun_score
               decode_noun_label decode_offsets _ _ _ _ _ _ _ _ _ _));
    try reflexivity; repeat (constructor; try (vm_compute; discriminate)).
Defined.

(** ** Boundary confidence *)

Lemma rational_sigmoid_increasing : sigmoid_increasing rational_kernels.
Proof.
  intros x y. simpl. unfold rational_sigmoid.
  set (a := Qabs x). set (b := Qabs y).
  assert (Ha : (0 <= x /\ a == x) \/ (x <= 0 /\ a == - x)).
  { unfold a. apply (Qabs_case x); intros H; [left|right]; split;
      auto; reflexivity. }
  assert (Hb : (0 <= y /\ b == y) \/ (y <= 0 /\ b == - y)).
  { unfold b. apply (Qabs_case y); intros H; [left|right]; split;
      auto; reflexivity. }
  assert (Ha0 : 0 <= a) by (destruct Ha as [[? ?]|[? ?]]; lra).
  assert (Hb0 : 0 <= b) by (destruct Hb as [[? ?]|[? ?]]; lra).
  set (u := x / (1 + a)). set (v := y / (1 + b)).
  assert (Hu : u * (1 + a) == x) by (unfold u; field; lra).
  assert (Hv : v * (1 + b) == y) by (unfold v; field; lra).
  clearbody u v. clearbody a b.
  assert (Huv : (1 + u) / 2 <= (1 + v) / 2 <-> u <= v).
  { split; intros H.
    - assert (H2 : (1 + u) / 2 * 2 <= (1 + v) / 2 * 2) by (apply Qmult_le_compat_r; lra).
      assert (E1 : (1 + u) / 2 * 2 == 1 + u) by field.
      assert (E2 : (1 + v) / 2 * 2 == 1 + v) by field. lra.
    - apply Qle_shift_div_l; [lra|].
      assert (E1 : (1 + u) / 2 * 2 == 1 + u) by field. lra. }
  rewrite Huv.
  assert (Hcross : u <= v <-> x * (1 + b) <= y * (1 + a)).
  { assert (HP : 0 < (1 + a) * (1 + b)) by nra.
    assert (E1 : x * (1 + b) == u * ((1 + a) * (1 + b))) by (rewrite <- Hu; ring).
    assert (E2 : y * (1 + a) == v * ((1 + a) * (1 + b))) by (rewrite <- Hv; ring).
    rewrite E1, E2. symmetry. apply Qmult_le_r. exact HP. }
  rewrite Hcross.
  destruct Ha as [[Hx Ea]|[Hx Ea]], Hb as [[Hy Eb]|[Hy Eb]]; rewrite Ea, Eb;
    split; intros H; nra.
Qed.

Lemma underflow_kernels_sound : float_kernels underflow_kernels.
Proof.
  split.
  - intros x Hx. simpl. destruct (Qle_bool x (-110)) eqn:E1; [split; lra|].
    rewrite (proj2 (Qle_bool_iff x 0) Hx).
    assert (Hd : 0 < 1 - x) by lra.
    split.
    + apply Qle_shift_div_l; [exact Hd|lra].
    + apply Qle_shift_div_r; [exact Hd|lra].
  - intros y H0 H1. simpl.
    pose proof rational_sigmoid_increasing as Hinc.
    unfold sigmoid_increasing in Hinc. simpl in Hinc. split.
    + apply Qle_trans with (y := rational_sigmoid 0);
        [vm_compute; discriminate|now apply Hinc].
    + now apply Hinc.
Qed.

Lemma gaussian_argument_nonpos (sigma x : Q) :
  ~ sigma == 0 -> - (x * x) / (2 * sigma * sigma) <= 0.
Proof.
  intros Hs.
  assert (Hd : 0 < 2 * sigma * sigma).
  { destruct (Q_dec sigma 0) as [[H|H]|H]; [nra|nra|contradiction]. }
  apply Qle_shift_div_r; [exact Hd|]. nra.
Qed.

Lemma conf_bounds (K : kernels) (sigma x : Q) :
  float_kernels K -> ~ sigma == 0 ->
  0 <= Evidence.train_conf K sigma x /\ Evidence.train_conf K sigma x <= 1
  /\ 1 # 2 <= Evidence.conf K sigma x /\ Evidence.conf K sigma x <= t_sigmoid K 1.
Proof.
  intros [Hexp Hsig] Hs. unfold Evidence.conf, Evidence.train_conf, gaussian_conf.
  destruct (Hexp _ (gaussian_argument_nonpos sigma x Hs)) as [H0 H1].
  destruct (Hsig _ H0 H1) as [H2 H3]. tauto.
Qed.

Lemma gather_in (conf_l : list Q) (pos : Q) :
  conf_l <> [] -> In (Evidence.gather conf_l pos) conf_l.
Proof.
  intros Hne. unfold Evidence.gather. apply nth_In.
  assert (0 < length conf_l)%nat
    by (destruct conf_l; [congruence|simpl; lia]).
  lia.
Qed.

Lemma gathered_bounds (K : kernels) (sigma : Q) (raw : list Q) (pos : Q) :
  float_kernels K -> ~ sigma == 0 -> raw <> [] ->
  1 # 2 <= Evidence.gather (map (Evidence.conf K sigma) raw) pos
  /\ Evidence.gather (map (Evidence.conf K sigma) raw) pos <= t_sigmoid K 1.
Proof.
  intros HK Hs Hne.
  assert (Hin : In (Evidence.gather (map (Evidence.conf K sigma) raw) pos)
                   (map (Evidence.conf K sigma) raw)).
  { apply gather_in. destruct raw; [congruence|discriminate]. }
  apply in_map_iff in Hin. destruct Hin as [x [Hx _]].
  rewrite <- Hx. destruct (conf_bounds K sigma x HK Hs) as (_ & _ & H). exact H.
Qed.

Lemma pad_zeros_same_length (v : list Q) : Evidence.pad_zeros v (length v) = v.
Proof. unfold Evidence.pad_zeros. now rewrite Nat.ltb_irrefl. Qed.

(** The gathered confidences of one boundary: the comprehension returns
    when [offsets_i] has a row for every row of [out_conf_i]. *)
Lemma gathered_values_ok (K : kernels) (sigma : Q) (raw : list Q)
  (offsets_i : list (Q * Q)) (pos : nat -> Q * Q -> Q) :
  float_kernels K -> ~ sigma == 0 ->
  (length raw <= length offsets_i)%nat ->
  exists vals,
    mapM (fun x => o <- index "offsets_i[x]" offsets_i x ;;
                   Ok (Evidence.gather (map (Evidence.conf K sigma) raw) (pos x o)))
         (seq 0 (length (map (Evidence.conf K sigma) raw))) = Ok vals
    /\ length vals = length raw
    /\ Forall (fun v => 1 # 2 <= v /\ v <= t_sigmoid K 1) vals.
Proof.
  intros HK Hs Hlen.
  destruct (mapM_ok_Forall
              (fun x => o <- index "offsets_i[x]" offsets_i x ;;
                        Ok (Evidence.gather (map (Evidence.conf K sigma) raw) (pos x o)))
              (fun v => 1 # 2 <= v /\ v <= t_sigmoid K 1)
              (seq 0 (length (map (Evidence.conf K sigma) raw))))
    as (vals & Hm & HF).
  - intros x Hx. apply in_seq in Hx. rewrite length_map in Hx.
    destruct (nth_error offsets_i x) as [o|] eqn:Eo.
    + exists (Evidence.gather (map (Evidence.conf K sigma) raw) (pos x o)).
      unfold index. rewrite Eo, bind_ok. split; [reflexivity|].
      apply gathered_bounds; try assumption.
      intros E. subst raw. simpl in Hx. lia.
    + apply nth_error_None in Eo. lia.
  - exists vals. split; [exact Hm|]. split; [|exact HF].
    rewrite (mapM_length _ _ _ Hm), length_seq, length_map. reflexivity.
Qed.

(** C10.  For kernels with the guarantees of float32 [exp] and [sigmoid],
    [sigma] not zero, as many points as rows of boundary offsets at the
    level and a row of [offsets_i] for each of them: every boundary
    confidence of the decoder, the sigmoid of the transform
    [exp(-x^2 / (2 sigma^2))], lies in [[1/2, sigmoid 1]]; the vector
    [0.3 * (conf_start + conf_end)] added to the verb and noun logits is
    built, has one entry per point, and every entry lies in
    [[0.3, 0.6 * sigmoid 1]]; the training transform is the same one without
    the sigmoid, it lies in [[0, 1]], and the decoder's confidence is its
    sigmoid. *)
Theorem boundary_evidence_at_least_threshold (K : kernels) (sigma : Q)
  (num_pts : nat) (offsets_i out_conf_i : list (Q * Q)) :
  float_kernels K -> ~ sigma == 0 ->
  num_pts = length out_conf_i -> (length out_conf_i <= length offsets_i)%nat ->
  (forall x, 1 # 2 <= Evidence.conf K sigma x
             /\ Evidence.conf K sigma x <= t_sigmoid K 1)
  /\ (exists term,
        Evidence.boundary_term K sigma num_pts offsets_i out_conf_i = Ok term
        /\ length term = num_pts
        /\ Forall (fun t => 3 # 10 <= t /\ t <= (6 # 10) * t_sigmoid K 1) term)
  /\ (forall x, Evidence.train_conf K sigma x
                = t_exp K (- (x * x) / (2 * sigma * sigma))
                /\ 0 <= Evidence.train_conf K sigma x
                /\ Evidence.train_conf K sigma x <= 1
                /\ Evidence.conf K sigma x
                   = t_sigmoid K (Evidence.train_conf K sigma x)).
Proof.
  intros HK Hs Hn Hoff.
  split; [intros x; destruct (conf_bounds K sigma x HK Hs); tauto|]. split.
  - unfold Evidence.boundary_term. cbv zeta.
    assert (Hfst : map (fun c : Q * Q => Evidence.conf K sigma (fst c)) out_conf_i
                   = map (Evidence.conf K sigma) (map fst out_conf_i))
      by now rewrite map_map.
    assert (Hsnd : map (fun c : Q * Q => Evidence.conf K sigma (snd c)) out_conf_i
                   = map (Evidence.conf K sigma) (map snd out_conf_i))
      by now rewrite map_map.
    rewrite Hfst, Hsnd.
    destruct (gathered_values_ok K sigma (map fst out_conf_i) offsets_i
                (fun x o => Q_of_nat x - fst o) HK Hs) as (vs & Hvs & Hls & Fs);
      [now rewrite length_map|].
    destruct (gathered_values_ok K sigma (map snd out_conf_i) offsets_i
                (fun x o => Q_of_nat x + snd o) HK Hs) as (ve & Hve & Hle & Fe);
      [now rewrite length_map|].
    rewrite Hvs, bind_ok, Hve, bind_ok.
    rewrite length_map in Hls, Hle.
    eexists. split; [reflexivity|].
    assert (Hps : Evidence.pad_zeros vs num_pts = vs)
      by (rewrite Hn, <- Hls; apply pad_zeros_same_length).
    assert (Hpe : Evidence.pad_zeros ve num_pts = ve)
      by (rewrite Hn, <- Hle; apply pad_zeros_same_length).
    rewrite Hps, Hpe.
    split; [rewrite length_map, length_combine; lia|].
    apply Forall_map, Forall_forall. intros [a b] Hin. simpl.
    rewrite Forall_forall in Fs, Fe.
    destruct (Fs a (in_combine_l _ _ _ _ Hin)).
    destruct (Fe b (in_combine_r _ _ _ _ Hin)). split; lra.
  - intros x. destruct (conf_bounds K sigma x HK Hs) as (H0 & H1 & _).
    repeat split; assumption.
Qed.

Lemma boundary_evidence_at_least_threshold_witness :
  exists term,
    Evidence.boundary_term underflow_kernels (11 # 2) 2 [(1, 2); (0, 3)]
      [(0, 1); (3, 2)] = Ok term
    /\ length term = 2%nat
    /\ Forall (fun t => 3 # 10 <= t /\ t <= (6 # 10) * t_sigmoid underflow_kernels 1)
              term.
Proof.
  apply (proj1 (proj2
    (boundary_evidence_at_least_threshold underflow_kernels (11 # 2) 2
       [(1, 2); (0, 3)] [(0, 1); (3, 2)] underflow_kernels_sound
       ltac:(intros H; vm_compute in H; discriminate) eq_refl
       ltac:(simpl; lia)))).
Defined.

(** The bound [0.3] is attained: for a raw boundary offset of 1000 at
    [sigma = 5.5] the exponent is below [-16000], [exp] underflows to 0, the
    confidence is [sigmoid 0 = 1/2] and the evidence is [0.3 * (1/2 + 1/2)],
    which is not greater than [0.3]. *)
Lemma boundary_evidence_equal_to_threshold :
  float_kernels underflow_kernels
  /\ Evidence.conf underflow_kernels (11 # 2) 1000 == 1 # 2
  /\ ~ 1 # 2 < Evidence.conf underflow_kernels (11 # 2) 1000
  /\ exists t,
       Evidence.boundary_term underflow_kernels (11 # 2) 1 [(0, 0)]
         [(1000, 1000)] = Ok [t]
       /\ t == 3 # 10 /\ ~ 3 # 10 < t.
Proof.
  split; [exact underflow_kernels_sound|].
  split; [vm_compute; reflexivity|].
  split; [vm_compute; intros H; discriminate|].
  eexists. split; [vm_compute; reflexivity|].
  split; [vm_compute; reflexivity|vm_compute; intros H; discriminate].
Qed.

(** ** The classification loss of one taxonomy *)

Lemma masked_select_ok {A : Type} (what : string) (x : list (list A))
  (mask : list (list bool)) :
  same_shape x mask = true -> masked_select what x mask = Ok (select_rows x mask).
Proof. intros H. unfold masked_select. now rewrite H. Qed.

Lemma one_hot_rows_ok (C : Z) (smoothing : Q) (labels : list Z) :
  forallb (label_in_range C) labels = true ->
  mapM (one_hot_row C smoothing) labels = Ok (map (one_hot_smoothed C smoothing) labels).
Proof.
  induction labels as [|l labels IH]; simpl; intros H; [reflexivity|].
  apply andb_true_iff in H. destruct H as [Hl Hr].
  unfold one_hot_row at 1. rewrite Hl, bind_ok, (IH Hr). reflexivity.
Qed.

(** The loss of a taxonomy is its total focal loss divided by the
    normaliser passed to it. *)
Lemma cls_loss_ok (K : kernels) (C : Z) (smoothing normalizer : Q)
  (gt_cls : list (list Z)) (logits : list (list (list Q))) (valid_mask : list (list bool)) :
  cls_ready C gt_cls logits valid_mask = true ->
  cls_loss K C smoothing normalizer gt_cls logits valid_mask
  = Ok (focal_total K C smoothing gt_cls logits valid_mask / normalizer).
Proof.
  unfold cls_ready. intros H.
  apply andb_true_iff in H. destruct H as [H H3].
  apply andb_true_iff in H. destruct H as [H1 H2].
  unfold cls_loss, focal_total.
  rewrite (masked_select_ok _ _ _ H1), bind_ok.
  rewrite (one_hot_rows_ok _ _ _ H2), bind_ok.
  rewrite (masked_select_ok _ _ _ H3), bind_ok. reflexivity.
Qed.

(** ** [losses] *)

Lemma losses_unfold (K : kernels) (cfg : model_cfg) (args : cli_args)
  (o : stream_outputs) (g : batch_targets) (is_audio : bool) (st : model_state) sel :
  positive_inputs o g
    (pos_mask cfg (gt_cls_v g) (gt_cls_n g) (cat_dim1 (fpn_masks o))) is_audio = Ok sel ->
  losses K cfg args o g is_audio st
  = (losses_body K cfg args o g (cat_dim1 (fpn_masks o)) (num_pos_of cfg o g) sel
       is_audio (update_normalizer st (num_pos_of cfg o g)),
     update_normalizer st (num_pos_of cfg o g)).
Proof.
  intros H. unfold losses. cbv zeta. rewrite H. reflexivity.
Qed.

(** Without positive points the body of [losses] on the visual stream reads
    [actionness_loss], which no statement on that path has assigned. *)
Lemma losses_body_without_positives (K : kernels) (cfg : model_cfg) (args : cli_args)
  (o : stream_outputs) (g : batch_targets) (valid_mask : list (list bool)) sel
  (st' : model_state) :
  exists e, losses_body K cfg args o g valid_mask 0 sel false st' = Err e
    /\ (cls_ready (num_classes_verb cfg) (gt_cls_v g) (cat_dim1 (out_cls_logits_v o)) valid_mask
        && cls_ready (num_classes_noun cfg) (gt_cls_n g) (cat_dim1 (out_cls_logits_n o)) valid_mask
        = true -> e = UnboundLocalError "actionness_loss").
Proof.
  unfold losses_body.
  destruct sel as [[[po pc] pa] [[[go gs] ge] ga]].
  destruct (cls_ready (num_classes_verb cfg) (gt_cls_v g)
              (cat_dim1 (out_cls_logits_v o)) valid_mask) eqn:Hv.
  - rewrite (cls_loss_ok K _ _ _ _ _ _ Hv), bind_ok.
    destruct (cls_ready (num_classes_noun cfg) (gt_cls_n g)
                (cat_dim1 (out_cls_logits_n o)) valid_mask) eqn:Hn.
    + rewrite (cls_loss_ok K _ _ _ _ _ _ Hn), bind_ok.
      eexists. split; [reflexivity|]. reflexivity.
    + destruct (cls_loss K (num_classes_noun cfg) (train_label_smoothing cfg) 500
                  (gt_cls_n g) (cat_dim1 (out_cls_logits_n o)) valid_mask) as [x|e].
      * rewrite bind_ok. eexists. split; [reflexivity|discriminate].
      * eexists. split; [reflexivity|discriminate].
  - destruct (cls_loss K (num_classes_verb cfg) (train_label_smoothing cfg) 250
                (gt_cls_v g) (cat_dim1 (out_cls_logits_v o)) valid_mask) as [x|e].
    + rewrite bind_ok.
      destruct (cls_loss K (num_classes_noun cfg) (train_label_smoothing cfg) 500
                  (gt_cls_n g) (cat_dim1 (out_cls_logits_n o)) valid_mask) as [y|e].
      * rewrite bind_ok. eexists. split; [reflexivity|discriminate].
      * eexists. split; [reflexivity|discriminate].
    + eexists. split; [reflexivity|discriminate].
Qed.

Lemma losses_visual_without_positives (K : kernels) (cfg : model_cfg) (args : cli_args)
  (o : stream_outputs) (g : batch_targets) (st : model_state) :
  num_pos_of cfg o g = 0%nat ->
  exists e st', losses K cfg args o g false st = (Err e, st')
    /\ (stream_ready cfg o g false = true ->
        e = UnboundLocalError "actionness_loss" /\ st' = update_normalizer st 0).
Proof.
  intros Hz. unfold stream_ready. cbv zeta.
  destruct (positive_inputs o g
              (pos_mask cfg (gt_cls_v g) (gt_cls_n g) (cat_dim1 (fpn_masks o))) false)
    as [sel|e] eqn:Hsel.
  - rewrite (losses_unfold K cfg args o g false st sel Hsel), Hz.
    destruct (losses_body_without_positives K cfg args o g (cat_dim1 (fpn_masks o))
                sel (update_normalizer st 0)) as [e [He Hexact]].
    exists e, (update_normalizer st 0). rewrite He. split; [reflexivity|].
    intros Hr. split; [now apply Hexact|reflexivity].
  - exists e, st. unfold losses. cbv zeta. rewrite Hsel.
    split; [reflexivity|discriminate].
Qed.

(** With positive points and well-shaped inputs [losses] returns its
    dictionary and leaves the normaliser blended once. *)
Lemma losses_ok (K : kernels) (cfg : model_cfg) (args : cli_args)
  (o : stream_outputs) (g : batch_targets) (is_audio : bool) (st : model_state) :
  stream_ready cfg o g is_audio = true ->
  (if is_audio then true else giou_ready cfg o g) = true ->
  let valid_mask := cat_dim1 (fpn_masks o) in
  let st' := update_normalizer st (num_pos_of cfg o g) in
  exists d,
    losses K cfg args o g is_audio st = (Ok d, st')
    /\ dict_get d "cls_loss_v"
       = Ok (verb_cls_weight args
             * (focal_total K (num_classes_verb cfg) (train_label_smoothing cfg)
                  (gt_cls_v g) (cat_dim1 (out_cls_logits_v o)) valid_mask / 250))
    /\ dict_get d "cls_loss_n"
       = Ok (noun_cls_weight args
             * (focal_total K (num_classes_noun cfg) (train_label_smoothing cfg)
                  (gt_cls_n g) (cat_dim1 (out_cls_logits_n o)) valid_mask / 500))
    /\ (is_audio = false ->
        exists po pc pa go gs ge ga x a,
          positive_inputs o g (pos_mask cfg (gt_cls_v g) (gt_cls_n g) valid_mask) false
          = Ok (po, pc, pa, (go, gs, ge, ga))
          /\ ctr_giou_loss_1d K args po pc pa go gs ge ga = Ok (x, a)
          /\ dict_get d "reg_loss" = Ok (x / loss_normalizer st')
          /\ dict_get d "act_loss" = Ok a).
Proof.
  intros Hready Hgiou. cbv zeta.
  unfold stream_ready in Hready. cbv zeta in Hready.
  unfold giou_ready in Hgiou. cbv zeta in Hgiou.
  destruct (positive_inputs o g
              (pos_mask cfg (gt_cls_v g) (gt_cls_n g) (cat_dim1 (fpn_masks o))) is_audio)
    as [sel|e] eqn:Hsel; [|discriminate].
  apply andb_true_iff in Hready. destruct Hready as [Hv Hn].
  rewrite (losses_unfold K cfg args o g is_audio st sel Hsel).
  unfold losses_body.
  destruct sel as [[[po pc] pa] [[[go gs] ge] ga]].
  rewrite (cls_loss_ok K _ _ _ _ _ _ Hv), bind_ok.
  rewrite (cls_loss_ok K _ _ _ _ _ _ Hn), bind_ok.
  destruct is_audio.
  - eexists. split; [reflexivity|]. split; [reflexivity|]. split; [reflexivity|].
    discriminate.
  - rewrite Hsel in Hgiou.
    apply andb_true_iff in Hgiou. destruct Hgiou as [Hgiou Hgo].
    apply andb_true_iff in Hgiou. destruct Hgiou as [Hpos Hpo].
    apply negb_true_iff in Hpos.
    cbn [negb]. unfold num_pos_of at 1. rewrite Hpos.
    assert (Hg : exists x a, ctr_giou_loss_1d K args po pc pa go gs ge ga = Ok (x, a)).
    { unfold ctr_giou_loss_1d. rewrite Hpo, Hgo. cbn [negb].
      eexists. eexists. reflexivity. }
    destruct Hg as [x [a Hg]]. rewrite Hg, !bind_ok. cbn [read_local].
    rewrite bind_ok.
    eexists. split; [reflexivity|]. split; [reflexivity|]. split; [reflexivity|].
    intros _. exists po, pc, pa, go, gs, ge, ga, x, a.
    split; [exact Hsel|]. split; [exact Hg|]. split; reflexivity.
Qed.

(** ** The training step *)

Lemma forward_train_ok (K : kernels) (cfg : model_cfg) (args : cli_args)
  (points : list (list point)) (gt_segments : list (list segment))
  (gt_labels_v gt_labels_n : list (list Z)) (visual audio : stream_outputs)
  (st : model_state) :
  forward_ready cfg args points gt_segments gt_labels_v gt_labels_n visual audio = true ->
  let np_v := step_num_pos cfg args points gt_segments gt_labels_v gt_labels_n visual in
  let np_a := step_num_pos cfg args points gt_segments gt_labels_v gt_labels_n audio in
  let st1 := update_normalizer st np_v in
  let st2 := update_normalizer st1 np_a in
  exists g d,
    label_points cfg args points gt_segments gt_labels_v gt_labels_n = Ok g
    /\ forward_train K cfg args points gt_segments gt_labels_v gt_labels_n
         visual audio st = (Ok d, st2)
    /\ (exists po pc pa go gs ge ga x a,
          positive_inputs visual g
            (pos_mask cfg (gt_cls_v g) (gt_cls_n g) (cat_dim1 (fpn_masks visual))) false
          = Ok (po, pc, pa, (go, gs, ge, ga))
          /\ ctr_giou_loss_1d K args po pc pa go gs ge ga = Ok (x, a)
          /\ dict_get d "reg_visual" = Ok (x / loss_normalizer st1))
    /\ dict_get d "cls_v"
       = Ok (verb_cls_weight args
             * (focal_total K (num_classes_verb cfg) (train_label_smoothing cfg)
                  (gt_cls_v g) (cat_dim1 (out_cls_logits_v visual))
                  (cat_dim1 (fpn_masks visual)) / 250)
             + loss_a_weight args
               * (verb_cls_weight args
                  * (focal_total K (num_classes_verb cfg) (train_label_smoothing cfg)
                       (gt_cls_v g) (cat_dim1 (out_cls_logits_v audio))
                       (cat_dim1 (fpn_masks audio)) / 250)))
    /\ dict_get d "cls_n"
       = Ok (noun_cls_weight args
             * (focal_total K (num_classes_noun cfg) (train_label_smoothing cfg)
                  (gt_cls_n g) (cat_dim1 (out_cls_logits_n visual))
                  (cat_dim1 (fpn_masks visual)) / 500)
             + loss_a_weight args
               * (noun_cls_weight args
                  * (focal_total K (num_classes_noun cfg) (train_label_smoothing cfg)
                       (gt_cls_n g) (cat_dim1 (out_cls_logits_n audio))
                       (cat_dim1 (fpn_masks audio)) / 500))).
Proof.
  unfold forward_ready, step_num_pos, forward_train. intros Hready. cbv zeta.
  destruct (label_points cfg args points gt_segments gt_labels_v gt_labels_n)
    as [g|e]; [|discriminate].
  apply andb_true_iff in Hready. destruct Hready as [Hready Ha].
  apply andb_true_iff in Hready. destruct Hready as [Hv Hg].
  destruct (losses_ok K cfg args visual g false st Hv Hg)
    as (dv & Hlv & Hvv & Hvn & Hreg).
  destruct (Hreg eq_refl) as (po & pc & pa & go & gs & ge & ga & x & a & Hsel & Hgiou & Hr & Hact).
  destruct (losses_ok K cfg args audio g true (update_normalizer st (num_pos_of cfg visual g))
              Ha eq_refl) as (da & Hla & Hav & Han & _).
  cbv zeta in Hlv, Hla, Hvv, Hvn, Hav, Han, Hr.
  rewrite Hlv, Hla, Hvv, Hav, Hvn, Han, Hr, Hact. cbn [bind].
  exists g. eexists. split; [reflexivity|]. split; [reflexivity|].
  split; [|split; reflexivity].
  exists po, pc, pa, go, gs, ge, ga, x, a.
  split; [exact Hsel|]. split; [exact Hgiou|]. reflexivity.
Qed.

(** The batch of zero-length segments is well shaped and has no positive
    point. *)
Lemma zero_length_batch_facts :
  match label_points cfg_none args_default points_2304 batch_zero_length
          batch_labels batch_labels with
  | Ok g => stream_ready cfg_none (visual_stream 2) g false
            && (num_pos_of cfg_none (visual_stream 2) g =? 0)%nat
  | Err _ => false
  end = true.
Proof. vm_compute. reflexivity. Qed.

(** The batch of segments [(2, 4)] goes through both calls of [losses], with
    two positive points on either stream. *)
Lemma segment_batch_facts :
  forward_ready cfg_none args_default points_2304 batch_segments batch_labels
    batch_labels (visual_stream 2) (audio_stream 2) = true
  /\ step_num_pos cfg_none args_default points_2304 batch_segments batch_labels
       batch_labels (visual_stream 2) = 2%nat
  /\ step_num_pos cfg_none args_default points_2304 batch_segments batch_labels
       batch_labels (audio_stream 2) = 2%nat.
Proof. vm_compute. repeat split; reflexivity. Qed.

(** ** Claims on the losses *)

(** C2 (the code does not do what the claim says).  A training step whose
    mini-batch has no positive point on the visual stream never returns its
    losses: [reg_loss] is set to [0 * pred_offsets.sum()], but the returned
    dictionary reads [actionness_loss], which is only assigned on the branch
    with positive points. *)
Theorem zero_positive_batch_raises (K : kernels) (cfg : model_cfg) (args : cli_args)
  (points : list (list point)) (gt_segments : list (list segment))
  (gt_labels_v gt_labels_n : list (list Z)) (visual audio : stream_outputs)
  (st : model_state) :
  step_num_pos cfg args points gt_segments gt_labels_v gt_labels_n visual = 0%nat ->
  forall d,
    fst (forward_train K cfg args points gt_segments gt_labels_v gt_labels_n
           visual audio st) <> Ok d.
Proof.
  unfold step_num_pos, forward_train. intros Hz d.
  destruct (label_points cfg args points gt_segments gt_labels_v gt_labels_n)
    as [g|e]; [|discriminate].
  destruct (losses_visual_without_positives K cfg args visual g st Hz)
    as (e & st' & Hl & _).
  rewrite Hl. discriminate.
Qed.

Lemma zero_positive_batch_raises_witness :
  step_num_pos cfg_none args_default points_2304 batch_zero_length batch_labels
    batch_labels (visual_stream 2) = 0%nat
  /\ forall d,
       fst (forward_train probe_kernels cfg_none args_default points_2304
              batch_zero_length batch_labels batch_labels
              (visual_stream 2) (audio_stream 2) (mkState 100)) <> Ok d.
Proof.
  assert (H : step_num_pos cfg_none args_default points_2304 batch_zero_length
                batch_labels batch_labels (visual_stream 2) = 0%nat)
    by (vm_compute; reflexivity).
  split; [exact H|].
  exact (zero_positive_batch_raises probe_kernels cfg_none args_default points_2304
           batch_zero_length batch_labels batch_labels
           (visual_stream 2) (audio_stream 2) (mkState 100) H).
Defined.

(** The exception raised on the batch of zero-length segments, whatever the
    kernels and the normaliser: the visual call of [losses] blends the
    normaliser with [max(0, 1)] and then raises. *)
Lemma zero_length_batch_raises_unbound_local (K : kernels) (st : model_state) :
  forward_train K cfg_none args_default points_2304 batch_zero_length
    batch_labels batch_labels (visual_stream 2) (audio_stream 2) st
  = (Err (UnboundLocalError "actionness_loss"), update_normalizer st 0).
Proof.
  pose proof zero_length_batch_facts as H.
  unfold forward_train.
  destruct (label_points cfg_none args_default points_2304 batch_zero_length
              batch_labels batch_labels) as [g|e]; [|discriminate].
  apply andb_true_iff in H. destruct H as [Hr Hz].
  apply Nat.eqb_eq in Hz.
  destruct (losses_visual_without_positives K cfg_none args_default
              (visual_stream 2) g st Hz) as (e & st' & Hl & Hexact).
  destruct (Hexact Hr) as [-> ->]. rewrite Hl. reflexivity.
Qed.

(** C4, as the code has it.  On a training step that goes through, the
    normaliser is blended by [new = 0.9 * old + 0.1 * max(num_pos, 1)] once
    per call of [losses], that is twice per step: by the visual call, then by
    the audio call.  The regression loss of the step is the loss of
    [ctr_giou_loss_1d] divided by the normaliser as the visual call left it;
    the verb and noun classification losses of either stream are the focal
    totals divided by the constants 250 and 500. *)
Theorem normalizer_blended_once_per_losses_call (K : kernels) (cfg : model_cfg)
  (args : cli_args) (points : list (list point)) (gt_segments : list (list segment))
  (gt_labels_v gt_labels_n : list (list Z)) (visual audio : stream_outputs)
  (st : model_state) :
  forward_ready cfg args points gt_segments gt_labels_v gt_labels_n visual audio = true ->
  let np_v := step_num_pos cfg args points gt_segments gt_labels_v gt_labels_n visual in
  let np_a := step_num_pos cfg args points gt_segments gt_labels_v gt_labels_n audio in
  let st1 := update_normalizer st np_v in
  let st2 := update_normalizer st1 np_a in
  loss_normalizer st1
  == (9 # 10) * loss_normalizer st + (1 # 10) * Q_of_nat (Nat.max np_v 1)
  /\ loss_normalizer st2
     == (9 # 10) * loss_normalizer st1 + (1 # 10) * Q_of_nat (Nat.max np_a 1)
  /\ exists g d,
       label_points cfg args points gt_segments gt_labels_v gt_labels_n = Ok g
       /\ forward_train K cfg args points gt_segments gt_labels_v gt_labels_n
            visual audio st = (Ok d, st2)
       /\ (exists po pc pa go gs ge ga x a,
             positive_inputs visual g
               (pos_mask cfg (gt_cls_v g) (gt_cls_n g) (cat_dim1 (fpn_masks visual))) false
             = Ok (po, pc, pa, (go, gs, ge, ga))
             /\ ctr_giou_loss_1d K args po pc pa go gs ge ga = Ok (x, a)
             /\ dict_get d "reg_visual" = Ok (x / loss_normalizer st1))
       /\ dict_get d "cls_v"
          = Ok (verb_cls_weight args
                * (focal_total K (num_classes_verb cfg) (train_label_smoothing cfg)
                     (gt_cls_v g) (cat_dim1 (out_cls_logits_v visual))
                     (cat_dim1 (fpn_masks visual)) / 250)
                + loss_a_weight args
                  * (verb_cls_weight args
                     * (focal_total K (num_classes_verb cfg) (train_label_smoothing cfg)
                          (gt_cls_v g) (cat_dim1 (out_cls_logits_v audio))
                          (cat_dim1 (fpn_masks audio)) / 250)))
       /\ dict_get d "cls_n"
          = Ok (noun_cls_weight args
                * (focal_total K (num_classes_noun cfg) (train_label_smoothing cfg)
                     (gt_cls_n g) (cat_dim1 (out_cls_logits_n visual))
                     (cat_dim1 (fpn_masks visual)) / 500)
                + loss_a_weight args
                  * (noun_cls_weight args
                     * (focal_total K (num_classes_noun cfg) (train_label_smoothing cfg)
                          (gt_cls_n g) (cat_dim1 (out_cls_logits_n audio))
                          (cat_dim1 (fpn_masks audio)) / 500))).
Proof.
  intros Hready. cbv zeta.
  split; [unfold update_normalizer, loss_normalizer_momentum; simpl; ring|].
  split; [unfold update_normalizer, loss_normalizer_momentum; simpl; ring|].
  exact (forward_train_ok K cfg args points gt_segments gt_labels_v gt_labels_n
           visual audio st Hready).
Qed.

Lemma normalizer_blended_once_per_losses_call_witness :
  forward_ready cfg_none args_default points_2304 batch_segments batch_labels
    batch_labels (visual_stream 2) (audio_stream 2) = true
  /\ exists g d,
       label_points cfg_none args_default points_2304 batch_segments batch_labels
         batch_labels = Ok g
       /\ forward_train probe_kernels cfg_none args_default points_2304 batch_segments
            batch_labels batch_labels (visual_stream 2) (audio_stream 2) (mkState 100)
          = (Ok d,
             update_normalizer
               (update_normalizer (mkState 100)
                  (step_num_pos cfg_none args_default points_2304 batch_segments
                     batch_labels batch_labels (visual_stream 2)))
               (step_num_pos cfg_none args_default points_2304 batch_segments
                  batch_labels batch_labels (audio_stream 2))).
Proof.
  pose proof (proj1 segment_batch_facts) as Hready.
  split; [exact Hready|].
  destruct (normalizer_blended_once_per_losses_call probe_kernels cfg_none args_default
              points_2304 batch_segments batch_labels batch_labels
              (visual_stream 2) (audio_stream 2) (mkState 100) Hready)
    as (_ & _ & g & d & Hg & Hf & _).
  exists g, d. split; [exact Hg|exact Hf].
Defined.

(** C4, as stated, fails: on the batch of two videos with the segment
    [(2, 4)] there are 2 positive points; one training step from a
    normaliser of 100 goes through and leaves it at
    [0.9 * (0.9 * 100 + 0.1 * 2) + 0.1 * 2 = 81.38], not at
    [0.9 * 100 + 0.1 * 2 = 90.2]. *)
Lemma normalizer_blended_twice_in_one_step :
  step_num_pos cfg_none args_default points_2304 batch_segments batch_labels
    batch_labels (visual_stream 2) = 2%nat
  /\ exists d st',
       forward_train probe_kernels cfg_none args_default points_2304 batch_segments
         batch_labels batch_labels (visual_stream 2) (audio_stream 2) (mkState 100)
       = (Ok d, st')
       /\ loss_normalizer st' == 8138 # 100
       /\ ~ loss_normalizer st' == (9 # 10) * 100 + (1 # 10) * Q_of_nat (Nat.max 2 1).
Proof.
  destruct segment_batch_facts as (Hready & Hv & Ha).
  split; [exact Hv|].
  destruct (forward_train_ok probe_kernels cfg_none args_default points_2304
              batch_segments batch_labels batch_labels (visual_stream 2)
              (audio_stream 2) (mkState 100) Hready) as (g & d & _ & Hf & _).
  cbv zeta in Hf. rewrite Hv, Ha in Hf.
  exists d. eexists. split; [exact Hf|].
  split; [reflexivity|].
  intros H. vm_compute in H. discriminate.
Qed.

(** * Further properties of the target assigner *)

Lemma row_min_from_all_inf (l : list len_t) (i besti : nat) :
  Forall (fun x => x = Inf) l -> row_min_from i Inf besti l = (Inf, besti).
Proof.
  revert i. induction l as [|x l IH]; intros i H; [reflexivity|].
  inversion H; subst. simpl. apply IH. assumption.
Qed.

Lemma masked_lens_unmatched (cfg : model_cfg) (p : point) (gts : list segment) :
  (forall g, In g gts -> qualifies cfg p g = false) ->
  Forall (fun x => x = Inf) (masked_lens cfg p gts).
Proof.
  intros H. unfold masked_lens. apply Forall_map, Forall_forall. intros g Hin.
  specialize (H g Hin). unfold qualifies in H.
  destruct (inside_gt_seg_mask cfg p g); [|reflexivity].
  destruct (inside_regress_range p g); [discriminate|reflexivity].
Qed.

Lemma assign_point_unmatched (cfg : model_cfg) (g0 : segment) (gs : list segment)
  (lv ln : list Z) (p : point) :
  length lv = length (g0 :: gs) -> length ln = length (g0 :: gs) ->
  (forall g, In g (g0 :: gs) -> qualifies cfg p g = false) ->
  assign_point cfg (g0 :: gs) lv ln p
  = Ok (num_classes_verb cfg, num_classes_noun cfg,
        (left_dist p g0 / pt_stride p, right_dist p g0 / pt_stride p)).
Proof.
  intros Hlv Hln Hq.
  destruct lv as [|v0 lv]; [discriminate|]. destruct ln as [|n0 ln]; [discriminate|].
  pose proof (masked_lens_unmatched cfg p (g0 :: gs) Hq) as Hall.
  unfold assign_point.
  destruct (masked_lens cfg p (g0 :: gs)) as [|x r] eqn:Hm; [discriminate|].
  inversion Hall; subst. unfold row_min.
  rewrite (row_min_from_all_inf r 1 0) by assumption. reflexivity.
Qed.

(** X1.  A point that qualifies for no ground-truth segment of a video
    receives the background sentinel of both taxonomies; its regression
    target is not zeroed: it is the normalised pair of distances to the
    first segment of the video. *)
Theorem unmatched_point_targets (cfg : model_cfg) (args : cli_args)
  (pts : list point) (g0 : segment) (gs : list segment) (lv ln : list Z)
  (i : nat) (p : point) :
  length lv = length (g0 :: gs) -> length ln = length (g0 :: gs) ->
  nth_error pts i = Some p ->
  (forall g, In g (g0 :: gs) -> qualifies cfg p g = false) ->
  exists t,
    label_points_single_video cfg args pts (g0 :: gs) lv ln = Ok t
    /\ nth_error (tuple_cls_v t) i = Some (num_classes_verb cfg)
    /\ nth_error (tuple_cls_n t) i = Some (num_classes_noun cfg)
    /\ nth_error (tuple_reg t) i
       = Some (left_dist p g0 / pt_stride p, right_dist p g0 / pt_stride p).
Proof.
  intros Hlv Hln Hi Hq.
  destruct (label_points_single_video_nth cfg args pts (g0 :: gs) lv ln)
    as [t [Hret Hnth]]; try assumption; [discriminate|].
  destruct (Hnth i p Hi) as (v & n & reg & Ha & Hv & Hn & Hr).
  rewrite (assign_point_unmatched cfg g0 gs lv ln p Hlv Hln Hq) in Ha.
  injection Ha as <- <- <-.
  exists t. tauto.
Qed.

Lemma unmatched_point_targets_witness :
  exists t,
    label_points_single_video cfg_none args_default anchors6 [(2, 4)] [1%Z] [1%Z] = Ok t
    /\ nth_error (tuple_cls_v t) 0 = Some 97%Z
    /\ nth_error (tuple_cls_n t) 0 = Some 300%Z
    /\ nth_error (tuple_reg t) 0
       = Some (left_dist (mkPoint (Q_of_nat 0) 0 8 1) (2, 4) / 1,
               right_dist (mkPoint (Q_of_nat 0) 0 8 1) (2, 4) / 1).
Proof.
  apply (unmatched_point_targets cfg_none args_default anchors6 (2, 4) [] [1%Z] [1%Z]
           0 (mkPoint (Q_of_nat 0) 0 8 1) eq_refl eq_refl eq_refl).
  intros g [<-|[]]. reflexivity.
Defined.

(** X2.  The assigner returns one class target per taxonomy and one
    regression target per point, and the two class targets of a point are
    either both background sentinels or the verb and noun labels of one and
    the same ground-truth segment, for which the point qualifies. *)
Theorem class_targets_come_from_one_segment (cfg : model_cfg) (args : cli_args)
  (pts : list point) (gts : list segment) (lv ln : list Z) :
  length lv = length gts -> length ln = length gts ->
  exists t,
    label_points_single_video cfg args pts gts lv ln = Ok t
    /\ length (tuple_cls_v t) = length pts
    /\ length (tuple_cls_n t) = length pts
    /\ length (tuple_reg t) = length pts
    /\ forall i p, nth_error pts i = Some p ->
       exists v n,
         nth_error (tuple_cls_v t) i = Some v /\ nth_error (tuple_cls_n t) i = Some n
         /\ ((v = num_classes_verb cfg /\ n = num_classes_noun cfg)
             \/ exists j g, nth_error gts j = Some g /\ nth_error lv j = Some v
                            /\ nth_error ln j = Some n /\ qualifies cfg p g = true).
Proof.
  intros Hlv Hln. destruct gts as [|g0 gs].
  - eexists. split; [reflexivity|]. simpl.
    rewrite !repeat_length. repeat split.
    intros i p Hi. exists (num_classes_verb cfg), (num_classes_noun cfg).
    assert (Hlt : (i < length pts)%nat) by (apply nth_error_Some; congruence).
    rewrite !nth_error_repeat by assumption. auto.
  - assert (Hne : g0 :: gs <> []) by discriminate.
    destruct (label_points_single_video_ok cfg args pts (g0 :: gs) lv ln Hne Hlv Hln)
      as (rows & s & e & a & Hret & HF & _).
    eexists. split; [exact Hret|]. simpl.
    pose proof (Forall2_length HF) as Hlen. rewrite !length_map.
    repeat split; try (symmetry; exact Hlen).
    intros i p Hi.
    destruct (Forall2_nth_error _ pts rows HF i p Hi) as [[[v n] reg] [Hr Hp]].
    exists v, n. rewrite !nth_error_map, Hr. simpl.
    split; [reflexivity|]. split; [reflexivity|].
    destruct (assign_point_spec cfg (g0 :: gs) lv ln p Hne Hlv Hln)
      as (j & g & v' & n' & Hg & Hv & Hn & Hspec & _).
    rewrite Hspec in Hp.
    destruct (qualifies cfg p g) eqn:Hq; injection Hp as <- <- _.
    + right. exists j, g. tauto.
    + left. tauto.
Qed.

Lemma class_targets_come_from_one_segment_witness :
  exists t,
    label_points_single_video cfg_none args_default anchors6 [(2, 4)] [1%Z] [1%Z] = Ok t
    /\ length (tuple_cls_v t) = length anchors6
    /\ length (tuple_cls_n t) = length anchors6
    /\ length (tuple_reg t) = length anchors6
    /\ forall i p, nth_error anchors6 i = Some p ->
       exists v n,
         nth_error (tuple_cls_v t) i = Some v /\ nth_error (tuple_cls_n t) i = Some n
         /\ ((v = num_classes_verb cfg_none /\ n = num_classes_noun cfg_none)
             \/ exists j g, nth_error [(2, 4)] j = Some g /\ nth_error [1%Z] j = Some v
                            /\ nth_error [1%Z] j = Some n
                            /\ qualifies cfg_none p g = true).
Proof.
  apply (class_targets_come_from_one_segment cfg_none args_default anchors6
           [(2, 4)] [1%Z] [1%Z]); reflexivity.
Defined.

(** ** The actionness label *)

Lemma fold_action_no_cover (args : cli_args) (post : list segment) (ii : nat)
  (acc : act_val) :
  (forall h, In h post -> covers h ii = false) ->
  fold_left
    (fun acc g =>
       if Qle_bool (fst g) (Q_of_nat ii) && Qle_bool (Q_of_nat ii) (snd g)
       then ActGauss (Qabs (Q_of_nat ii - (fst g + snd g) / 2)) (cen_gau_sigma args)
       else acc)
    post acc = acc.
Proof.
  revert acc. induction post as [|h post IH]; intros acc H; [reflexivity|].
  simpl. pose proof (H h (or_introl eq_refl)) as Hh. unfold covers in Hh.
  rewrite Hh. apply IH. intros h' Hin. apply H. now right.
Qed.

Lemma match_score_action_app (args : cli_args) (pre post : list segment) (ii : nat) :
  (forall h, In h post -> covers h ii = false) ->
  match_score_action args (pre ++ post) ii = match_score_action args pre ii.
Proof.
  intros H. unfold match_score_action. rewrite fold_left_app.
  now apply fold_action_no_cover.
Qed.

Lemma match_score_action_last (args : cli_args) (pre : list segment) (g : segment) (ii : nat) :
  covers g ii = true ->
  match_score_action args (pre ++ [g]) ii
  = ActGauss (Qabs (Q_of_nat ii - (fst g + snd g) / 2)) (cen_gau_sigma args).
Proof.
  intros H. unfold match_score_action. rewrite fold_left_app. simpl.
  unfold covers in H. now rewrite H.
Qed.

(** X3.  At every resolution level the dense labels of a video with at
    least one segment are built, and the actionness label of anchor [ii] is
    the floor [0.1] when no scaled segment spans [ii], and otherwise the
    Gaussian of the distance between [ii] and the centre of the last
    segment, in annotation order, that spans it: a later segment overwrites
    an earlier one. *)
Theorem actionness_last_covering_segment_wins (args : cli_args)
  (gts : list segment) (n : nat) (ratio : Q) :
  (0 < length gts)%nat ->
  exists s e a,
    level_labels args gts n ratio = Ok (s, e, a)
    /\ forall ii, (ii < n)%nat ->
       ((forall g, In g (scaled_segments gts ratio) -> covers g ii = false) ->
        nth_error a ii = Some ActFloor)
       /\ (forall pre g post,
             scaled_segments gts ratio = pre ++ g :: post ->
             covers g ii = true ->
             (forall h, In h post -> covers h ii = false) ->
             nth_error a ii
             = Some (ActGauss (Qabs (Q_of_nat ii - (fst g + snd g) / 2))
                              (cen_gau_sigma args))).
Proof.
  intros Hpos.
  assert (Hne : gts <> []) by (intros E; subst; simpl in Hpos; lia).
  destruct (level_labels_ok args gts n ratio Hne) as (s & e & a & Hl & _).
  exists s, e, a. split; [exact Hl|].
  assert (Ha : a = map (match_score_action args (scaled_segments gts ratio)) (seq 0 n)).
  { unfold level_labels in Hl. cbv zeta in Hl.
    destruct (mapM _ (seq 0 n)) as [s'|]; [|discriminate]. rewrite bind_ok in Hl.
    destruct (mapM _ (seq 0 n)) as [e'|]; [|discriminate]. rewrite bind_ok in Hl.
    injection Hl as _ _ <-. reflexivity. }
  intros ii Hii. subst a. rewrite nth_error_map.
  assert (Hseq : nth_error (seq 0 n) ii = Some ii).
  { rewrite nth_error_nth' with (d := 0%nat) by (now rewrite length_seq).
    now rewrite seq_nth. }
  rewrite Hseq. simpl. split.
  - intros Hnone. f_equal.
    rewrite <- (app_nil_l (scaled_segments gts ratio)).
    now rewrite match_score_action_app.
  - intros pre g post Hsplit Hg Hpost. f_equal. rewrite Hsplit.
    replace (pre ++ g :: post) with ((pre ++ [g]) ++ post)
      by (rewrite <- app_assoc; reflexivity).
    rewrite match_score_action_app by assumption.
    now apply match_score_action_last.
Qed.

Lemma actionness_last_covering_segment_wins_witness :
  (0 < length [(0, 10); (4, 6)])%nat
  /\ exists s e a,
       level_labels args_default [(0, 10); (4, 6)] 8 1 = Ok (s, e, a)
       /\ nth_error a 5
          = Some (ActGauss (Qabs (Q_of_nat 5 - (4 / 1 + 6 / 1) / 2)) 4).
Proof.
  assert (Hpos : (0 < length [(0, 10); (4, 6)])%nat) by (simpl; lia).
  split; [exact Hpos|].
  destruct (actionness_last_covering_segment_wins args_default [(0, 10); (4, 6)] 8 1 Hpos)
    as (s & e & a & Hl & H).
  exists s, e, a. split; [exact Hl|].
  destruct (H 5%nat) as [_ Hlast]; [lia|].
  apply (Hlast [(0 / 1, 10 / 1)] (4 / 1, 6 / 1) []).
  - reflexivity.
  - reflexivity.
  - intros h [].
Defined.

(** ** Shape of the batch targets *)

Lemma Forall_snoc {A : Type} (P : A -> Prop) (l : list A) (x : A) :
  Forall P l -> P x -> Forall P (l ++ [x]).
Proof. intros Hl Hx. apply Forall_app. split; [assumption|now constructor]. Qed.

Lemma label_points_loop_shape (cfg : model_cfg) (args : cli_args)
  (concat_points : list point) (videos : list (list segment * (list Z * list Z))) :
  Forall video_labelled videos ->
  forall acc B, targets_shape (length concat_points) B acc ->
  exists g, label_points_loop cfg args concat_points videos acc = Ok g
    /\ targets_shape (length concat_points) (B + length videos) g.
Proof.
  induction 1 as [|[gts [lv ln]] rest Hgood HF IH]; intros acc B Hacc.
  - exists acc. split; [reflexivity|]. now rewrite Nat.add_0_r.
  - destruct Hgood as (Hne & Hlv & Hln). simpl in Hne, Hlv, Hln.
    destruct (label_points_single_video_ok cfg args concat_points gts lv ln Hne Hlv Hln)
      as (rows & s & e & a & Hret & HF2 & Hls & Hle & Hla & _).
    pose proof (Forall2_length HF2) as Hrows.
    cbn [label_points_loop]. rewrite Hret, bind_ok. cbn [unpack6]. rewrite bind_ok.
    destruct Hacc as ((H1 & F1) & (H2 & F2) & (H3 & F3) & (H4 & F4) & (H5 & F5) & (H6 & F6)).
    match goal with
    | |- context [label_points_loop _ _ _ rest ?acc'] =>
        destruct (IH acc' (S B)) as [g [Hg Hshape]]
    end.
    { unfold targets_shape. cbn [gt_cls_v gt_cls_n gt_offset gt_start gt_end gt_action].
      rewrite !length_app. cbn [length].
      repeat split; try lia; apply Forall_snoc; try assumption;
        rewrite ?length_map; congruence. }
    exists g. split; [exact Hg|].
    cbn [length]. now rewrite Nat.add_succ_r.
Qed.

(** X4.  On a batch in which every video has at least one segment and one
    verb and one noun label per segment, [label_points] returns; each of its
    six lists has one row per video; the class and regression targets of a
    video have one entry per point, while its three dense labels have 4536
    entries, whatever the number of points. *)
Theorem label_points_shape (cfg : model_cfg) (args : cli_args)
  (points : list (list point)) (gt_segments : list (list segment))
  (gt_labels_v gt_labels_n : list (list Z)) :
  Forall video_labelled (combine gt_segments (combine gt_labels_v gt_labels_n)) ->
  exists g,
    label_points cfg args points gt_segments gt_labels_v gt_labels_n = Ok g
    /\ targets_shape (length (concat points))
         (length (combine gt_segments (combine gt_labels_v gt_labels_n))) g.
Proof.
  intros H. unfold label_points. cbv zeta.
  destruct (label_points_loop_shape cfg args (concat points) _ H
              (mkTargets [] [] [] [] [] []) 0%nat) as [g [Hg Hs]].
  - unfold targets_shape. simpl. repeat split; constructor.
  - exists g. split; assumption.
Qed.

Lemma label_points_shape_witness :
  Forall video_labelled (combine batch_segments (combine batch_labels batch_labels))
  /\ exists g,
       label_points cfg_none args_default [anchors6] batch_segments batch_labels
         batch_labels = Ok g
       /\ targets_shape (length (concat [anchors6])) 2 g.
Proof.
  assert (H : Forall video_labelled
                (combine batch_segments (combine batch_labels batch_labels))).
  { repeat constructor; discriminate. }
  split; [exact H|].
  exact (label_points_shape cfg_none args_default [anchors6] batch_segments
           batch_labels batch_labels H).
Defined.

(** ** The hard-coded resolution *)

Lemma same_shape_first_row {A B : Type} (x : list (list A)) (m : list (list B))
  (r : list A) (rest : list (list A)) :
  x = r :: rest -> same_shape x m = true ->
  exists mr mrest, m = mr :: mrest /\ length r = length mr.
Proof.
  intros -> H. unfold same_shape in H. apply andb_true_iff in H.
  destruct H as [Hlen Hrows]. destruct m as [|mr mrest]; [discriminate|].
  simpl in Hrows. apply andb_true_iff in Hrows. destruct Hrows as [Hr _].
  apply Nat.eqb_eq in Hr. now exists mr, mrest.
Qed.

Lemma positive_inputs_resolution_mismatch (o : stream_outputs) (g : batch_targets)
  (pm : list (list bool)) (is_audio : bool) (N B : nat) :
  targets_shape N (S B) g -> N <> 4536%nat ->
  exists e, positive_inputs o g pm is_audio = Err e.
Proof.
  intros Hshape HN.
  destruct Hshape as (_ & _ & (H3 & F3) & (H4 & F4) & _).
  unfold positive_inputs.
  match goal with
  | |- context [bind ?pred _] => destruct pred as [p|e]; [|eexists; reflexivity]
  end.
  rewrite bind_ok. unfold masked_select at 1.
  destruct (same_shape (gt_offset g) pm) eqn:S1; [|eexists; reflexivity].
  rewrite bind_ok. unfold masked_select at 1.
  destruct (same_shape (gt_start g) pm) eqn:S2; [|eexists; reflexivity].
  exfalso.
  destruct (gt_offset g) as [|r rest] eqn:Eo; [discriminate|].
  destruct (gt_start g) as [|r' rest'] eqn:Es; [discriminate|].
  destruct (same_shape_first_row _ pm r rest eq_refl S1) as (mr & mrest & Hm & Hl).
  destruct (same_shape_first_row _ pm r' rest' eq_refl S2) as (mr' & mrest' & Hm' & Hl').
  rewrite Hm in Hm'. injection Hm' as <- _.
  inversion F3; subst. inversion F4; subst. lia.
Qed.

(** X5.  The dense labels have the fixed length 4536 (the level sizes
    2304, ..., 72 are constants of the assigner).  With a point table of any
    other total length, every call of [losses] on the targets of a labelled,
    non-empty batch raises when it selects the positive rows, before the
    normaliser is touched: the model trains only with 4536 points. *)
Theorem losses_need_4536_points (K : kernels) (cfg : model_cfg) (args : cli_args)
  (points : list (list point)) (gt_segments : list (list segment))
  (gt_labels_v gt_labels_n : list (list Z)) :
  Forall video_labelled (combine gt_segments (combine gt_labels_v gt_labels_n)) ->
  (0 < length (combine gt_segments (combine gt_labels_v gt_labels_n)))%nat ->
  length (concat points) <> 4536%nat ->
  exists g,
    label_points cfg args points gt_segments gt_labels_v gt_labels_n = Ok g
    /\ forall o is_audio st,
         exists e, losses K cfg args o g is_audio st = (Err e, st).
Proof.
  intros Hgood Hpos HN.
  destruct (label_points_loop_shape cfg args (concat points) _ Hgood
              (mkTargets [] [] [] [] [] []) 0%nat) as [g [Hg Hshape]].
  { unfold targets_shape. simpl. repeat split; constructor. }
  fold (label_points cfg args points gt_segments gt_labels_v gt_labels_n) in Hg.
  exists g. split; [exact Hg|]. intros o is_audio st.
  destruct (length (combine gt_segments (combine gt_labels_v gt_labels_n))) as [|B];
    [lia|].
  destruct (positive_inputs_resolution_mismatch o g
              (pos_mask cfg (gt_cls_v g) (gt_cls_n g) (cat_dim1 (fpn_masks o)))
              is_audio _ B Hshape HN) as [e He].
  exists e. unfold losses. cbv zeta. now rewrite He.
Qed.

Lemma losses_need_4536_points_witness :
  exists g,
    label_points cfg_none args_default [anchors6] batch_segments batch_labels
      batch_labels = Ok g
    /\ forall o is_audio st,
         exists e, losses probe_kernels cfg_none args_default o g is_audio st = (Err e, st).
Proof.
  apply (losses_need_4536_points probe_kernels cfg_none args_default [anchors6]
           batch_segments batch_labels batch_labels).
  - repeat constructor; discriminate.
  - simpl. lia.
  - simpl. discriminate.
Defined.

(** * Further properties of the losses *)

Lemma qsum_nonneg (l : list Q) : Forall (fun x => 0 <= x) l -> 0 <= qsum l.
Proof.
  induction 1 as [|x l Hx HF IH]; simpl; [lra|]. lra.
Qed.

Lemma square_nonneg (x : Q) : 0 <= square x.
Proof. unfold square. nra. Qed.

Lemma Qdiv_nonneg (a b : Q) : 0 <= a -> 0 <= b -> 0 <= a / b.
Proof.
  intros Ha Hb. unfold Qdiv. apply Qmult_le_0_compat; [assumption|].
  now apply Qinv_le_0_compat.
Qed.

Lemma giou_loss_nonneg (pred gt : Q * Q) :
  0 <= fst pred -> 0 <= snd pred -> 0 <= fst gt -> 0 <= snd gt ->
  0 <= loss_offset_elem pred gt.
Proof.
  destruct pred as [lp rp], gt as [lg rg]. simpl. intros H1 H2 H3 H4.
  unfold loss_offset_elem. rewrite miouk_is_iou.
  set (I := qmin rp rg + qmin lp lg).
  set (D := clamp_min (lp + rp + (lg + rg) - I) eps).
  pose proof eps_positive as He.
  assert (HD0 : 0 < D) by (subst D I; unfold clamp_min; minmax; lra).
  assert (HID : I <= D) by (subst D I; unfold clamp_min; minmax; lra).
  assert (Hq1 : I / D <= 1) by (apply Qle_shift_div_r; lra).
  lra.
Qed.

(** X6.  For offsets that pass the two assertions of [ctr_giou_loss_1d]
    (all non-negative) the loss term of a positive point lies in [[0, 1]],
    and it does not change when prediction and ground truth are
    exchanged. *)
Theorem giou_loss_range_and_symmetry (pred gt : Q * Q) :
  0 <= fst pred -> 0 <= snd pred -> 0 <= fst gt -> 0 <= snd gt ->
  0 <= loss_offset_elem pred gt /\ loss_offset_elem pred gt <= 1
  /\ loss_offset_elem pred gt == loss_offset_elem gt pred.
Proof.
  destruct pred as [lp rp], gt as [lg rg]. simpl. intros H1 H2 H3 H4.
  unfold loss_offset_elem. rewrite !miouk_is_iou.
  set (I := qmin rp rg + qmin lp lg).
  set (D := clamp_min (lp + rp + (lg + rg) - I) eps).
  set (I' := qmin rg rp + qmin lg lp).
  set (D' := clamp_min (lg + rg + (lp + rp) - I') eps).
  pose proof eps_positive as He.
  assert (HI : I' == I) by (subst I I'; minmax; lra).
  assert (HD : D' == D) by (subst D D' I I'; unfold clamp_min; minmax; lra).
  assert (HI0 : 0 <= I) by (subst I; minmax; lra).
  assert (HD0 : 0 < D) by (subst D I; unfold clamp_min; minmax; lra).
  assert (HID : I <= D) by (subst D I; unfold clamp_min; minmax; lra).
  assert (Hq0 : 0 <= I / D) by (apply Qdiv_nonneg; lra).
  assert (Hq1 : I / D <= 1) by (apply Qle_shift_div_r; lra).
  split; [lra|]. split; [lra|].
  rewrite HI, HD. reflexivity.
Qed.

Lemma giou_loss_range_and_symmetry_witness :
  0 <= loss_offset_elem (1, 2) (3, 1) /\ loss_offset_elem (1, 2) (3, 1) <= 1
  /\ loss_offset_elem (1, 2) (3, 1) == loss_offset_elem (3, 1) (1, 2).
Proof.
  apply (giou_loss_range_and_symmetry (1, 2) (3, 1)); simpl; lra.
Defined.

Lemma all_nonneg_In (offsets : list (Q * Q)) (o : Q * Q) :
  all_nonneg offsets = true -> In o offsets -> 0 <= fst o /\ 0 <= snd o.
Proof.
  unfold all_nonneg. intros H Hin. rewrite forallb_forall in H.
  specialize (H o Hin). apply andb_true_iff in H.
  now rewrite !Qle_bool_iff in H.
Qed.

(** X7.  On [P >= 1] positive points, with [P] rows in each of the seven
    tensors (as [losses] passes them), when both assertions of
    [ctr_giou_loss_1d] hold and the two loss weights are non-negative, the
    function returns, and both returned losses (the regression loss and the
    actionness loss) are non-negative, whatever the kernels and the values
    of the labels and of the predictions. *)
Theorem ctr_giou_losses_nonnegative (K : kernels) (args : cli_args)
  (input_offsets input_conf : list (Q * Q)) (input_actionness : list Q)
  (target_offsets : list (Q * Q)) (target_start target_end : list Q)
  (target_action : list act_val) :
  input_offsets <> [] ->
  length input_conf = length input_offsets ->
  length input_actionness = length input_offsets ->
  length target_offsets = length input_offsets ->
  length target_start = length input_offsets ->
  length target_end = length input_offsets ->
  length target_action = length input_offsets ->
  all_nonneg input_offsets = true -> all_nonneg target_offsets = true ->
  0 <= sigma1 args -> 0 <= loss_weight_boundary_conf args ->
  exists loss loss_action,
    ctr_giou_loss_1d K args input_offsets input_conf input_actionness
      target_offsets target_start target_end target_action = Ok (loss, loss_action)
    /\ 0 <= loss /\ 0 <= loss_action.
Proof.
  intros _ _ _ _ _ _ _ Hp Hg Hs Hw. unfold ctr_giou_loss_1d. rewrite Hp, Hg. cbn [negb]. cbv zeta.
  eexists. eexists. split; [reflexivity|].
  assert (Hmask : forall (l : list Q),
             Forall (fun x => 0 <= x)
                    (map (fun m => if Qlt_bool (1 # 2) m then 1 else 0) l)).
  { intros l. apply Forall_map, Forall_forall. intros m _.
    destruct (Qlt_bool (1 # 2) m); lra. }
  assert (Hsq : forall (A : Type) (f : A -> Q) (l : list (A * Q)),
             Forall (fun x => 0 <= snd x) l ->
             0 <= qsum (map (fun x => square (f (fst x)) * snd x) l)).
  { intros A f l HF. apply qsum_nonneg, Forall_map.
    rewrite Forall_forall in *. intros x Hin.
    pose proof (square_nonneg (f (fst x))). specialize (HF x Hin). simpl in HF. nra. }
  assert (Hcomb : forall (A : Type) (l : list A) (m : list Q),
             Forall (fun x => 0 <= x) m -> Forall (fun x : A * Q => 0 <= snd x) (combine l m)).
  { intros A l m HF. apply Forall_forall. intros [a b] Hin.
    apply in_combine_r in Hin. rewrite Forall_forall in HF. now apply HF. }
  split.
  - assert (Hoff : 0 <= qsum (map (fun pg => loss_offset_elem (fst pg) (snd pg))
                                  (combine input_offsets target_offsets))).
    { apply qsum_nonneg, Forall_map, Forall_forall. intros [p g] Hin. simpl.
      destruct (all_nonneg_In _ p Hp (in_combine_l _ _ _ _ Hin)).
      destruct (all_nonneg_In _ g Hg (in_combine_r _ _ _ _ Hin)).
      now apply giou_loss_nonneg. }
    match goal with
    | |- 0 <= _ * ?a + _ * ((1 # 2) * ?b + (1 # 2) * ?c) =>
        assert (Hb : 0 <= b)
          by (apply (Hsq _ (fun tp => fst tp - snd tp)), Hcomb, Hmask);
        assert (Hc : 0 <= c)
          by (apply (Hsq _ (fun tp => fst tp - snd tp)), Hcomb, Hmask);
        nra
    end.
  - apply Qdiv_nonneg.
    + apply qsum_nonneg, Forall_map, Forall_forall. intros a _.
      apply (Hsq _ (fun t => t - a)), Hcomb, Hmask.
    + apply Qmult_le_0_compat; unfold Q_of_nat;
        (change 0 with (inject_Z 0); rewrite <- Zle_Qle; lia).
Qed.

Lemma ctr_giou_losses_nonnegative_witness :
  exists loss loss_action,
    ctr_giou_loss_1d probe_kernels args_default [(1, 2); (0, 3)] [(0, 1); (2, 2)] [0; 1]
      [(1, 1); (1, 3)] [1 # 2; 0] [0; 1] [ActFloor; ActGauss 1 4] = Ok (loss, loss_action)
    /\ 0 <= loss /\ 0 <= loss_action.
Proof.
  apply ctr_giou_losses_nonnegative; try reflexivity; try discriminate; simpl; lra.
Defined.

(** ** The focal loss and its targets *)

Lemma one_hot_smoothed_length (C : Z) (smoothing : Q) (label : Z) :
  length (one_hot_smoothed C smoothing label) = Z.to_nat C.
Proof. unfold one_hot_smoothed. now rewrite length_map, length_seq. Qed.

Lemma one_hot_smoothed_nth (C : Z) (smoothing : Q) (label : Z) (k : nat) :
  (k < Z.to_nat C)%nat ->
  nth_error (one_hot_smoothed C smoothing label) k
  = Some ((if (Z.of_nat k =? label)%Z then 1 else 0) * (1 - smoothing)
          + smoothing / (inject_Z C + 1)).
Proof.
  intros Hk. unfold one_hot_smoothed. rewrite nth_error_map.
  rewrite nth_error_nth' with (d := 0%nat) by (now rewrite length_seq).
  now rewrite seq_nth.
Qed.

(** X8.  The classification target of a valid point has one entry per
    class.  For the background sentinel [C] no entry is hot: every entry is
    [smoothing / (C + 1)], so the background column of the one-hot encoding
    is dropped.  For a class index [label < C] the entry at [label], and
    only that one, is [1 - smoothing + smoothing / (C + 1)].  A label
    outside of [[0, C]] makes the encoding raise. *)
Theorem one_hot_target_rows (C : Z) (smoothing : Q) (label : Z) :
  (0 <= C)%Z ->
  (label = C ->
     exists row, one_hot_row C smoothing label = Ok row
       /\ length row = Z.to_nat C
       /\ Forall (fun x => x == smoothing / (inject_Z C + 1)) row)
  /\ ((0 <= label < C)%Z ->
      exists row, one_hot_row C smoothing label = Ok row
        /\ length row = Z.to_nat C
        /\ forall k x, nth_error row k = Some x ->
             (Z.of_nat k = label -> x == 1 - smoothing + smoothing / (inject_Z C + 1))
             /\ (Z.of_nat k <> label -> x == smoothing / (inject_Z C + 1)))
  /\ ((label < 0 \/ C < label)%Z ->
      one_hot_row C smoothing label
      = Err (RuntimeError "Class values must be smaller than num_classes.")).
Proof.
  intros HC. unfold one_hot_row, label_in_range. repeat split.
  - intros ->. rewrite (proj2 (Z.leb_le 0 C) HC), Z.leb_refl. simpl.
    eexists. split; [reflexivity|]. split; [apply one_hot_smoothed_length|].
    apply Forall_forall. intros x Hin. apply In_nth_error in Hin. destruct Hin as [k Hk].
    assert (Hlt : (k < Z.to_nat C)%nat).
    { rewrite <- (one_hot_smoothed_length C smoothing C). apply nth_error_Some. congruence. }
    rewrite (one_hot_smoothed_nth C smoothing C k Hlt) in Hk. injection Hk as <-.
    destruct (Z.eqb_spec (Z.of_nat k) C) as [E|E]; [lia|]. ring.
  - intros [Hlo Hhi].
    rewrite (proj2 (Z.leb_le 0 label) Hlo), (proj2 (Z.leb_le label C)) by lia. simpl.
    eexists. split; [reflexivity|]. split; [apply one_hot_smoothed_length|].
    intros k x Hk.
    assert (Hlt : (k < Z.to_nat C)%nat).
    { rewrite <- (one_hot_smoothed_length C smoothing label). apply nth_error_Some. congruence. }
    rewrite (one_hot_smoothed_nth C smoothing label k Hlt) in Hk. injection Hk as <-.
    destruct (Z.eqb_spec (Z.of_nat k) label) as [E|E]; split; intros E'; try contradiction; ring.
  - intros [H|H].
    + rewrite (proj2 (Z.leb_gt 0 label)) by lia. reflexivity.
    + rewrite (proj2 (Z.leb_gt label C)) by lia. now rewrite andb_false_r.
Qed.

Lemma one_hot_target_rows_witness :
  exists row, one_hot_row 97 0 97 = Ok row
    /\ length row = Z.to_nat 97
    /\ Forall (fun x => x == 0 / (inject_Z 97 + 1)) row.
Proof.
  apply (proj1 (one_hot_target_rows 97 0 97 ltac:(lia))). reflexivity.
Defined.

Lemma focal_elem_nonneg (K : kernels) (x t : Q) :
  kernels_in_range K -> 0 <= t -> t <= 1 -> 0 <= focal_elem K x t.
Proof.
  intros [Hs Hb] Ht0 Ht1. unfold focal_elem, focal_alpha. cbv zeta.
  destruct (Hs x) as [Hp0 Hp1]. pose proof (Hb x t Ht0 Ht1) as Hce.
  set (p := t_sigmoid K x) in *. set (ce := t_bce_with_logits K x t) in *.
  assert (Hsq : 0 <= (1 - (p * t + (1 - p) * (1 - t)))
                     * (1 - (p * t + (1 - p) * (1 - t))))
    by exact (square_nonneg (1 - (p * t + (1 - p) * (1 - t)))).
  assert (Ha : 0 <= (1 # 4) * t + (1 - (1 # 4)) * (1 - t)) by lra.
  apply Qmult_le_0_compat; [assumption|].
  apply Qmult_le_0_compat; assumption.
Qed.

(** X9.  With a sigmoid kernel valued in [[0, 1]] and a cross-entropy
    kernel that is non-negative on targets in [[0, 1]], the summed focal loss
    is non-negative on every table of logits whose targets lie in
    [[0, 1]]. *)
Theorem sigmoid_focal_loss_nonnegative (K : kernels) (inputs targets : list (list Q)) :
  kernels_in_range K ->
  Forall (Forall in_unit_interval) targets ->
  0 <= sigmoid_focal_loss K inputs targets.
Proof.
  intros HK HT. unfold sigmoid_focal_loss.
  apply qsum_nonneg, Forall_map, Forall_forall. intros [xr tr] Hin. simpl.
  apply in_combine_r in Hin. rewrite Forall_forall in HT. specialize (HT tr Hin).
  apply qsum_nonneg, Forall_map, Forall_forall. intros [x t] Hin'. simpl.
  apply in_combine_r in Hin'. rewrite Forall_forall in HT.
  destruct (HT t Hin') as [H0 H1]. now apply focal_elem_nonneg.
Qed.

Lemma sigmoid_focal_loss_nonnegative_witness :
  kernels_in_range probe_kernels
  /\ 0 <= sigmoid_focal_loss probe_kernels [[0; 1]; [2; 3]] [[1; 0]; [0; 1 # 2]].
Proof.
  assert (HK : kernels_in_range probe_kernels).
  { split; simpl; intros; lra. }
  split; [exact HK|].
  apply (sigmoid_focal_loss_nonnegative probe_kernels _ _ HK).
  repeat constructor; simpl; lra.
Defined.

(** ** The normaliser stays positive *)

Lemma update_normalizer_positive (st : model_state) (num_pos : nat) :
  0 < loss_normalizer st -> 0 < loss_normalizer (update_normalizer st num_pos).
Proof.
  intros H. unfold update_normalizer, loss_normalizer_momentum. simpl.
  assert (Hm : 1 <= Q_of_nat (Nat.max num_pos 1)).
  { unfold Q_of_nat. change 1 with (inject_Z 1). rewrite <- Zle_Qle. lia. }
  nra.
Qed.

Lemma losses_keep_normalizer_positive (K : kernels) (cfg : model_cfg) (args : cli_args)
  (o : stream_outputs) (g : batch_targets) (is_audio : bool) (st : model_state) :
  0 < loss_normalizer st ->
  0 < loss_normalizer (snd (losses K cfg args o g is_audio st)).
Proof.
  intros H. unfold losses. cbv zeta.
  destruct (positive_inputs _ _ _ _); simpl; [|assumption].
  now apply update_normalizer_positive.
Qed.

(** X10.  A training step keeps the normaliser positive, whatever its
    inputs and whether it returns or raises, so the division of the
    regression loss by the normaliser never divides by zero once the
    initial value is positive. *)
Theorem training_step_keeps_normalizer_positive (K : kernels) (cfg : model_cfg)
  (args : cli_args) (points : list (list point)) (gt_segments : list (list segment))
  (gt_labels_v gt_labels_n : list (list Z)) (visual audio : stream_outputs)
  (st : model_state) :
  0 < loss_normalizer st ->
  0 < loss_normalizer
        (snd (forward_train K cfg args points gt_segments gt_labels_v gt_labels_n
                visual audio st)).
Proof.
  intros H. unfold forward_train.
  destruct (label_points cfg args points gt_segments gt_labels_v gt_labels_n)
    as [g|e]; [|assumption].
  pose proof (losses_keep_normalizer_positive K cfg args visual g false st H) as H1.
  destruct (losses K cfg args visual g false st) as [[dv|e] st1]; [|assumption].
  simpl in H1.
  pose proof (losses_keep_normalizer_positive K cfg args audio g true st1 H1) as H2.
  destruct (losses K cfg args audio g true st1) as [[da|e] st2]; assumption.
Qed.

Lemma training_step_keeps_normalizer_positive_witness :
  0 < loss_normalizer (mkState 100)
  /\ 0 < loss_normalizer
           (snd (forward_train probe_kernels cfg_none args_default points_2304
                   batch_segments batch_labels batch_labels
                   (visual_stream 2) (audio_stream 2) (mkState 100))).
Proof.
  assert (H : 0 < loss_normalizer (mkState 100)) by reflexivity.
  split; [exact H|].
  exact (training_step_keeps_normalizer_positive probe_kernels cfg_none args_default
           points_2304 batch_segments batch_labels batch_labels
           (visual_stream 2) (audio_stream 2) (mkState 100) H).
Defined.

(** * Further properties of the decoder *)

Lemma insert_desc_sorted (x : Q * nat) (l : list (Q * nat)) :
  StronglySorted (fun a b => fst b <= fst a) l ->
  StronglySorted (fun a b => fst b <= fst a) (insert_desc x l).
Proof.
  induction 1 as [|y l Hs IH Hy]; simpl.
  - constructor; constructor.
  - destruct (Qle_bool (fst y) (fst x)) eqn:E.
    + apply Qle_bool_iff in E. constructor; [now constructor|].
      constructor; [assumption|].
      rewrite Forall_forall in *. intros z Hz. specialize (Hy z Hz). lra.
    + assert (Hlt : fst x <= fst y).
      { destruct (Qlt_le_dec (fst x) (fst y)) as [H|H]; [lra|].
        apply Qle_bool_iff in H. congruence. }
      constructor; [assumption|].
      apply Forall_forall. intros z Hz. apply insert_desc_In in Hz.
      destruct Hz as [->|Hz]; [assumption|].
      rewrite Forall_forall in Hy. now apply Hy.
Qed.

Lemma sort_desc_sorted (v : list Q) :
  StronglySorted (fun a b => fst b <= fst a) (sort_desc v).
Proof.
  unfold sort_desc. generalize (combine v (seq 0 (length v))).
  induction l as [|x l IH]; simpl; [constructor|now apply insert_desc_sorted].
Qed.

Lemma StronglySorted_firstn {A : Type} (R : A -> A -> Prop) (n : nat) (l : list A) :
  StronglySorted R l -> StronglySorted R (firstn n l).
Proof.
  intros H. revert n. induction H as [|x l Hs IH Hx]; intros [|n]; simpl; try constructor.
  - apply IH.
  - rewrite Forall_forall in *. intros y Hy. apply Hx. now apply in_firstn in Hy.
Qed.

Lemma StronglySorted_map_filter {A : Type} (f : A -> Q) (keep : A -> bool) (l : list A) :
  descending (map f l) -> descending (map f (filter keep l)).
Proof.
  unfold descending. induction l as [|x l IH]; simpl; intros H; [constructor|].
  apply StronglySorted_inv in H. destruct H as [Hs Hx].
  destruct (keep x); simpl; [|now apply IH].
  constructor; [now apply IH|].
  rewrite Forall_forall in *. intros y Hy. apply Hx.
  apply in_map_iff in Hy. destruct Hy as [z [<- Hz]].
  apply filter_In in Hz. apply in_map. tauto.
Qed.

(** The selection keeps at most [pre_nms_topk] scores, all above the
    squared threshold, in descending order. *)
Lemma select_topk_spec (cfg : model_cfg) (pred_prob : list Q) (sel : list (Q * nat)) :
  select_topk cfg pred_prob = Ok sel ->
  (length sel <= test_pre_nms_topk cfg)%nat
  /\ descending (map fst sel)
  /\ Forall (fun si => test_pre_nms_thresh cfg * test_pre_nms_thresh cfg < fst si) sel.
Proof.
  unfold select_topk. cbv zeta. set (kept := filter _ _). intros H.
  pose proof (mapM_length _ _ _ H) as Hlen.
  apply mapM_inv in H.
  set (sorted := firstn _ (sort_desc (map fst kept))) in *.
  assert (Hfst : map fst sel = map fst sorted).
  { clear Hlen. induction H as [|[x k] [y i] l l' Hxy HF IH]; [reflexivity|].
    simpl. rewrite IH. f_equal.
    unfold index in Hxy. destruct (nth_error (map snd kept) (snd (x, k))); [|discriminate].
    simpl in Hxy. now injection Hxy as <- _. }
  split; [|split].
  - rewrite Hlen. subst sorted. rewrite length_firstn. lia.
  - unfold descending. rewrite Hfst. subst sorted.
    assert (Hs : StronglySorted (fun a b => fst b <= fst a)
                   (firstn (Nat.min (test_pre_nms_topk cfg) (length (map snd kept)))
                      (sort_desc (map fst kept))))
      by apply StronglySorted_firstn, sort_desc_sorted.
    revert Hs. generalize (firstn (Nat.min (test_pre_nms_topk cfg) (length (map snd kept)))
                              (sort_desc (map fst kept))).
    induction 1 as [|a l Hs IH Ha]; simpl; constructor; [assumption|].
    apply Forall_map. exact Ha.
  - assert (Hall : Forall (fun q => test_pre_nms_thresh cfg * test_pre_nms_thresh cfg < q)
                     (map fst sel)).
    { rewrite Hfst. apply Forall_map, Forall_forall. intros [x k] Hin.
      subst sorted. apply in_firstn, sort_desc_In in Hin. simpl in Hin.
      rewrite nth_error_map in Hin.
      destruct (nth_error kept k) as [[x' i]|] eqn:Hk; [|discriminate].
      simpl in Hin. injection Hin as ->.
      apply nth_error_In in Hk. subst kept. apply filter_In in Hk.
      destruct Hk as [_ Hk]. simpl in Hk. simpl. now apply Qlt_bool_iff in Hk. }
    exact (proj1 (Forall_map _ _ _) Hall).
Qed.

(** What [decode_entry] stores in a row. *)
Lemma decode_entry_fields (pts_i : list point) (offsets_i : list (Q * Q))
  (nl vl : list (list Z)) (si : Q * nat) (d : detection) :
  decode_entry pts_i offsets_i nl vl si = Ok d ->
  det_score d = fst si
  /\ exists p offsets,
       nth_error pts_i (det_pt d) = Some p
       /\ nth_error offsets_i (det_pt d) = Some offsets
       /\ det_seg d = pred_seg p offsets.
Proof.
  unfold decode_entry. cbv zeta. intros H.
  destruct (index2 _ nl _ _) as [ln|]; [|discriminate]. rewrite bind_ok in H.
  destruct (index2 _ vl _ _) as [lv|]; [|discriminate]. rewrite bind_ok in H.
  unfold index in H.
  destruct (nth_error offsets_i _) as [off|] eqn:Ho; [|discriminate]. rewrite bind_ok in H.
  destruct (nth_error pts_i _) as [p|] eqn:Hp; [|discriminate]. rewrite bind_ok in H.
  injection H as <-. simpl. split; [reflexivity|].
  exists p, off. repeat split; assumption.
Qed.

Lemma at2_topk_scores (k : nat) (t : list (list Q)) (mask_i : list bool)
  (i j : nat) (x : Q) :
  at2 (topk_scores k t mask_i) i j = Some x ->
  exists m s, nth_error mask_i i = Some m /\ x = s * mask_q m.
Proof.
  unfold at2, topk_scores. rewrite nth_error_map, nth_error_combine.
  destruct (nth_error t i) as [row|]; [|discriminate].
  destruct (nth_error mask_i i) as [m|]; [|discriminate].
  simpl. rewrite nth_error_map.
  destruct (nth_error (firstn k row) j) as [s|]; [|discriminate].
  simpl. intros H. injection H as <-. now exists m, s.
Qed.

(** The candidates of a level, with what the selection and the index
    arithmetic establish about them. *)
Lemma decode_level_ok (cfg : model_cfg) (pts_i : list point)
  (mask_i : list bool) (cls_verb_score : list (list Q)) (cls_verb_label : list (list Z))
  (cls_noun_score : list (list Q)) (cls_noun_label : list (list Z))
  (offsets_i : list (Q * Q)) :
  length mask_i = length pts_i ->
  length cls_verb_score = length pts_i -> length cls_verb_label = length pts_i ->
  length cls_noun_score = length pts_i -> length cls_noun_label = length pts_i ->
  length offsets_i = length pts_i ->
  Forall (fun r => (verb_topk <= length r)%nat) cls_verb_score ->
  Forall (fun r => (verb_topk <= length r)%nat) cls_verb_label ->
  Forall (fun r => (noun_topk <= length r)%nat) cls_noun_score ->
  Forall (fun r => (noun_topk <= length r)%nat) cls_noun_label ->
  exists sel dets,
    select_topk cfg
      (flatten3 (mul_cls_score (topk_scores noun_topk cls_noun_score mask_i)
                               (topk_scores verb_topk cls_verb_score mask_i))) = Ok sel
    /\ mapM (decode_entry pts_i offsets_i
               (topk_labels noun_topk cls_noun_label mask_i)
               (topk_labels verb_topk cls_verb_label mask_i)) sel = Ok dets
    /\ decode_level cfg pts_i mask_i cls_verb_score cls_verb_label
         cls_noun_score cls_noun_label offsets_i
       = Ok (filter (fun d => Qlt_bool (test_duration_thresh cfg)
                                       (snd (det_seg d) - fst (det_seg d))) dets)
    /\ Forall (addresses_selected_score
                 (topk_scores noun_topk cls_noun_score mask_i)
                 (topk_scores verb_topk cls_verb_score mask_i)
                 (topk_labels noun_topk cls_noun_label mask_i)
                 (topk_labels verb_topk cls_verb_label mask_i)) dets.
Proof.
  intros Hm Hvs Hvl Hns Hnl Hoff Fvs Fvl Fns Fnl.
  unfold decode_level. cbv zeta.
  set (vs := topk_scores verb_topk cls_verb_score mask_i).
  set (vl := topk_labels verb_topk cls_verb_label mask_i).
  set (ns := topk_scores noun_topk cls_noun_score mask_i).
  set (nl := topk_labels noun_topk cls_noun_label mask_i).
  destruct (select_topk_ok cfg (flatten3 (mul_cls_score ns vs))) as [sel [Hsel HF]].
  destruct (mapM_ok_Forall (decode_entry pts_i offsets_i nl vl)
              (addresses_selected_score ns vs nl vl) sel) as [dets [Hd HFd]].
  { intros si Hin. rewrite Forall_forall in HF.
    apply decode_entry_ok; try (apply HF; exact Hin).
    - subst ns. rewrite topk_scores_length; congruence.
    - subst nl. rewrite topk_labels_length; congruence.
    - subst vl. rewrite topk_labels_length; congruence.
    - exact Hoff.
    - now apply topk_scores_rows.
    - now apply topk_scores_rows.
    - now apply topk_labels_rows.
    - now apply topk_labels_rows. }
  exists sel, dets. rewrite Hsel, bind_ok, Hd, bind_ok. tauto.
Qed.

Lemma mapM_decode_scores (pts_i : list point) (offsets_i : list (Q * Q))
  (nl vl : list (list Z)) (sel : list (Q * nat)) (dets : list detection) :
  mapM (decode_entry pts_i offsets_i nl vl) sel = Ok dets ->
  map det_score dets = map fst sel.
Proof.
  intros H. apply mapM_inv in H.
  induction H as [|si d l l' Hd HF IH]; [reflexivity|].
  simpl. rewrite IH. f_equal. now destruct (decode_entry_fields _ _ _ _ _ _ Hd).
Qed.

(** X11.  Under the shape conditions of the decoder, every candidate kept
    for a level has a score above [pre_nms_thresh^2] and a duration above
    [duration_thresh], and sits on a point whose validity mask is set:
    padded points never give a detection. *)
Theorem decoded_candidates_pass_filters (cfg : model_cfg) (pts_i : list point)
  (mask_i : list bool) (cls_verb_score : list (list Q)) (cls_verb_label : list (list Z))
  (cls_noun_score : list (list Q)) (cls_noun_label : list (list Z))
  (offsets_i : list (Q * Q)) :
  length mask_i = length pts_i ->
  length cls_verb_score = length pts_i -> length cls_verb_label = length pts_i ->
  length cls_noun_score = length pts_i -> length cls_noun_label = length pts_i ->
  length offsets_i = length pts_i ->
  Forall (fun r => (verb_topk <= length r)%nat) cls_verb_score ->
  Forall (fun r => (verb_topk <= length r)%nat) cls_verb_label ->
  Forall (fun r => (noun_topk <= length r)%nat) cls_noun_score ->
  Forall (fun r => (noun_topk <= length r)%nat) cls_noun_label ->
  exists dets,
    decode_level cfg pts_i mask_i cls_verb_score cls_verb_label
      cls_noun_score cls_noun_label offsets_i = Ok dets
    /\ Forall (fun d =>
                 test_pre_nms_thresh cfg * test_pre_nms_thresh cfg < det_score d
                 /\ test_duration_thresh cfg < snd (det_seg d) - fst (det_seg d)
                 /\ nth_error mask_i (det_pt d) = Some true)
              dets.
Proof.
  intros Hm Hvs Hvl Hns Hnl Hoff Fvs Fvl Fns Fnl.
  destruct (decode_level_ok cfg pts_i mask_i cls_verb_score cls_verb_label
              cls_noun_score cls_noun_label offsets_i)
    as (sel & dets & Hsel & Hd & Hret & Haddr); try assumption.
  eexists. split; [exact Hret|].
  destruct (select_topk_spec cfg _ sel Hsel) as (_ & _ & Hth).
  pose proof (mapM_decode_scores _ _ _ _ _ _ Hd) as Hsc.
  assert (Hth' : Forall (fun d => test_pre_nms_thresh cfg * test_pre_nms_thresh cfg
                                  < det_score d) dets).
  { apply (proj1 (Forall_map det_score
                    (fun q => test_pre_nms_thresh cfg * test_pre_nms_thresh cfg < q) dets)).
    rewrite Hsc. apply Forall_map. exact Hth. }
  apply Forall_forall. intros d Hin. apply filter_In in Hin. destruct Hin as [Hin Hdur].
  rewrite Forall_forall in Hth', Haddr.
  pose proof (Hth' d Hin) as Hs. split; [exact Hs|].
  split; [now apply Qlt_bool_iff in Hdur|].
  destruct (Haddr d Hin) as (_ & _ & _ & _ & _ & _ & _ & (n_s & v_s & Hn & _ & Hprod) & _).
  destruct (at2_topk_scores _ _ _ _ _ _ Hn) as (m & s & Hmask & Hns').
  rewrite Hmask. destruct m; [reflexivity|]. exfalso.
  rewrite Hprod, Hns' in Hs. simpl in Hs.
  assert (H0 : 0 <= test_pre_nms_thresh cfg * test_pre_nms_thresh cfg)
    by exact (square_nonneg (test_pre_nms_thresh cfg)).
  assert (Hz : s * 0 * v_s == 0) by ring. lra.
Qed.

Lemma decoded_candidates_pass_filters_witness :
  exists dets,
    decode_level cfg_none decode_pts decode_mask decode_verb_score decode_verb_label
      decode_noun_score decode_noun_label decode_offsets = Ok dets
    /\ Forall (fun d =>
                 test_pre_nms_thresh cfg_none * test_pre_nms_thresh cfg_none < det_score d
                 /\ test_duration_thresh cfg_none < snd (det_seg d) - fst (det_seg d)
                 /\ nth_error decode_mask (det_pt d) = Some true)
              dets.
Proof.
  apply decoded_candidates_pass_filters; try reflexivity;
    repeat (constructor; try (vm_compute; discriminate)).
Defined.

(** X12.  Under the same conditions a level yields at most [pre_nms_topk]
    candidates, and their scores are in descending order. *)
Theorem decoded_candidates_sorted_and_bounded (cfg : model_cfg) (pts_i : list point)
  (mask_i : list bool) (cls_verb_score : list (list Q)) (cls_verb_label : list (list Z))
  (cls_noun_score : list (list Q)) (cls_noun_label : list (list Z))
  (offsets_i : list (Q * Q)) :
  length mask_i = length pts_i ->
  length cls_verb_score = length pts_i -> length cls_verb_label = length pts_i ->
  length cls_noun_score = length pts_i -> length cls_noun_label = length pts_i ->
  length offsets_i = length pts_i ->
  Forall (fun r => (verb_topk <= length r)%nat) cls_verb_score ->
  Forall (fun r => (verb_topk <= length r)%nat) cls_verb_label ->
  Forall (fun r => (noun_topk <= length r)%nat) cls_noun_score ->
  Forall (fun r => (noun_topk <= length r)%nat) cls_noun_label ->
  exists dets,
    decode_level cfg pts_i mask_i cls_verb_score cls_verb_label
      cls_noun_score cls_noun_label offsets_i = Ok dets
    /\ (length dets <= test_pre_nms_topk cfg)%nat
    /\ descending (map det_score dets).
Proof.
  intros Hm Hvs Hvl Hns Hnl Hoff Fvs Fvl Fns Fnl.
  destruct (decode_level_ok cfg pts_i mask_i cls_verb_score cls_verb_label
              cls_noun_score cls_noun_label offsets_i)
    as (sel & dets & Hsel & Hd & Hret & _); try assumption.
  eexists. split; [exact Hret|].
  destruct (select_topk_spec cfg _ sel Hsel) as (Hlen & Hsorted & _).
  pose proof (mapM_decode_scores _ _ _ _ _ _ Hd) as Hsc.
  pose proof (mapM_length _ _ _ Hd) as Hl.
  split.
  - pose proof (filter_length_le
                  (fun d => Qlt_bool (test_duration_thresh cfg)
                                     (snd (det_seg d) - fst (det_seg d))) dets). lia.
  - apply StronglySorted_map_filter. now rewrite Hsc.
Qed.

Lemma decoded_candidates_sorted_and_bounded_witness :
  exists dets,
    decode_level cfg_none decode_pts decode_mask decode_verb_score decode_verb_label
      decode_noun_score decode_noun_label decode_offsets = Ok dets
    /\ (length dets <= test_pre_nms_topk cfg_none)%nat
    /\ descending (map det_score dets).
Proof.
  apply decoded_candidates_sorted_and_bounded; try reflexivity;
    repeat (constructor; try (vm_compute; discriminate)).
Defined.

(** ** From regression targets back to segments *)

Lemma assign_point_inv (cfg : model_cfg) (gts : list segment) (lv ln : list Z)
  (p : point) (v n : Z) (reg : Q * Q) :
  assign_point cfg gts lv ln p = Ok (v, n, reg) ->
  exists g,
    In g gts
    /\ reg = (left_dist p g / pt_stride p, right_dist p g / pt_stride p)
    /\ (v <> num_classes_verb cfg \/ n <> num_classes_noun cfg ->
        qualifies cfg p g = true).
Proof.
  unfold assign_point. intros H.
  destruct (masked_lens cfg p gts) as [|x r] eqn:Hm; [discriminate|].
  destruct (row_min_spec (x :: r)) as (m & j & Hrow & Hj & _); [discriminate|].
  rewrite Hrow, bind_ok in H. unfold index in H.
  destruct (nth_error lv j) as [v'|]; [|discriminate]. rewrite bind_ok in H.
  destruct (nth_error ln j) as [n'|]; [|discriminate]. rewrite bind_ok in H.
  destruct (nth_error gts j) as [g|] eqn:Hg; [|discriminate]. rewrite bind_ok in H.
  injection H as Hv Hn <-.
  exists g. split; [exact (nth_error_In _ _ Hg)|]. split; [reflexivity|].
  rewrite <- Hm, (masked_lens_nth cfg p gts j g Hg) in Hj. injection Hj as <-.
  destruct (qualifies cfg p g); [reflexivity|]. simpl in Hv, Hn. intros [E|E]; congruence.
Qed.

(** X13.  Decoding inverts the target assignment.  If the offsets that
    the decoder reads at a point are the regression target that the assigner
    computes for that point, and the stride of the point is not zero, the
    decoded segment is a ground-truth segment of the video, and it is one
    the point qualifies for whenever the class target is not background. *)
Theorem decoding_assigned_target_recovers_segment (cfg : model_cfg)
  (gts : list segment) (lv ln : list Z) (p : point) (v n : Z) (reg : Q * Q)
  (pts_i : list point) (offsets_i : list (Q * Q)) (nl vl : list (list Z))
  (si : Q * nat) (d : detection) :
  ~ pt_stride p == 0 ->
  assign_point cfg gts lv ln p = Ok (v, n, reg) ->
  decode_entry pts_i offsets_i nl vl si = Ok d ->
  nth_error pts_i (det_pt d) = Some p ->
  nth_error offsets_i (det_pt d) = Some reg ->
  exists g,
    In g gts
    /\ fst (det_seg d) == fst g /\ snd (det_seg d) == snd g
    /\ (v <> num_classes_verb cfg \/ n <> num_classes_noun cfg ->
        qualifies cfg p g = true).
Proof.
  intros Hs Ha Hd Hp Ho.
  destruct (assign_point_inv cfg gts lv ln p v n reg Ha) as (g & Hin & -> & Hq).
  destruct (decode_entry_fields _ _ _ _ _ _ Hd) as (_ & p' & off & Hp' & Ho' & Hseg).
  rewrite Hp in Hp'. injection Hp' as <-. rewrite Ho in Ho'. injection Ho' as <-.
  exists g. split; [exact Hin|]. rewrite Hseg. unfold pred_seg, left_dist, right_dist.
  simpl. repeat split; try assumption; field; assumption.
Qed.

Lemma decoding_assigned_target_recovers_segment_witness :
  exists g,
    In g [(2, 4)]
    /\ fst (det_seg (mkDet (1 # 2) 0 0 0 0 7 5 (3 - 1 / 1 * 1, 3 + 1 / 1 * 1))) == fst g
    /\ snd (det_seg (mkDet (1 # 2) 0 0 0 0 7 5 (3 - 1 / 1 * 1, 3 + 1 / 1 * 1))) == snd g.
Proof.
  destruct (decoding_assigned_target_recovers_segment cfg_none [(2, 4)] [1%Z] [1%Z]
              (mkPoint 3 0 8 1) 1%Z 1%Z
              (left_dist (mkPoint 3 0 8 1) (2, 4) / 1, right_dist (mkPoint 3 0 8 1) (2, 4) / 1)
              [mkPoint 3 0 8 1]
              [(left_dist (mkPoint 3 0 8 1) (2, 4) / 1, right_dist (mkPoint 3 0 8 1) (2, 4) / 1)]
              [repeat 7%Z 33] [repeat 5%Z 11]
              (1 # 2, 0%nat)
              (mkDet (1 # 2) 0 0 0 0 7 5
                 (pred_seg (mkPoint 3 0 8 1)
                    (left_dist (mkPoint 3 0 8 1) (2, 4) / 1,
                     right_dist (mkPoint 3 0 8 1) (2, 4) / 1))))
    as (g & Hin & Hl & Hr & _).
  - simpl. discriminate.
  - reflexivity.
  - reflexivity.
  - reflexivity.
  - reflexivity.
  - exists g. split; [exact Hin|]. split; [exact Hl|exact Hr].
Defined.

(** * Post-processing *)

Lemma truncate_boundary_clamp (vlen x y : Q) :
  0 <= vlen -> y == x -> truncate_boundary vlen y == clamp_to_duration vlen x.
Proof.
  intros Hv Hxy. unfold truncate_boundary, clamp_to_duration. cbv zeta.
  destruct (Qle_bool y 0) eqn:E1.
  - apply Qle_bool_iff in E1.
    destruct (Qle_bool vlen (y * 0)) eqn:E2.
    + apply Qle_bool_iff in E2. minmax; lra.
    + assert (H : y * 0 < vlen).
      { apply Qnot_le_lt. intros H. apply Qle_bool_iff in H. congruence. }
      minmax; lra.
  - assert (H1 : 0 < y).
    { apply Qnot_le_lt. intros H. apply Qle_bool_iff in H. congruence. }
    destruct (Qle_bool vlen y) eqn:E2.
    + apply Qle_bool_iff in E2. minmax; lra.
    + assert (H : y < vlen).
      { apply Qnot_le_lt. intros H. apply Qle_bool_iff in H. congruence. }
      minmax; lra.
Qed.

Lemma clamp_to_duration_bounds (vlen x : Q) :
  0 <= vlen -> 0 <= clamp_to_duration vlen x /\ clamp_to_duration vlen x <= vlen.
Proof. intros H. unfold clamp_to_duration. minmax; lra. Qed.

Lemma clamp_to_duration_monotone (vlen x y : Q) :
  x <= y -> clamp_to_duration vlen x <= clamp_to_duration vlen y.
Proof. intros H. unfold clamp_to_duration. minmax; lra. Qed.

Lemma to_seconds_monotone (stride nframes fps x y : Q) :
  0 < fps -> 0 <= stride -> x <= y ->
  to_seconds stride nframes fps x <= to_seconds stride nframes fps y.
Proof.
  intros Hf Hs Hxy. unfold to_seconds.
  apply Qle_shift_div_l; [assumption|].
  assert (H : (x * stride + (1 # 2) * nframes) / fps * fps
              == x * stride + (1 # 2) * nframes) by (field; lra).
  rewrite H. nra.
Qed.

Lemma out_segments_postprocess (m : nms_method) (nms : nms_fun) (r : video_result) :
  out_segments (postprocess_video m nms r)
  = map (fun s =>
           (truncate_boundary (res_duration r)
              (to_seconds (res_feat_stride r) (res_feat_num_frames r) (res_fps r) (fst s)),
            truncate_boundary (res_duration r)
              (to_seconds (res_feat_stride r) (res_feat_num_frames r) (res_fps r) (snd s))))
        (fst (fst (fst (suppressed m nms r)))).
Proof.
  unfold postprocess_video, suppressed.
  destruct m;
    try (destruct (nms _ (res_segments r) (res_scores r) (res_labels_verb r)
                     (res_labels_noun r)) as [[[segs sc] lv] ln]);
    cbv zeta; simpl.
  1, 2: destruct segs; reflexivity.
  destruct (res_segments r); reflexivity.
Qed.

Lemma converted_segments_within_duration (stride nframes fps vlen : Q)
  (segs : list (Q * Q)) :
  0 < fps -> 0 <= stride -> 0 <= vlen ->
  let conv x := truncate_boundary vlen (to_seconds stride nframes fps x) in
  Forall (fun s => (0 <= fst s /\ fst s <= vlen) /\ (0 <= snd s /\ snd s <= vlen))
         (map (fun s => (conv (fst s), conv (snd s))) segs)
  /\ (Forall (fun s => fst s <= snd s) segs ->
      Forall (fun s => fst s <= snd s)
             (map (fun s => (conv (fst s), conv (snd s))) segs)).
Proof.
  intros Hf Hs Hd. cbv zeta. split.
  - apply Forall_map, Forall_forall. intros s _. simpl.
    rewrite !(truncate_boundary_clamp vlen _ _ Hd (Qeq_refl _)).
    split; now apply clamp_to_duration_bounds.
  - intros H. apply Forall_map. rewrite Forall_forall in *. intros s Hin. simpl.
    rewrite !(truncate_boundary_clamp vlen _ _ Hd (Qeq_refl _)).
    apply clamp_to_duration_monotone, to_seconds_monotone; auto.
Qed.

Lemma postprocess_video_passes_labels (m : nms_method) (nms : nms_fun)
  (r : video_result) :
  out_scores (postprocess_video m nms r) = snd (fst (fst (suppressed m nms r)))
  /\ out_labels_verb (postprocess_video m nms r) = snd (fst (suppressed m nms r))
  /\ out_labels_noun (postprocess_video m nms r) = snd (suppressed m nms r).
Proof.
  unfold postprocess_video, suppressed.
  destruct m;
    try (destruct (nms _ (res_segments r) (res_scores r) (res_labels_verb r)
                     (res_labels_noun r)) as [[[segs sc] lv] ln]);
    repeat split; reflexivity.
Qed.

(** X14.  For a video with a positive frame rate, a non-negative feature
    stride and a non-negative duration, whatever the suppression returns:
    every boundary of every final segment lies in [[0, duration]], a segment
    that leaves the suppression with [start <= end] is returned with
    [start <= end], and no segment, score or label is added or dropped after
    the suppression. *)
Theorem postprocessed_segments_within_duration (m : nms_method) (nms : nms_fun)
  (r : video_result) :
  0 < res_fps r -> 0 <= res_feat_stride r -> 0 <= res_duration r ->
  let out := postprocess_video m nms r in
  let kept := suppressed m nms r in
  Forall (fun s => (0 <= fst s /\ fst s <= res_duration r)
                   /\ (0 <= snd s /\ snd s <= res_duration r)) (out_segments out)
  /\ (Forall (fun s => fst s <= snd s) (fst (fst (fst kept))) ->
      Forall (fun s => fst s <= snd s) (out_segments out))
  /\ length (out_segments out) = length (fst (fst (fst kept)))
  /\ out_scores out = snd (fst (fst kept))
  /\ out_labels_verb out = snd (fst kept)
  /\ out_labels_noun out = snd kept.
Proof.
  intros Hf Hs Hd. cbv zeta. rewrite out_segments_postprocess.
  destruct (converted_segments_within_duration
              (res_feat_stride r) (res_feat_num_frames r) (res_fps r)
              (res_duration r) (fst (fst (fst (suppressed m nms r)))) Hf Hs Hd)
    as [Hin Hord].
  destruct (postprocess_video_passes_labels m nms r) as (Hsc & Hlv & Hln).
  refine (conj Hin (conj Hord (conj _ (conj Hsc (conj Hlv Hln))))).
  apply length_map.
Qed.

Lemma postprocessed_segments_within_duration_witness :
  Forall (fun s => (0 <= fst s /\ fst s <= 10) /\ (0 <= snd s /\ snd s <= 10))
         (out_segments
            (postprocess_video NmsNone nms_nothing
               (mkResult [(-5, 3); (2, 400)] [1 # 2; 1 # 3] [1%Z; 2%Z] [3%Z; 4%Z]
                         30 10 16 32))).
Proof.
  apply (postprocessed_segments_within_duration NmsNone nms_nothing
           (mkResult [(-5, 3); (2, 400)] [1 # 2; 1 # 3] [1%Z; 2%Z] [3%Z; 4%Z]
                     30 10 16 32)); simpl; lra.
Defined.

(** X15.  Post-processing inverts the conversion of the dataset.  When
    the candidates are the feature-grid images of annotated segments (frame
    rate and feature stride not zero) and the suppression is switched off,
    the returned segments are the annotated ones, each boundary clamped to
    [[0, duration]]. *)
Theorem postprocessing_inverts_grid_conversion (nms : nms_fun)
  (fps num_frames feat_stride duration : Q)
  (annotations : list (Q * Q)) (scores : list Q) (labels_v labels_n : list Z) :
  ~ fps == 0 -> ~ feat_stride == 0 -> 0 <= duration ->
  Forall2 (fun a o => fst o == clamp_to_duration duration (fst a)
                      /\ snd o == clamp_to_duration duration (snd a))
    annotations
    (out_segments
       (postprocess_video NmsNone nms
          (mkResult
             (map (fun a => (to_feature_grid fps num_frames feat_stride (fst a),
                             to_feature_grid fps num_frames feat_stride (snd a)))
                  annotations)
             scores labels_v labels_n fps duration feat_stride num_frames))).
Proof.
  intros Hf Hs Hd. rewrite out_segments_postprocess. simpl. rewrite map_map.
  induction annotations as [|a l IH]; simpl; constructor; [|exact IH].
  simpl. split; apply (truncate_boundary_clamp duration _ _ Hd);
    unfold to_seconds, to_feature_grid; field; split; assumption.
Qed.

Lemma postprocessing_inverts_grid_conversion_witness :
  Forall2 (fun a o => fst o == clamp_to_duration 10 (fst a)
                      /\ snd o == clamp_to_duration 10 (snd a))
    [(1, 3); (8, 12)]
    (out_segments
       (postprocess_video NmsNone nms_nothing
          (mkResult
             (map (fun a => (to_feature_grid 30 32 16 (fst a),
                             to_feature_grid 30 32 16 (snd a)))
                  [(1, 3); (8, 12)])
             [1 # 2; 1 # 3] [1%Z; 2%Z] [3%Z; 4%Z] 30 10 16 32))).
Proof.
  apply (postprocessing_inverts_grid_conversion nms_nothing 30 32 16 10
           [(1, 3); (8, 12)] [1 # 2; 1 # 3] [1%Z; 2%Z] [3%Z; 4%Z]);
    intros H; vm_compute in H; discriminate.
Defined.

(** * Batching *)

Lemma mask_row_past (a b n : nat) :
  (b <= a)%nat -> map (fun t => (t <? b)%nat) (seq a n) = repeat false n.
Proof.
  revert a. induction n as [|n IH]; intros a H; [reflexivity|].
  simpl. rewrite IH by lia. f_equal. apply Nat.ltb_ge. lia.
Qed.

Lemma mask_row_from (a len n : nat) :
  (len <= n)%nat ->
  map (fun t => (t <? a + len)%nat) (seq a n)
  = repeat true len ++ repeat false (n - len).
Proof.
  revert a n. induction len as [|len IH]; intros a n H.
  - rewrite Nat.add_0_r, Nat.sub_0_r. apply mask_row_past. lia.
  - destruct n as [|n]; [lia|]. simpl.
    rewrite <- (IH (S a) n) by lia. f_equal.
    + apply Nat.ltb_lt. lia.
    + apply map_ext. intros t. f_equal. lia.
Qed.

Lemma mask_row_prefix (len n : nat) :
  (len <= n)%nat ->
  map (fun t => (t <? len)%nat) (seq 0 n) = repeat true len ++ repeat false (n - len).
Proof. intros H. exact (mask_row_from 0 len n H). Qed.

Lemma list_max_bound (l : list nat) (n : nat) :
  (list_max l <= n)%nat <-> Forall (fun k => (k <= n)%nat) l.
Proof. apply list_max_le. Qed.

Lemma mapM_copy_into_rectangular (C max_len : nat) (padding_val : Q)
  (feats : list (list (list Q))) :
  Forall (rectangular C) feats ->
  mapM (copy_into C max_len padding_val) feats
  = Ok (map (pad_feat padding_val max_len) feats).
Proof.
  induction 1 as [|f l [Hc _] _ IH]; [reflexivity|].
  simpl. unfold copy_into at 1. rewrite (proj2 (Nat.eqb_eq _ _) Hc).
  rewrite bind_ok, IH. reflexivity.
Qed.

(** X16.  Training batches.  For a non-empty batch of rectangular
    feature tensors with the same number of channels: when no video is
    longer than [max_seq_len] the call returns; every row of every returned
    tensor has length [max_seq_len], starts with the row of the input and
    continues with the padding value only; the mask of a video of length [T]
    is [T] times true followed by [max_seq_len - T] times false.  When some
    video is longer, the call raises the assertion error instead. *)
Theorem preprocessing_training_pads_to_max_seq_len (max_seq_len : nat)
  (max_div_factor : positive) (padding_val : Q)
  (feat0 : list (list Q)) (rest : list (list (list Q))) :
  Forall (rectangular (length feat0)) (feat0 :: rest) ->
  let feats := feat0 :: rest in
  (Forall (fun f => (feat_len f <= max_seq_len)%nat) feats ->
   exists inputs masks,
     preprocessing true max_seq_len max_div_factor padding_val feats
     = Ok (inputs, masks)
     /\ Forall2 (fun f out =>
                   Forall2 (fun row orow =>
                              length orow = max_seq_len
                              /\ orow = row ++ repeat padding_val
                                                 (max_seq_len - feat_len f))
                           f out)
                feats inputs
     /\ Forall2 (fun f mask =>
                   mask = repeat true (feat_len f)
                          ++ repeat false (max_seq_len - feat_len f))
                feats masks)
  /\ (Exists (fun f => (max_seq_len < feat_len f)%nat) feats ->
      preprocessing true max_seq_len max_div_factor padding_val feats
      = Err (AssertionError
               "Input length must be smaller than max_seq_len during training")).
Proof.
  intros Hrect feats. split.
  - intros Hlen.
    exists (map (pad_feat padding_val max_seq_len) feats),
           (batched_masks max_seq_len (map feat_len feats)).
    split; [|split].
    + unfold preprocessing, feats.
      assert (Hm : (list_max (map feat_len (feat0 :: rest)) <=? max_seq_len)%nat = true).
      { apply Nat.leb_le, list_max_bound, Forall_map. exact Hlen. }
      rewrite Hm, (mapM_copy_into_rectangular _ _ _ _ Hrect), bind_ok.
      reflexivity.
    + clear -Hrect Hlen. subst feats.
      generalize dependent (length feat0). intros C Hrect.
      induction Hrect as [|f l [_ Hrows] _ IH]; simpl; constructor.
      * apply Forall_inv in Hlen. unfold pad_feat.
        remember (feat_len f) as T eqn:HT. clear HT.
        induction Hrows as [|row rows Hr _ IHr]; simpl; constructor; auto.
        rewrite Hr. split; [|reflexivity].
        rewrite length_app, repeat_length. lia.
      * apply IH. now apply Forall_inv_tail in Hlen.
    + clear -Hlen. unfold batched_masks. rewrite map_map.
      induction Hlen as [|f l Hf _ IH]; simpl; constructor; auto.
      now apply mask_row_prefix.
  - intros Hex. unfold preprocessing, feats.
    assert (Hm : (list_max (map feat_len (feat0 :: rest)) <=? max_seq_len)%nat = false).
    { apply Nat.leb_gt. apply Nat.nle_gt. intros Hle.
      apply list_max_bound in Hle.
      pose proof (proj1 (Forall_map _ _ _) Hle) as Hall.
      apply Exists_exists in Hex. destruct Hex as (f & Hin & Hf).
      rewrite Forall_forall in Hall. specialize (Hall f Hin). simpl in Hall. lia. }
    now rewrite Hm.
Qed.

Lemma preprocessing_training_pads_to_max_seq_len_witness :
  (Forall (fun f => (feat_len f <= 4)%nat) [[[1; 2]; [3; 4]]; [[5; 6; 7]; [8; 9; 10]]] ->
   exists inputs masks,
     preprocessing true 4 32 0 [[[1; 2]; [3; 4]]; [[5; 6; 7]; [8; 9; 10]]]
     = Ok (inputs, masks)
     /\ Forall2 (fun f out =>
                   Forall2 (fun row orow =>
                              length orow = 4%nat
                              /\ orow = row ++ repeat 0 (4 - feat_len f))
                           f out)
                [[[1; 2]; [3; 4]]; [[5; 6; 7]; [8; 9; 10]]] inputs
     /\ Forall2 (fun f mask =>
                   mask = repeat true (feat_len f) ++ repeat false (4 - feat_len f))
                [[[1; 2]; [3; 4]]; [[5; 6; 7]; [8; 9; 10]]] masks)
  /\ (Exists (fun f => (4 < feat_len f)%nat) [[[1; 2]; [3; 4]]; [[5; 6; 7]; [8; 9; 10]]] ->
      preprocessing true 4 32 0 [[[1; 2]; [3; 4]]; [[5; 6; 7]; [8; 9; 10]]]
      = Err (AssertionError
               "Input length must be smaller than max_seq_len during training")).
Proof.
  apply (preprocessing_training_pads_to_max_seq_len 4 32 0
           [[1; 2]; [3; 4]] [[[5; 6; 7]; [8; 9; 10]]]).
  repeat constructor.
Defined.

Lemma round_up_to_multiple (n s : nat) :
  (0 < s)%nat ->
  let m := ((n + (s - 1)) / s * s)%nat in
  (n <= m /\ m < n + s /\ m mod s = 0)%nat.
Proof.
  intros Hs m. subst m.
  pose proof (Nat.div_mod_eq (n + (s - 1)) s) as Hdm.
  pose proof (Nat.mod_upper_bound (n + (s - 1)) s ltac:(lia)) as Hub.
  split; [|split].
  - nia.
  - nia.
  - apply Nat.Div0.mod_mul.
Qed.

(** X17.  Inference batches.  A batch of one video always returns: the
    tensor is padded with the padding value on the right to a length [L] that
    is at least the length [T] of the video, equal to [max_seq_len] when the
    video fits, and otherwise the least multiple of [max_div_factor] that is
    at least [T]; the mask is [T] times true followed by false.  A batch of
    two or more videos raises the assertion error. *)
Theorem preprocessing_inference_padded_length (max_seq_len : nat)
  (max_div_factor : positive) (padding_val : Q) (feat : list (list Q))
  (more : list (list (list Q))) :
  let T := feat_len feat in
  (exists L,
     preprocessing false max_seq_len max_div_factor padding_val [feat]
     = Ok ([pad_feat padding_val L feat],
           [repeat true T ++ repeat false (L - T)])
     /\ (T <= L)%nat
     /\ ((T <= max_seq_len)%nat -> L = max_seq_len)
     /\ ((max_seq_len < T)%nat ->
         (L mod Pos.to_nat max_div_factor = 0)%nat
         /\ (L < T + Pos.to_nat max_div_factor)%nat))
  /\ (more <> [] ->
      preprocessing false max_seq_len max_div_factor padding_val (feat :: more)
      = Err (AssertionError "Only support batch_size = 1 during inference")).
Proof.
  intros T. split.
  - unfold preprocessing. cbn [length Nat.eqb map list_max fold_right].
    rewrite Nat.max_0_r. fold T.
    destruct (T <=? max_seq_len)%nat eqn:E.
    + apply Nat.leb_le in E. exists max_seq_len.
      unfold batched_masks. cbn [map]. rewrite (mask_row_prefix _ _ E).
      repeat split; auto; lia.
    + apply Nat.leb_gt in E. cbv zeta.
      pose proof (round_up_to_multiple T (Pos.to_nat max_div_factor)
                    (Pos2Nat.is_pos _)) as H.
      cbv zeta in H. destruct H as (H1 & H2 & H3).
      exists ((T + (Pos.to_nat max_div_factor - 1)) / Pos.to_nat max_div_factor
              * Pos.to_nat max_div_factor)%nat.
      unfold batched_masks. cbn [map]. rewrite (mask_row_prefix _ _ H1).
      repeat split; auto; lia.
  - intros Hne. unfold preprocessing. destruct more as [|f l]; [congruence|].
    reflexivity.
Qed.

Lemma preprocessing_inference_padded_length_witness :
  preprocessing false 4 2 0 ([[1; 2; 3; 4; 5]] :: [[[1; 2; 3; 4; 5]]])
  = Err (AssertionError "Only support batch_size = 1 during inference").
Proof.
  apply (proj2 (preprocessing_inference_padded_length 4 2 0 [[1; 2; 3; 4; 5]]
                  [[[1; 2; 3; 4; 5]]])).
  discriminate.
Defined.

(** * Overlap of two intervals *)

(** X18.  For two intervals of positive length, [iou_with_anchors] is a
    number in [[0, 1]], does not depend on the order of the two intervals, is
    1 exactly when the intervals are equal and 0 exactly when they do not
    overlap on an interval of positive length. *)
Theorem iou_with_anchors_range (anchors_min anchors_max box_min box_max : Q) :
  anchors_min < anchors_max -> box_min < box_max ->
  let iou := iou_with_anchors anchors_min anchors_max box_min box_max in
  (0 <= iou /\ iou <= 1)
  /\ iou == iou_with_anchors box_min box_max anchors_min anchors_max
  /\ (iou == 1 <-> anchors_min == box_min /\ anchors_max == box_max)
  /\ (iou == 0 <-> anchors_max <= box_min \/ box_max <= anchors_min).
Proof.
  intros Ha Hb. cbv zeta. unfold iou_with_anchors. cbv zeta.
  set (I := qmax (qmin anchors_max box_max - qmax anchors_min box_min) 0).
  set (I' := qmax (qmin box_max anchors_max - qmax box_min anchors_min) 0).
  set (U := anchors_max - anchors_min + (box_max - box_min) - I).
  set (U' := box_max - box_min + (anchors_max - anchors_min) - I').
  assert (HII : I == I') by (unfold I, I'; minmax; lra).
  assert (HI0 : 0 <= I) by (unfold I; minmax; lra).
  assert (HIa : I <= anchors_max - anchors_min) by (unfold I; minmax; lra).
  assert (HIb : I <= box_max - box_min) by (unfold I; minmax; lra).
  assert (HU : 0 < U) by (unfold U; lra).
  assert (HUU : U == U') by (unfold U, U'; lra).
  assert (Hmul : I / U * U == I) by (field; lra).
  split; [split|split; [|split]].
  - apply Qle_shift_div_l; [assumption|lra].
  - apply Qle_shift_div_r; [assumption|unfold U; lra].
  - rewrite <- HII, <- HUU. reflexivity.
  - split.
    + intros H1. assert (HIU : I == U) by (rewrite <- Hmul, H1; ring).
      unfold U in HIU. revert HIU HIa HIb. unfold I. minmax; lra.
    + intros [H1 H2]. assert (HIU : I == U).
      { unfold U, I. minmax; lra. }
      rewrite HIU. field. lra.
  - split.
    + intros H0. assert (HIz : I == 0) by (rewrite <- Hmul, H0; ring).
      revert HIz. unfold I. minmax; lra.
    + intros H. assert (HIz : I == 0) by (unfold I; minmax; lra).
      rewrite HIz. field. lra.
Qed.

Lemma iou_with_anchors_range_witness :
  iou_with_anchors 0 2 1 3 == 1 # 3
  /\ (0 <= iou_with_anchors 0 2 1 3 /\ iou_with_anchors 0 2 1 3 <= 1).
Proof.
  split; [reflexivity|].
  apply (iou_with_anchors_range 0 2 1 3); reflexivity.
Defined.

(** * Dataset helpers *)

Lemma in_class_range (num_classes : nat) (id : Z) :
  In id (map Z.of_nat (seq 0 num_classes))
  <-> (0 <= id < Z.of_nat num_classes)%Z.
Proof.
  rewrite in_map_iff. split.
  - intros (k & <- & Hk). apply in_seq in Hk. lia.
  - intros H. exists (Z.to_nat id). split; [lia|]. apply in_seq. lia.
Qed.

Lemma not_used_iff (id : Z) (label_ids : list Z) :
  negb (existsb (Z.eqb id) label_ids) = true <-> ~ In id label_ids.
Proof.
  rewrite negb_true_iff. split.
  - intros H Hin. assert (Ht : existsb (Z.eqb id) label_ids = true).
    { apply existsb_exists. exists id. split; [assumption|apply Z.eqb_refl]. }
    congruence.
  - intros H. destruct (existsb (Z.eqb id) label_ids) eqn:E; [|reflexivity].
    apply existsb_exists in E. destruct E as (x & Hin & Hx).
    apply Z.eqb_eq in Hx. subst x. contradiction.
Qed.

Lemma filter_range_sorted (f : Z -> bool) (a n : nat) :
  StronglySorted Z.lt (filter f (map Z.of_nat (seq a n))).
Proof.
  revert a. induction n as [|n IH]; intros a; [constructor|].
  simpl. destruct (f (Z.of_nat a)).
  - constructor; [apply IH|].
    apply Forall_forall. intros x Hx. apply filter_In in Hx. destruct Hx as [Hx _].
    apply in_map_iff in Hx. destruct Hx as (k & <- & Hk). apply in_seq in Hk. lia.
  - apply IH.
Qed.

(** X19.  [find_empty_cls] never reports a class that has a sample or
    an id outside of [[0, num_classes)].  When the ids of the dictionary are
    pairwise distinct and all in [[0, num_classes)], it reports exactly the
    classes without a sample, in increasing order: the shortcut taken when
    the dictionary has [num_classes] entries loses nothing. *)
Theorem find_empty_cls_exact (label_dict : list (string * Z)) (num_classes : nat) :
  let label_ids := map snd label_dict in
  (forall id, In id (find_empty_cls label_dict num_classes) ->
              (0 <= id < Z.of_nat num_classes)%Z /\ ~ In id label_ids)
  /\ (NoDup label_ids ->
      Forall (fun id => (0 <= id < Z.of_nat num_classes)%Z) label_ids ->
      forall id, In id (find_empty_cls label_dict num_classes)
                 <-> (0 <= id < Z.of_nat num_classes)%Z /\ ~ In id label_ids)
  /\ StronglySorted Z.lt (find_empty_cls label_dict num_classes).
Proof.
  cbv zeta.
  assert (Hsound : forall id, In id (find_empty_cls label_dict num_classes) ->
            (0 <= id < Z.of_nat num_classes)%Z /\ ~ In id (map snd label_dict)).
  { intros id. unfold find_empty_cls.
    destruct (length label_dict =? num_classes)%nat; [intros []|].
    rewrite filter_In, in_class_range, not_used_iff. tauto. }
  split; [exact Hsound|split].
  - intros Hnd Hrange id. split; [apply Hsound|].
    intros [Hid Hun]. unfold find_empty_cls.
    destruct (length label_dict =? num_classes)%nat eqn:E.
    + exfalso. apply Nat.eqb_eq in E. apply Hun.
      assert (Hincl : incl (map Z.of_nat (seq 0 num_classes)) (map snd label_dict)).
      { apply NoDup_length_incl; [assumption| |].
        - rewrite !length_map, length_seq. lia.
        - intros x Hx. apply in_class_range.
          rewrite Forall_forall in Hrange. now apply Hrange. }
      apply Hincl. now apply in_class_range.
    + rewrite filter_In, in_class_range, not_used_iff. tauto.
  - unfold find_empty_cls.
    destruct (length label_dict =? num_classes)%nat; [constructor|].
    apply filter_range_sorted.
Qed.

Lemma find_empty_cls_exact_witness :
  find_empty_cls [("take"%string, 0%Z); ("wash"%string, 2%Z)] 4 = [1%Z; 3%Z]
  /\ forall id, In id (find_empty_cls [("take"%string, 0%Z); ("wash"%string, 2%Z)] 4)
                <-> (0 <= id < Z.of_nat 4)%Z /\ ~ In id [0%Z; 2%Z].
Proof.
  split; [reflexivity|].
  apply (find_empty_cls_exact [("take"%string, 0%Z); ("wash"%string, 2%Z)] 4).
  - repeat constructor; simpl; intuition discriminate.
  - repeat constructor; simpl; lia.
Defined.

(** X20.  Aligning the audio features with [V] visual rows.  From
    [A >= 1] audio rows the call returns [min V (A + 1)] rows: the first [V]
    audio rows when [V <= A], and all audio rows followed by a copy of the
    last one when [V > A], so the result has [V] rows exactly when
    [V <= A + 1].  Without any audio row and with at least one visual row the
    padding raises. *)
Theorem align_audio_length {A : Type} (feats_v feats_a : list A) :
  (feats_a <> [] ->
   exists aligned,
     align_audio feats_v feats_a = Ok aligned
     /\ length aligned = Nat.min (length feats_v) (length feats_a + 1)
     /\ ((length feats_v <= length feats_a)%nat ->
         aligned = firstn (length feats_v) feats_a)
     /\ ((length feats_a < length feats_v)%nat ->
         exists front last_row,
           feats_a = front ++ [last_row] /\ aligned = feats_a ++ [last_row])
     /\ (length aligned = length feats_v
         <-> (length feats_v <= length feats_a + 1)%nat))
  /\ (feats_a = [] -> feats_v <> [] ->
      exists msg, align_audio feats_v feats_a = Err (ValueError msg)).
Proof.
  split.
  - intros Hne. unfold align_audio.
    destruct (length feats_a <? length feats_v)%nat eqn:E1.
    + apply Nat.ltb_lt in E1.
      destruct (rev feats_a) as [|last_row front] eqn:Er.
      { apply (f_equal (@rev A)) in Er. rewrite rev_involutive in Er.
        simpl in Er. contradiction. }
      apply (f_equal (@rev A)) in Er. rewrite rev_involutive in Er. simpl in Er.
      exists (feats_a ++ [last_row]).
      rewrite length_app. simpl.
      refine (conj eq_refl (conj _ (conj _ (conj _ _)))).
      * lia.
      * lia.
      * intros _. exists (rev front), last_row. now split.
      * lia.
    + apply Nat.ltb_ge in E1.
      destruct (length feats_v <? length feats_a)%nat eqn:E2.
      * apply Nat.ltb_lt in E2. exists (firstn (length feats_v) feats_a).
        rewrite length_firstn.
        refine (conj eq_refl (conj _ (conj _ (conj _ _)))); try lia.
        reflexivity.
      * apply Nat.ltb_ge in E2. exists feats_a.
        assert (Hl : length feats_v = length feats_a) by lia.
        refine (conj eq_refl (conj _ (conj _ (conj _ _)))); try lia.
        intros _. rewrite Hl. symmetry. apply firstn_all.
  - intros -> Hv. unfold align_audio.
    destruct feats_v as [|v l]; [contradiction|]. simpl. eexists. reflexivity.
Qed.

Lemma align_audio_length_witness :
  exists aligned,
    align_audio [1%Z; 2%Z; 3%Z] [7%Z; 8%Z] = Ok aligned
    /\ length aligned = Nat.min (length [1%Z; 2%Z; 3%Z]) (length [7%Z; 8%Z] + 1)
    /\ ((length [1%Z; 2%Z; 3%Z] <= length [7%Z; 8%Z])%nat ->
        aligned = firstn (length [1%Z; 2%Z; 3%Z]) [7%Z; 8%Z])
    /\ ((length [7%Z; 8%Z] < length [1%Z; 2%Z; 3%Z])%nat ->
        exists front last_row,
          [7%Z; 8%Z] = front ++ [last_row] /\ aligned = [7%Z; 8%Z] ++ [last_row])
    /\ (length aligned = length [1%Z; 2%Z; 3%Z]
        <-> (length [1%Z; 2%Z; 3%Z] <= length [7%Z; 8%Z] + 1)%nat).
Proof.
  apply (proj1 (align_audio_length [1%Z; 2%Z; 3%Z] [7%Z; 8%Z])).
  discriminate.
Defined.

(** * Truncation of a training video *)

Lemma Q_of_nat_add (a b : nat) : Q_of_nat (a + b) == Q_of_nat a + Q_of_nat b.
Proof. unfold Q_of_nat. rewrite Nat2Z.inj_add, inject_Z_plus. reflexivity. Qed.

Lemma sample_window_spec (accepted : nat -> bool) (draws : nat -> nat)
  (remaining trial : nat) (st0 : option nat) :
  (0 < remaining)%nat ->
  exists k, (k < remaining)%nat
    /\ sample_window accepted draws trial remaining st0 = Some (draws (trial + k)%nat)
    /\ (forall j, (j < k)%nat -> accepted (draws (trial + j)%nat) = false)
    /\ (accepted (draws (trial + k)%nat) = true
        \/ (S k = remaining /\ accepted (draws (trial + k)%nat) = false)).
Proof.
  revert trial st0. induction remaining as [|n IH]; intros trial st0 H; [lia|].
  simpl. destruct (accepted (draws trial)) eqn:E.
  - exists 0%nat. rewrite Nat.add_0_r.
    refine (conj _ (conj eq_refl (conj _ (or_introl E)))); [lia|].
    intros j Hj; lia.
  - destruct n as [|n].
    + exists 0%nat. rewrite Nat.add_0_r. simpl.
      refine (conj _ (conj eq_refl (conj _ (or_intror (conj eq_refl E))))); [lia|].
      intros j Hj; lia.
    + destruct (IH (S trial) (Some (draws trial)) ltac:(lia))
        as (k & Hk & Hres & Hrej & Hlast).
      exists (S k). replace (trial + S k)%nat with (S trial + k)%nat by lia.
      split; [lia|]. split; [exact Hres|]. split.
      * intros [|j] Hj; [now rewrite Nat.add_0_r|].
        replace (trial + S j)%nat with (S trial + j)%nat by lia. apply Hrej. lia.
      * destruct Hlast as [Ha|[Hl Ha]]; [now left|right]. split; [lia|assumption].
Qed.

Lemma bool_index_map {A B : Type} (f : A -> B) (p : A -> bool) (xs : list A) :
  bool_index (map f xs) (map p xs) = Ok (map f (filter p xs)).
Proof.
  unfold bool_index. rewrite !length_map, Nat.eqb_refl. f_equal.
  induction xs as [|x xs IH]; [reflexivity|].
  simpl. destruct (p x); simpl; now rewrite IH.
Qed.

Lemma bool_index_combine {A B : Type} (p : A -> bool) (xs : list A) (ys : list B) :
  length ys = length xs ->
  bool_index ys (map p xs)
  = Ok (map snd (filter (fun row => p (fst row)) (combine xs ys))).
Proof.
  intros H. unfold bool_index. rewrite length_map, H, Nat.eqb_refl. f_equal.
  revert ys H. induction xs as [|x xs IH]; intros [|y ys] H; try discriminate;
    [reflexivity|].
  simpl. destruct (p x); simpl; rewrite IH by (simpl in H; lia); reflexivity.
Qed.

Lemma filter_fst_combine {A B : Type} (p : A -> bool) (xs : list A) (ys : list B) :
  length ys = length xs ->
  map fst (filter (fun row => p (fst row)) (combine xs ys)) = filter p xs.
Proof.
  revert ys. induction xs as [|x xs IH]; intros [|y ys] H; try discriminate;
    [reflexivity|].
  simpl. destruct (p x); simpl; rewrite IH by (simpl in H; lia); reflexivity.
Qed.

Lemma combine_maps {A B C : Type} (f : A -> B) (g : A -> C) (l : list A) :
  combine (map f l) (map g l) = map (fun x => (f x, g x)) l.
Proof. induction l as [|x l IH]; [reflexivity|]. simpl. now rewrite IH. Qed.

Lemma filter_combine_labels {A B C : Type} (p : A -> bool) (xs : list A)
  (ys : list B) (zs : list C) :
  length ys = length xs -> length zs = length xs ->
  map snd (filter (fun row => p (fst row)) (combine xs ys))
  = map (fun row => fst (snd row))
        (filter (fun row => p (fst row)) (combine xs (combine ys zs)))
  /\ map snd (filter (fun row => p (fst row)) (combine xs zs))
     = map (fun row => snd (snd row))
           (filter (fun row => p (fst row)) (combine xs (combine ys zs))).
Proof.
  revert ys zs. induction xs as [|x xs IH]; intros [|y ys] [|z zs] Hy Hz;
    try discriminate; [split; reflexivity|].
  simpl in Hy, Hz. destruct (IH ys zs ltac:(lia) ltac:(lia)) as [H1 H2].
  simpl. destruct (p x); simpl; rewrite ?H1, ?H2; split; reflexivity.
Qed.

Lemma inter_le_area (st ed : Q) (g : segment) :
  clamp_min (window_right ed g - window_left st g) 0 <= Qabs (snd g - fst g).
Proof.
  unfold clamp_min, window_right, window_left.
  apply (Qabs_case (snd g - fst g)); intros H; minmax; lra.
Qed.

Lemma inter_nonneg (st ed : Q) (g : segment) :
  0 <= clamp_min (window_right ed g - window_left st g) 0.
Proof. unfold clamp_min. minmax; lra. Qed.

(** What a comparison [inter_ratio >= trunc_thresh] that holds for a
    positive threshold says about the segment. *)
Lemma ratio_ge_facts (trunc_thresh st ed : Q) (g : segment) :
  0 < trunc_thresh ->
  ratio_ge trunc_thresh (inter_ratio st ed g) = true ->
  exists q, inter_ratio st ed g = Ratio q
    /\ trunc_thresh <= q
    /\ 0 < Qabs (snd g - fst g)
    /\ q * Qabs (snd g - fst g)
       == clamp_min (window_right ed g - window_left st g) 0.
Proof.
  intros Ht. unfold inter_ratio. cbv zeta.
  pose proof (inter_le_area st ed g) as Hle.
  pose proof (inter_nonneg st ed g) as Hnn.
  set (I := clamp_min (window_right ed g - window_left st g) 0) in *.
  set (A := Qabs (snd g - fst g)) in *.
  destruct (Qeq_bool A 0) eqn:EA.
  - apply Qeq_bool_iff in EA.
    destruct (Qeq_bool I 0) eqn:EI; [discriminate|].
    apply Qeq_bool_neq in EI. exfalso. apply EI. lra.
  - apply Qeq_bool_neq in EA. simpl. intros H. apply Qle_bool_iff in H.
    exists (I / A). split; [reflexivity|]. split; [assumption|]. split.
    + destruct (Qlt_le_dec 0 A); [assumption|]. exfalso. apply EA. lra.
    + field. assumption.
Qed.

Lemma kept_segment_geometry (trunc_thresh : Q) (st max_seq_len : nat) (g : segment) :
  0 < trunc_thresh ->
  ratio_ge trunc_thresh
    (inter_ratio (Q_of_nat st) (Q_of_nat (st + max_seq_len)) g) = true ->
  0 <= window_left (Q_of_nat st) g - Q_of_nat st
  /\ window_left (Q_of_nat st) g - Q_of_nat st
     < window_right (Q_of_nat (st + max_seq_len)) g - Q_of_nat st
  /\ window_right (Q_of_nat (st + max_seq_len)) g - Q_of_nat st
     <= Q_of_nat max_seq_len.
Proof.
  intros Ht H. destruct (ratio_ge_facts _ _ _ _ Ht H) as (q & _ & Hq & HA & Hmul).
  pose proof (Q_of_nat_add st max_seq_len) as Hadd.
  assert (HI : 0 < clamp_min (window_right (Q_of_nat (st + max_seq_len)) g
                              - window_left (Q_of_nat st) g) 0).
  { rewrite <- Hmul. nra. }
  revert HI. unfold clamp_min, window_left, window_right. minmax; lra.
Qed.

Lemma truncate_window_ok (d : data_item) (max_seq_len : nat) (trunc_thresh : Q)
  (max_num_trials : nat) (has_action no_trunc : bool) (draws : nat -> nat) :
  labels_aligned d -> (0 < max_num_trials)%nat ->
  exists k, (k < max_num_trials)%nat
    /\ (forall j, (j < k)%nat ->
          window_accepted has_action no_trunc trunc_thresh max_seq_len
            (item_segments d) (draws j) = false)
    /\ (window_accepted has_action no_trunc trunc_thresh max_seq_len
          (item_segments d) (draws k) = true
        \/ (S k = max_num_trials
            /\ window_accepted has_action no_trunc trunc_thresh max_seq_len
                 (item_segments d) (draws k) = false))
    /\ let st := draws k in
       let keep row :=
         ratio_ge trunc_thresh
           (inter_ratio (Q_of_nat st) (Q_of_nat (st + max_seq_len)) (fst row)) in
       let kept := filter keep (annotations d) in
       truncate_window d max_seq_len trunc_thresh max_num_trials has_action
         no_trunc draws
       = Ok (mkItem
               (slice_cols st (st + max_seq_len) (item_feats_v d))
               (slice_cols st (st + max_seq_len) (item_feats_a d))
               (map (fun row =>
                       (window_left (Q_of_nat st) (fst row) - Q_of_nat st,
                        window_right (Q_of_nat (st + max_seq_len)) (fst row)
                        - Q_of_nat st)) kept)
               (map (fun row => fst (snd row)) kept)
               (map (fun row => snd (snd row)) kept)).
Proof.
  intros [Hv Hn] Htr.
  destruct (sample_window_spec
              (window_accepted has_action no_trunc trunc_thresh max_seq_len
                 (item_segments d)) draws max_num_trials 0 None Htr)
    as (k & Hk & Hres & Hrej & Hlast).
  simpl in Hres, Hrej, Hlast.
  exists k. split; [assumption|]. split; [assumption|]. split; [assumption|].
  cbv zeta. unfold truncate_window. rewrite Hres. cbv zeta. unfold seg_idx.
  set (st := draws k).
  set (p := fun g => ratio_ge trunc_thresh
                       (inter_ratio (Q_of_nat st) (Q_of_nat (st + max_seq_len)) g)).
  rewrite !bool_index_map, !bind_ok.
  rewrite (bool_index_combine p _ _ Hv), bind_ok.
  rewrite (bool_index_combine p _ _ Hn), bind_ok.
  unfold annotations.
  assert (Hc : length (combine (item_labels_v d) (item_labels_n d))
               = length (item_segments d)).
  { rewrite length_combine. lia. }
  f_equal. f_equal.
  - rewrite <- (filter_fst_combine p (item_segments d) _ Hc).
    rewrite !map_map, combine_maps, map_map. reflexivity.
  - exact (proj1 (filter_combine_labels p _ _ _ Hv Hn)).
  - exact (proj2 (filter_combine_labels p _ _ _ Hv Hn)).
Qed.

Lemma count_pos_iff {A : Type} (p : A -> bool) (l : list A) :
  (0 <? length (filter (fun b : bool => b) (map p l)))%nat = true
  <-> exists g, In g l /\ p g = true.
Proof.
  induction l as [|x l IH]; simpl.
  - split; [discriminate|intros (g & [] & _)].
  - destruct (p x) eqn:E; simpl.
    + split; [intros _; exists x; auto|reflexivity].
    + rewrite IH. split.
      * intros (g & Hin & Hg). exists g. auto.
      * intros (g & [<-|Hin] & Hg); [congruence|]. exists g. auto.
Qed.

Lemma count_zero_iff {A : Type} (p : A -> bool) (l : list A) :
  (length (filter (fun b : bool => b) (map p l)) =? 0)%nat = true
  <-> forall g, In g l -> p g = false.
Proof.
  induction l as [|x l IH]; simpl.
  - split; [intros _ g []|reflexivity].
  - destruct (p x) eqn:E; simpl.
    + split; [discriminate|]. intros H. specialize (H x (or_introl eq_refl)).
      congruence.
    + rewrite IH. split.
      * intros H g [<-|Hin]; auto.
      * intros H g Hin. apply H. auto.
Qed.

Lemma window_accepted_default (trunc_thresh : Q) (max_seq_len : nat)
  (segments : list segment) (st : nat) :
  window_accepted true false trunc_thresh max_seq_len segments st = true
  <-> sees_action trunc_thresh max_seq_len segments st.
Proof. unfold window_accepted, seg_idx, sees_action. cbv zeta. apply count_pos_iff. Qed.

Lemma filter_annotations_nonempty (p : segment -> bool) (d : data_item) :
  labels_aligned d ->
  filter (fun row => p (fst row)) (annotations d) <> []
  <-> exists g, In g (item_segments d) /\ p g = true.
Proof.
  intros [Hv Hn]. unfold annotations.
  assert (Hc : length (combine (item_labels_v d) (item_labels_n d))
               = length (item_segments d)) by (rewrite length_combine; lia).
  pose proof (filter_fst_combine p (item_segments d) _ Hc) as Hf.
  split.
  - intros Hne.
    destruct (filter (fun row => p (fst row))
                (combine (item_segments d)
                   (combine (item_labels_v d) (item_labels_n d)))) as [|row l] eqn:E;
      [congruence|].
    assert (Hin : In (fst row) (filter p (item_segments d))).
    { rewrite <- Hf. simpl. now left. }
    apply filter_In in Hin. exists (fst row). exact Hin.
  - intros (g & Hin & Hg) Hnil. rewrite Hnil in Hf. simpl in Hf.
    assert (H : In g (filter p (item_segments d))) by (apply filter_In; auto).
    rewrite <- Hf in H. exact H.
Qed.

Lemma annotations_of_kept (f : segment * (Z * Z) -> segment)
  (kept : list (segment * (Z * Z))) (feats_v feats_a : list (list Q)) :
  annotations (mkItem feats_v feats_a (map f kept)
                 (map (fun row => fst (snd row)) kept)
                 (map (fun row => snd (snd row)) kept))
  = map (fun row => (f row, snd row)) kept.
Proof.
  unfold annotations. simpl. rewrite combine_maps, combine_maps.
  apply map_ext. intros [g [v n]]. reflexivity.
Qed.

Lemma slice_cols_length (st max_seq_len T : nat) (feats : list (list Q)) :
  (st + max_seq_len <= T)%nat ->
  Forall (fun row => length row = T) feats ->
  Forall (fun row => length row = max_seq_len)
         (slice_cols st (st + max_seq_len) feats).
Proof.
  intros Hb Hall. unfold slice_cols. apply Forall_map.
  rewrite Forall_forall in *. intros row Hin.
  rewrite length_firstn, length_skipn, (Hall row Hin). lia.
Qed.

Lemma truncate_feats_long (d : data_item) (max_seq_len : nat) (trunc_thresh : Q)
  (crop : option nat) (max_num_trials : nat) (has_action no_trunc : bool)
  (draws : nat -> nat) :
  (max_seq_len < feat_len (item_feats_v d))%nat ->
  truncate_feats d max_seq_len trunc_thresh crop max_num_trials has_action
    no_trunc draws
  = truncate_window d max_seq_len trunc_thresh max_num_trials has_action
      no_trunc draws.
Proof.
  intros H. unfold truncate_feats. cbv zeta.
  now rewrite (proj2 (Nat.leb_gt _ _) H).
Qed.

(** X21.  Truncating a video that is longer than [max_seq_len], with a
    positive threshold, labels aligned with the segments and at least one
    trial: the call returns; the features are the columns [[st, st +
    max_seq_len)] of the input for one of the drawn starts [st]; the result
    has one verb and one noun label per segment; every returned segment has
    [0 <= start < end <= max_seq_len]; and every returned annotation is an
    input annotation with the same labels whose segment was intersected with
    the window and shifted by [st].  When the draw respects the bound of
    [random.randint] and the visual features are rectangular, every row of
    the returned visual features has [max_seq_len] columns. *)
Theorem truncated_item_well_formed (d : data_item) (max_seq_len : nat)
  (trunc_thresh : Q) (crop : option nat) (max_num_trials : nat)
  (has_action no_trunc : bool) (draws : nat -> nat) :
  0 < trunc_thresh -> labels_aligned d ->
  (max_seq_len < feat_len (item_feats_v d))%nat -> (0 < max_num_trials)%nat ->
  exists out st,
    truncate_feats d max_seq_len trunc_thresh crop max_num_trials has_action
      no_trunc draws = Ok out
    /\ (exists t, (t < max_num_trials)%nat /\ st = draws t)
    /\ item_feats_v out = slice_cols st (st + max_seq_len) (item_feats_v d)
    /\ item_feats_a out = slice_cols st (st + max_seq_len) (item_feats_a d)
    /\ labels_aligned out
    /\ Forall (fun s => 0 <= fst s /\ fst s < snd s /\ snd s <= Q_of_nat max_seq_len)
              (item_segments out)
    /\ Forall (fun row =>
                 exists g, In (g, snd row) (annotations d)
                   /\ fst row = (window_left (Q_of_nat st) g - Q_of_nat st,
                                 window_right (Q_of_nat (st + max_seq_len)) g
                                 - Q_of_nat st))
              (annotations out)
    /\ ((st + max_seq_len <= feat_len (item_feats_v d))%nat ->
        Forall (fun row => length row = feat_len (item_feats_v d)) (item_feats_v d) ->
        Forall (fun row => length row = max_seq_len) (item_feats_v out)).
Proof.
  intros Ht Hal Hlong Htr.
  destruct (truncate_window_ok d max_seq_len trunc_thresh max_num_trials
              has_action no_trunc draws Hal Htr) as (k & Hk & _ & _ & Hout).
  cbv zeta in Hout. rewrite <- (truncate_feats_long _ _ _ crop) in Hout by assumption.
  eexists. exists (draws k). split; [exact Hout|].
  split; [exists k; auto|]. split; [reflexivity|]. split; [reflexivity|].
  split; [|split; [|split]].
  - unfold labels_aligned. simpl. now rewrite !length_map.
  - simpl. apply Forall_map, Forall_forall. intros row Hin.
    apply filter_In in Hin. destruct Hin as [_ Hkeep]. simpl.
    now apply (kept_segment_geometry trunc_thresh).
  - rewrite annotations_of_kept. apply Forall_map, Forall_forall.
    intros row Hin. apply filter_In in Hin. destruct Hin as [Hin _].
    exists (fst row). simpl. split; [|reflexivity].
    now rewrite <- surjective_pairing.
  - simpl. intros Hb Hrect. now apply slice_cols_length with (T := feat_len (item_feats_v d)).
Qed.

Lemma truncated_item_well_formed_witness :
  exists out st,
    truncate_feats item_two_actions 4 (1 # 2) None 200 true false (fun _ => 2%nat)
    = Ok out
    /\ (exists t, (t < 200)%nat /\ st = 2%nat)
    /\ item_feats_v out = slice_cols st (st + 4) (item_feats_v item_two_actions)
    /\ item_feats_a out = slice_cols st (st + 4) (item_feats_a item_two_actions)
    /\ labels_aligned out
    /\ Forall (fun s => 0 <= fst s /\ fst s < snd s /\ snd s <= Q_of_nat 4)
              (item_segments out)
    /\ Forall (fun row =>
                 exists g, In (g, snd row) (annotations item_two_actions)
                   /\ fst row = (window_left (Q_of_nat st) g - Q_of_nat st,
                                 window_right (Q_of_nat (st + 4)) g - Q_of_nat st))
              (annotations out)
    /\ ((st + 4 <= feat_len (item_feats_v item_two_actions))%nat ->
        Forall (fun row => length row = feat_len (item_feats_v item_two_actions))
               (item_feats_v item_two_actions) ->
        Forall (fun row => length row = 4%nat) (item_feats_v out)).
Proof.
  apply (truncated_item_well_formed item_two_actions 4 (1 # 2) None 200 true false
           (fun _ => 2%nat)).
  - reflexivity.
  - split; reflexivity.
  - simpl. lia.
  - lia.
Defined.

Lemma truncate_default_outcome (d : data_item) (max_seq_len : nat)
  (trunc_thresh : Q) (crop : option nat) (max_num_trials : nat)
  (draws : nat -> nat) :
  labels_aligned d ->
  (max_seq_len < feat_len (item_feats_v d))%nat -> (0 < max_num_trials)%nat ->
  exists out,
    truncate_feats d max_seq_len trunc_thresh crop max_num_trials true false draws
    = Ok out
    /\ labels_aligned out
    /\ (item_segments out <> []
        <-> exists t, (t < max_num_trials)%nat
              /\ sees_action trunc_thresh max_seq_len (item_segments d) (draws t)).
Proof.
  intros Hal Hlong Htr.
  destruct (truncate_window_ok d max_seq_len trunc_thresh max_num_trials
              true false draws Hal Htr) as (k & Hk & Hrej & Hlast & Hout).
  cbv zeta in Hout. rewrite <- (truncate_feats_long _ _ _ crop) in Hout by assumption.
  eexists. split; [exact Hout|]. split.
  { unfold labels_aligned. simpl. now rewrite !length_map. }
  simpl.
  set (p := fun g => ratio_ge trunc_thresh
                       (inter_ratio (Q_of_nat (draws k))
                          (Q_of_nat (draws k + max_seq_len)) g)).
  pose proof (filter_annotations_nonempty p d Hal) as Hne.
  split.
  - intros H. exists k. split; [assumption|]. apply Hne.
    intros Hnil. apply H.
    change (filter _ (annotations d))
      with (filter (fun row => p (fst row)) (annotations d)).
    now rewrite Hnil.
  - intros (t & Ht & Hsee) Hnil.
    assert (Hk_sees : sees_action trunc_thresh max_seq_len (item_segments d) (draws k)).
    { destruct Hlast as [Ha|[Hl Ha]]; [now apply window_accepted_default|].
      assert (Hrt : window_accepted true false trunc_thresh max_seq_len
                      (item_segments d) (draws t) = false).
      { destruct (Nat.eq_dec t k) as [->|Hneq]; [assumption|]. apply Hrej. lia. }
      apply window_accepted_default in Hsee. congruence. }
    apply (proj2 Hne Hk_sees).
    change (filter (fun row => p (fst row)) (annotations d))
      with (filter (fun row : segment * (Z * Z) =>
                      ratio_ge trunc_thresh
                        (inter_ratio (Q_of_nat (draws k))
                           (Q_of_nat (draws k + max_seq_len)) (fst row)))
                   (annotations d)).
    destruct (filter _ (annotations d)); [reflexivity|discriminate].
Qed.

(** X22.  With the default flags ([has_action] set, [no_trunc] not),
    truncating a video longer than [max_seq_len] returns an item with at
    least one segment exactly when the window of one of the [max_num_trials]
    draws keeps a segment; otherwise the windows are exhausted and the item
    of the last draw is returned without any segment or label. *)
Theorem truncation_keeps_an_action_iff_a_window_sees_one (d : data_item)
  (max_seq_len : nat) (trunc_thresh : Q) (crop : option nat)
  (max_num_trials : nat) (draws : nat -> nat) :
  labels_aligned d ->
  (max_seq_len < feat_len (item_feats_v d))%nat -> (0 < max_num_trials)%nat ->
  exists out,
    truncate_feats d max_seq_len trunc_thresh crop max_num_trials true false draws
    = Ok out
    /\ ((exists t, (t < max_num_trials)%nat
           /\ sees_action trunc_thresh max_seq_len (item_segments d) (draws t))
        -> item_segments out <> [])
    /\ ((forall t, (t < max_num_trials)%nat ->
           ~ sees_action trunc_thresh max_seq_len (item_segments d) (draws t))
        -> item_segments out = [] /\ item_labels_v out = []
           /\ item_labels_n out = []).
Proof.
  intros Hal Hlong Htr.
  destruct (truncate_default_outcome d max_seq_len trunc_thresh crop
              max_num_trials draws Hal Hlong Htr) as (out & Hout & [Hv Hn] & Hiff).
  exists out. split; [exact Hout|]. split; [apply Hiff|].
  intros Hnone.
  assert (Hs : item_segments out = []).
  { destruct (item_segments out) as [|s l] eqn:E; [reflexivity|].
    exfalso. destruct (proj1 Hiff ltac:(discriminate)) as (t & Ht & Hsee).
    exact (Hnone t Ht Hsee). }
  rewrite Hs in Hv, Hn. simpl in Hv, Hn.
  split; [exact Hs|]. split; now apply length_zero_iff_nil.
Qed.

Lemma truncation_keeps_an_action_iff_a_window_sees_one_witness :
  exists out,
    truncate_feats item_two_actions 4 (1 # 2) None 200 true false (fun _ => 2%nat)
    = Ok out
    /\ ((exists t, (t < 200)%nat
           /\ sees_action (1 # 2) 4 (item_segments item_two_actions) 2)
        -> item_segments out <> [])
    /\ ((forall t, (t < 200)%nat ->
           ~ sees_action (1 # 2) 4 (item_segments item_two_actions) 2)
        -> item_segments out = [] /\ item_labels_v out = []
           /\ item_labels_n out = []).
Proof.
  apply (truncation_keeps_an_action_iff_a_window_sees_one item_two_actions 4
           (1 # 2) None 200 (fun _ => 2%nat)).
  - split; reflexivity.
  - simpl. lia.
  - lia.
Defined.

(** X23.  The empty ground truth that makes [label_points] fail is
    produced by the data pipeline: when none of the drawn windows keeps a
    segment of a long video, [truncate_feats] returns an item without
    segments, and every batch that starts with this item makes
    [label_points] raise the unpacking error. *)
Theorem truncation_without_action_breaks_label_points (d : data_item)
  (max_seq_len : nat) (trunc_thresh : Q) (crop : option nat)
  (max_num_trials : nat) (draws : nat -> nat) :
  labels_aligned d ->
  (max_seq_len < feat_len (item_feats_v d))%nat -> (0 < max_num_trials)%nat ->
  (forall t, (t < max_num_trials)%nat ->
     ~ sees_action trunc_thresh max_seq_len (item_segments d) (draws t)) ->
  exists out,
    truncate_feats d max_seq_len trunc_thresh crop max_num_trials true false draws
    = Ok out
    /\ forall cfg args points rest_segments rest_labels_v rest_labels_n,
         label_points cfg args points
           (item_segments out :: rest_segments)
           (item_labels_v out :: rest_labels_v)
           (item_labels_n out :: rest_labels_n)
         = Err (ValueError "not enough values to unpack (expected 6, got 3)").
Proof.
  intros Hal Hlong Htr Hnone.
  destruct (truncate_default_outcome d max_seq_len trunc_thresh crop
              max_num_trials draws Hal Hlong Htr) as (out & Hout & _ & Hiff).
  exists out. split; [exact Hout|]. intros.
  assert (Hs : item_segments out = []).
  { destruct (item_segments out) as [|s l] eqn:E; [reflexivity|].
    exfalso. destruct (proj1 Hiff ltac:(discriminate)) as (t & Ht & Hsee).
    exact (Hnone t Ht Hsee). }
  rewrite Hs. reflexivity.
Qed.

Lemma truncation_without_action_breaks_label_points_witness :
  exists out,
    truncate_feats item_two_actions 1 (1 # 2) None 2 true false (fun _ => 4%nat)
    = Ok out
    /\ forall cfg args points rest_segments rest_labels_v rest_labels_n,
         label_points cfg args points
           (item_segments out :: rest_segments)
           (item_labels_v out :: rest_labels_v)
           (item_labels_n out :: rest_labels_n)
         = Err (ValueError "not enough values to unpack (expected 6, got 3)").
Proof.
  apply (truncation_without_action_breaks_label_points item_two_actions 1 (1 # 2)
           None 2 (fun _ => 4%nat)).
  - split; reflexivity.
  - simpl. lia.
  - lia.
  - intros t _ (g & Hin & H). simpl in Hin.
    destruct Hin as [<-|[<-|[]]]; vm_compute in H; discriminate.
Defined.

Lemma whole_segment_geometry (st ed : Q) (g : segment) :
  0 < Qabs (snd g - fst g) ->
  Qabs (snd g - fst g) <= clamp_min (window_right ed g - window_left st g) 0 ->
  fst g < snd g /\ window_left st g == fst g /\ window_right ed g == snd g.
Proof.
  unfold clamp_min, window_left, window_right.
  apply (Qabs_case (snd g - fst g)); intros H H0 H1; revert H1; minmax; lra.
Qed.

(** X24.  With [no_trunc] set and a positive threshold, when one of the
    drawn windows is accepted, the returned item has at least one segment and
    no returned segment is cut: every returned annotation is an input
    annotation with [start < end] that lies inside the window, moved by
    [st] and with its labels. *)
Theorem no_trunc_keeps_segments_whole (d : data_item) (max_seq_len : nat)
  (trunc_thresh : Q) (crop : option nat) (max_num_trials : nat)
  (has_action : bool) (draws : nat -> nat) :
  0 < trunc_thresh -> labels_aligned d ->
  (max_seq_len < feat_len (item_feats_v d))%nat ->
  (exists t, (t < max_num_trials)%nat
     /\ window_accepted has_action true trunc_thresh max_seq_len
          (item_segments d) (draws t) = true) ->
  exists out st,
    truncate_feats d max_seq_len trunc_thresh crop max_num_trials has_action
      true draws = Ok out
    /\ (exists t, (t < max_num_trials)%nat /\ st = draws t)
    /\ item_segments out <> []
    /\ Forall (fun row =>
                 exists g, In (g, snd row) (annotations d)
                   /\ fst g < snd g
                   /\ Q_of_nat st <= fst g /\ snd g <= Q_of_nat (st + max_seq_len)
                   /\ fst (fst row) == fst g - Q_of_nat st
                   /\ snd (fst row) == snd g - Q_of_nat st)
              (annotations out).
Proof.
  intros Hth Hal Hlong (t & Ht & Hacc).
  assert (Htr : (0 < max_num_trials)%nat) by lia.
  destruct (truncate_window_ok d max_seq_len trunc_thresh max_num_trials
              has_action true draws Hal Htr) as (k & Hk & Hrej & Hlast & Hout).
  cbv zeta in Hout. rewrite <- (truncate_feats_long _ _ _ crop) in Hout by assumption.
  assert (Hka : window_accepted has_action true trunc_thresh max_seq_len
                  (item_segments d) (draws k) = true).
  { destruct Hlast as [Ha|[Hl Ha]]; [assumption|].
    destruct (Nat.eq_dec t k) as [->|Hneq]; [congruence|].
    rewrite Hrej in Hacc by lia. discriminate. }
  unfold window_accepted, seg_idx in Hka. cbv zeta in Hka.
  apply andb_true_iff in Hka. destruct Hka as [Hpos Hzero].
  apply count_pos_iff in Hpos.
  pose proof (proj1 (count_zero_iff _ _) Hzero) as Hwhole. clear Hzero.
  eexists. exists (draws k). split; [exact Hout|].
  split; [exists k; auto|]. split.
  - simpl. intros Hnil. apply map_eq_nil in Hnil. revert Hnil.
    apply (filter_annotations_nonempty
             (fun g => ratio_ge trunc_thresh
                         (inter_ratio (Q_of_nat (draws k))
                            (Q_of_nat (draws k + max_seq_len)) g)) d Hal).
    exact Hpos.
  - rewrite annotations_of_kept. apply Forall_map, Forall_forall.
    intros row Hin. apply filter_In in Hin. destruct Hin as [Hin Hkeep].
    exists (fst row). simpl.
    split; [now rewrite <- surjective_pairing|].
    assert (Hseg : In (fst row) (item_segments d)).
    { unfold annotations in Hin. destruct row as [g lbl].
      now apply in_combine_l in Hin. }
    specialize (Hwhole (fst row) Hseg).
    destruct (ratio_ge_facts _ _ _ _ Hth Hkeep) as (q & Hq & Hge & HA & Hmul).
    cbv beta in Hwhole. rewrite Hq in Hwhole. simpl in Hwhole.
    apply andb_false_iff in Hwhole.
    assert (H1 : 1 <= q).
    { destruct Hwhole as [H|H]; apply Qlt_bool_false_iff in H; lra. }
    assert (Hfull : Qabs (snd (fst row) - fst (fst row))
                    <= clamp_min (window_right (Q_of_nat (draws k + max_seq_len)) (fst row)
                                  - window_left (Q_of_nat (draws k)) (fst row)) 0).
    { rewrite <- Hmul. nra. }
    destruct (whole_segment_geometry _ _ _ HA Hfull) as (Hlt & Hl & Hr).
    split; [assumption|].
    assert (Hb1 : Q_of_nat (draws k) <= window_left (Q_of_nat (draws k)) (fst row))
      by (unfold window_left; minmax; lra).
    assert (Hb2 : window_right (Q_of_nat (draws k + max_seq_len)) (fst row)
                  <= Q_of_nat (draws k + max_seq_len))
      by (unfold window_right; minmax; lra).
    repeat split; lra.
Qed.

Lemma no_trunc_keeps_segments_whole_witness :
  exists out st,
    truncate_feats item_two_actions 4 (1 # 2) None 200 true true (fun _ => 0%nat)
    = Ok out
    /\ (exists t, (t < 200)%nat /\ st = 0%nat)
    /\ item_segments out <> []
    /\ Forall (fun row =>
                 exists g, In (g, snd row) (annotations item_two_actions)
                   /\ fst g < snd g
                   /\ Q_of_nat st <= fst g /\ snd g <= Q_of_nat (st + 4)
                   /\ fst (fst row) == fst g - Q_of_nat st
                   /\ snd (fst row) == snd g - Q_of_nat st)
              (annotations out).
Proof.
  apply (no_trunc_keeps_segments_whole item_two_actions 4 (1 # 2) None 200 true
           (fun _ => 0%nat)).
  - reflexivity.
  - split; reflexivity.
  - simpl. lia.
  - exists 0%nat. split; [lia|]. vm_compute. reflexivity.
Defined.

(** * From the logits of a level to its candidates *)

Lemma nth_error_firstn_some {A : Type} (k : nat) (l : list A) (j : nat) (x : A) :
  nth_error (firstn k l) j = Some x -> nth_error l j = Some x.
Proof.
  revert l j. induction k as [|k IH]; intros [|y l] [|j]; simpl; try discriminate; auto.
Qed.

Lemma Forall2_in_r {A B : Type} (R : A -> B -> Prop) (l : list A) (l' : list B) (y : B) :
  Forall2 R l l' -> In y l' -> exists x, In x l /\ R x y.
Proof.
  induction 1 as [|a b l l' Hab _ IH]; intros Hin; [destruct Hin|].
  destruct Hin as [<-|Hin].
  - exists a. split; [now left|assumption].
  - destruct (IH Hin) as (x & Hx & HR). exists x. split; [now right|assumption].
Qed.

Lemma sort_classes_shape (K : kernels) (cls : list (list Q)) (k : nat) :
  Forall (fun r => (k <= length r)%nat) cls ->
  length (fst (sort_classes K cls)) = length cls
  /\ length (snd (sort_classes K cls)) = length cls
  /\ Forall (fun r => (k <= length r)%nat) (fst (sort_classes K cls))
  /\ Forall (fun r => (k <= length r)%nat) (snd (sort_classes K cls)).
Proof.
  intros H. unfold sort_classes. simpl. rewrite !length_map.
  split; [reflexivity|]. split; [reflexivity|].
  split; apply Forall_map, Forall_map; rewrite Forall_forall in *; intros row Hin;
    rewrite length_map, sort_desc_length, length_map; now apply H.
Qed.

(** The entry [(i, j)] of the masked top-k scores and labels of sorted class
    scores, read back in the logits. *)
Lemma sorted_entry (K : kernels) (cls : list (list Q)) (mask_i : list bool)
  (k i j : nat) (x : Q) (lab : Z) :
  at2 (topk_scores k (fst (sort_classes K cls)) mask_i) i j = Some x ->
  at2 (topk_labels k (snd (sort_classes K cls)) mask_i) i j = Some lab ->
  exists row c logit m,
    nth_error cls i = Some row /\ nth_error mask_i i = Some m
    /\ nth_error row c = Some logit
    /\ x = t_sigmoid K logit * mask_q m
    /\ lab = (Z.of_nat c * mask_z m)%Z.
Proof.
  unfold at2, topk_scores, topk_labels, sort_classes. simpl.
  rewrite !nth_error_map, !nth_error_combine, !nth_error_map.
  destruct (nth_error cls i) as [row|]; [|discriminate]. simpl.
  destruct (nth_error mask_i i) as [m|]; [|discriminate]. simpl.
  rewrite !nth_error_map.
  destruct (nth_error (firstn k (map fst (sort_desc (map (t_sigmoid K) row)))) j)
    as [s|] eqn:Es; [|discriminate].
  destruct (nth_error (firstn k (map (fun si => Z.of_nat (snd si))
                                   (sort_desc (map (t_sigmoid K) row)))) j)
    as [lb|] eqn:El; [|discriminate].
  simpl. intros Hx Hl. injection Hx as <-. injection Hl as <-.
  apply nth_error_firstn_some in Es, El. rewrite nth_error_map in Es, El.
  destruct (nth_error (sort_desc (map (t_sigmoid K) row)) j) as [[s' c]|] eqn:Ep;
    [|discriminate].
  simpl in Es, El. injection Es as <-. injection El as <-.
  apply nth_error_In, sort_desc_In in Ep. simpl in Ep.
  rewrite nth_error_map in Ep.
  destruct (nth_error row c) as [logit|] eqn:Ec; [|discriminate].
  simpl in Ep. injection Ep as <-.
  exists row, c, logit, m. auto.
Qed.

Lemma inference_level_unfold (K : kernels) (cfg : model_cfg) (l : level_inputs) :
  level_well_shaped l ->
  exists sel dets,
    select_topk cfg
      (flatten3
         (mul_cls_score
            (topk_scores noun_topk (fst (sort_classes K (lvl_cls_noun l))) (lvl_mask l))
            (topk_scores verb_topk (fst (sort_classes K (lvl_cls_verb l))) (lvl_mask l))))
    = Ok sel
    /\ mapM (decode_entry (lvl_pts l) (lvl_offsets l)
               (topk_labels noun_topk (snd (sort_classes K (lvl_cls_noun l))) (lvl_mask l))
               (topk_labels verb_topk (snd (sort_classes K (lvl_cls_verb l))) (lvl_mask l)))
            sel = Ok dets
    /\ inference_level K cfg l
       = Ok (filter (fun d => Qlt_bool (test_duration_thresh cfg)
                                       (snd (det_seg d) - fst (det_seg d))) dets)
    /\ Forall (addresses_selected_score
                 (topk_scores noun_topk (fst (sort_classes K (lvl_cls_noun l))) (lvl_mask l))
                 (topk_scores verb_topk (fst (sort_classes K (lvl_cls_verb l))) (lvl_mask l))
                 (topk_labels noun_topk (snd (sort_classes K (lvl_cls_noun l))) (lvl_mask l))
                 (topk_labels verb_topk (snd (sort_classes K (lvl_cls_verb l))) (lvl_mask l)))
              dets.
Proof.
  intros (Hm & Hv & Hn & Ho & Fv & Fn).
  destruct (sort_classes_shape K _ _ Fv) as (Hv1 & Hv2 & Fv1 & Fv2).
  destruct (sort_classes_shape K _ _ Fn) as (Hn1 & Hn2 & Fn1 & Fn2).
  unfold inference_level.
  destruct (sort_classes K (lvl_cls_verb l)) as [vs vl] eqn:Ev.
  destruct (sort_classes K (lvl_cls_noun l)) as [ns nl] eqn:En.
  simpl in *.
  apply decode_level_ok; congruence || assumption.
Qed.

Lemma inference_level_ok (K : kernels) (cfg : model_cfg) (l : level_inputs) :
  level_well_shaped l ->
  exists dets,
    inference_level K cfg l = Ok dets
    /\ (length dets <= test_pre_nms_topk cfg)%nat
    /\ Forall (fun d =>
                 test_pre_nms_thresh cfg * test_pre_nms_thresh cfg < det_score d
                 /\ test_duration_thresh cfg < snd (det_seg d) - fst (det_seg d))
              dets.
Proof.
  intros Hshape.
  destruct (inference_level_unfold K cfg l Hshape) as (sel & dets & Hsel & Hd & Hret & _).
  eexists. split; [exact Hret|].
  destruct (select_topk_spec cfg _ sel Hsel) as (Hlen & _ & Hth).
  pose proof (mapM_decode_scores _ _ _ _ _ _ Hd) as Hsc.
  pose proof (mapM_length _ _ _ Hd) as Hl.
  split.
  { pose proof (filter_length_le
                  (fun d => Qlt_bool (test_duration_thresh cfg)
                                     (snd (det_seg d) - fst (det_seg d))) dets). lia. }
  assert (Hth' : Forall (fun d => test_pre_nms_thresh cfg * test_pre_nms_thresh cfg
                                  < det_score d) dets).
  { apply (proj1 (Forall_map det_score
                    (fun q => test_pre_nms_thresh cfg * test_pre_nms_thresh cfg < q) dets)).
    rewrite Hsc. apply Forall_map. exact Hth. }
  apply Forall_forall. intros d Hin. apply filter_In in Hin. destruct Hin as [Hin Hdur].
  rewrite Forall_forall in Hth'. split; [now apply Hth'|].
  now apply Qlt_bool_iff in Hdur.
Qed.

(** X25.  For a well-shaped level, the decoder returns, and every
    candidate it reports — at most [pre_nms_topk] of them — is explained by
    the logits: it sits on an unmasked point [p]; its verb and noun labels
    are class indices of [p]; its score is the product of the sigmoids of the
    verb and noun logits of [p] that these labels name, and exceeds the
    squared score threshold; its segment is [t - left * stride,
    t + right * stride] for the offsets of [p] and is longer than the
    duration threshold. *)
Theorem reported_labels_name_the_multiplied_scores (K : kernels) (cfg : model_cfg)
  (l : level_inputs) :
  level_well_shaped l ->
  exists dets,
    inference_level K cfg l = Ok dets
    /\ (length dets <= test_pre_nms_topk cfg)%nat
    /\ Forall (fun d =>
                 test_pre_nms_thresh cfg * test_pre_nms_thresh cfg < det_score d
                 /\ test_duration_thresh cfg < snd (det_seg d) - fst (det_seg d)
                 /\ explained_by K l d) dets.
Proof.
  intros Hshape.
  destruct (inference_level_unfold K cfg l Hshape)
    as (sel & dets & Hsel & Hd & Hret & Haddr).
  eexists. split; [exact Hret|].
  destruct (select_topk_spec cfg _ sel Hsel) as (Hlen & _ & Hth).
  pose proof (mapM_decode_scores _ _ _ _ _ _ Hd) as Hsc.
  pose proof (mapM_length _ _ _ Hd) as Hl.
  pose proof (mapM_inv _ _ _ Hd) as Hinv.
  split.
  { pose proof (filter_length_le
                  (fun d => Qlt_bool (test_duration_thresh cfg)
                                     (snd (det_seg d) - fst (det_seg d))) dets). lia. }
  assert (Hth' : Forall (fun d => test_pre_nms_thresh cfg * test_pre_nms_thresh cfg
                                  < det_score d) dets).
  { apply (proj1 (Forall_map det_score
                    (fun q => test_pre_nms_thresh cfg * test_pre_nms_thresh cfg < q) dets)).
    rewrite Hsc. apply Forall_map. exact Hth. }
  apply Forall_forall. intros d Hin. apply filter_In in Hin. destruct Hin as [Hin Hdur].
  rewrite Forall_forall in Hth', Haddr.
  pose proof (Hth' d Hin) as Hs. split; [exact Hs|].
  split; [now apply Qlt_bool_iff in Hdur|].
  destruct (Haddr d Hin)
    as (_ & _ & _ & _ & _ & _ & _ & (n_s & v_s & Hns & Hvs & Hprod) & Hnl & Hvl).
  destruct (Forall2_in_r _ _ _ _ Hinv Hin) as (si & _ & Hdec).
  destruct (decode_entry_fields _ _ _ _ _ _ Hdec) as (_ & p & off & Hp & Hoff & Hseg).
  destruct (sorted_entry K _ _ _ _ _ _ _ Hns Hnl)
    as (nrow & n & nlogit & m & Hnrow & Hmask & Hnlog & Hnx & Hnlab).
  destruct (sorted_entry K _ _ _ _ _ _ _ Hvs Hvl)
    as (vrow & v & vlogit & m' & Hvrow & Hmask' & Hvlog & Hvx & Hvlab).
  rewrite Hmask in Hmask'. injection Hmask' as <-.
  assert (Hmt : m = true).
  { destruct m; [reflexivity|]. exfalso.
    rewrite Hprod, Hnx in Hs. simpl in Hs.
    assert (H0 : 0 <= test_pre_nms_thresh cfg * test_pre_nms_thresh cfg)
      by exact (square_nonneg (test_pre_nms_thresh cfg)).
    assert (Hz : t_sigmoid K nlogit * 0 * v_s == 0) by ring. lra. }
  subst m. simpl in Hnx, Hvx, Hnlab, Hvlab.
  exists p, off, vrow, nrow, v, n, vlogit, nlogit.
  refine (conj Hp (conj Hmask (conj Hoff (conj Hseg (conj Hvrow (conj Hvlog
            (conj _ (conj Hnrow (conj Hnlog (conj _ _)))))))))).
  - rewrite Hvlab. apply Z.mul_1_r.
  - rewrite Hnlab. apply Z.mul_1_r.
  - rewrite Hprod, Hnx, Hvx. ring.
Qed.

Lemma reported_labels_name_the_multiplied_scores_witness :
  exists dets,
    inference_level rational_kernels cfg_none level_two_points = Ok dets
    /\ (length dets <= test_pre_nms_topk cfg_none)%nat
    /\ Forall (fun d =>
                 test_pre_nms_thresh cfg_none * test_pre_nms_thresh cfg_none
                 < det_score d
                 /\ test_duration_thresh cfg_none < snd (det_seg d) - fst (det_seg d)
                 /\ explained_by rational_kernels level_two_points d) dets.
Proof.
  apply (reported_labels_name_the_multiplied_scores rational_kernels cfg_none
           level_two_points).
  unfold level_well_shaped, level_two_points. simpl.
  repeat split; repeat constructor.
Defined.








(** * From the levels of a batch to the final results *)

Lemma concat_length_bound {A : Type} (k : nat) (ls : list (list A)) :
  Forall (fun l => (length l <= k)%nat) ls ->
  (length (concat ls) <= length ls * k)%nat.
Proof.
  induction 1 as [|l ls Hl _ IH]; simpl; [lia|].
  rewrite length_app. lia.
Qed.

Lemma inference_single_video_ok (K : kernels) (cfg : model_cfg)
  (levels : list level_inputs) :
  levels <> [] -> Forall level_well_shaped levels ->
  exists dets,
    inference_single_video K cfg levels
    = Ok (map det_seg dets, map det_score dets, map det_verb dets, map det_noun dets)
    /\ (length dets <= length levels * test_pre_nms_topk cfg)%nat
    /\ Forall (fun d =>
                 test_pre_nms_thresh cfg * test_pre_nms_thresh cfg < det_score d
                 /\ test_duration_thresh cfg < snd (det_seg d) - fst (det_seg d))
              dets.
Proof.
  intros Hne Hshape.
  destruct (mapM_ok_Forall (inference_level K cfg)
              (fun dets =>
                 (length dets <= test_pre_nms_topk cfg)%nat
                 /\ Forall (fun d =>
                              test_pre_nms_thresh cfg * test_pre_nms_thresh cfg
                              < det_score d
                              /\ test_duration_thresh cfg
                                 < snd (det_seg d) - fst (det_seg d)) dets)
              levels) as (per_level & Hm & Hall).
  { intros l Hin. rewrite Forall_forall in Hshape.
    exact (inference_level_ok K cfg l (Hshape l Hin)). }
  exists (concat per_level).
  pose proof (mapM_length _ _ _ Hm) as Hlen.
  split; [|split].
  - unfold inference_single_video. rewrite Hm, bind_ok.
    destruct per_level as [|x r]; [|reflexivity].
    destruct levels; [congruence|discriminate].
  - rewrite <- Hlen. apply concat_length_bound.
    eapply Forall_impl; [|exact Hall]. simpl. tauto.
  - apply Forall_concat. eapply Forall_impl; [|exact Hall]. simpl. tauto.
Qed.

(** X27.  Inference without suppression on a batch of decodable videos
    (duration threshold not negative) returns one result per video.  In each
    result the scores and the verb and noun labels are aligned with the
    segments; there are at most [pre_nms_topk] segments per level; every
    score exceeds the squared score threshold; and every segment is given in
    seconds with [0 <= start <= end <= duration]. *)
Theorem inference_results_well_formed (K : kernels) (cfg : model_cfg)
  (batched_nms : nms_fun) (videos : list (video_meta * list level_inputs)) :
  0 <= test_duration_thresh cfg ->
  Forall video_ready videos ->
  exists results,
    inference K cfg NmsNone batched_nms videos = Ok results
    /\ Forall2 (fun v out =>
                  length (out_scores out) = length (out_segments out)
                  /\ length (out_labels_verb out) = length (out_segments out)
                  /\ length (out_labels_noun out) = length (out_segments out)
                  /\ (length (out_segments out)
                      <= length (snd v) * test_pre_nms_topk cfg)%nat
                  /\ Forall (fun s => test_pre_nms_thresh cfg * test_pre_nms_thresh cfg < s)
                            (out_scores out)
                  /\ Forall (fun s => 0 <= fst s /\ fst s <= snd s
                                      /\ snd s <= meta_duration (fst v))
                            (out_segments out))
               videos results.
Proof.
  intros Hdur Hready. unfold inference.
  set (f := fun v : video_meta * list level_inputs =>
              r <- inference_single_video K cfg (snd v) ;;
              (let '(segs, scores, labels_verb, labels_noun) := r in
               Ok (mkResult segs scores labels_verb labels_noun
                            (meta_fps (fst v)) (meta_duration (fst v))
                            (meta_feat_stride (fst v))
                            (meta_feat_num_frames (fst v))))).
  assert (Hf : forall v, video_ready v ->
            exists dets,
              f v = Ok (mkResult (map det_seg dets) (map det_score dets)
                                 (map det_verb dets) (map det_noun dets)
                                 (meta_fps (fst v)) (meta_duration (fst v))
                                 (meta_feat_stride (fst v))
                                 (meta_feat_num_frames (fst v)))
              /\ (length dets <= length (snd v) * test_pre_nms_topk cfg)%nat
              /\ Forall (fun d =>
                           test_pre_nms_thresh cfg * test_pre_nms_thresh cfg
                           < det_score d
                           /\ test_duration_thresh cfg
                              < snd (det_seg d) - fst (det_seg d)) dets).
  { intros v (Hne & Hshape & _).
    destruct (inference_single_video_ok K cfg (snd v) Hne Hshape)
      as (dets & Hd & Hl & Hall).
    exists dets. split; [|auto]. unfold f. rewrite Hd, bind_ok. reflexivity. }
  destruct (mapM_ok f videos) as (results & Hm & Hrel).
  { intros v Hin. rewrite Forall_forall in Hready.
    destruct (Hf v (Hready v Hin)) as (dets & Hd & _). eauto. }
  exists (postprocessing NmsNone batched_nms results).
  split; [now rewrite Hm, bind_ok|].
  unfold postprocessing. clear Hm.
  induction Hrel as [|v r videos' results' Hvr _ IH]; simpl; constructor.
  - apply Forall_inv in Hready.
    destruct (Hf v Hready) as (dets & Hd & Hl & Hall).
    rewrite Hd in Hvr. injection Hvr as <-.
    destruct Hready as (_ & _ & Hfps & Hstride & Hvlen).
    set (r := mkResult (map det_seg dets) (map det_score dets)
                       (map det_verb dets) (map det_noun dets)
                       (meta_fps (fst v)) (meta_duration (fst v))
                       (meta_feat_stride (fst v)) (meta_feat_num_frames (fst v))).
    destruct (postprocess_video_passes_labels NmsNone batched_nms r)
      as (Hsc & Hlv & Hln).
    destruct (converted_segments_within_duration
                (meta_feat_stride (fst v)) (meta_feat_num_frames (fst v))
                (meta_fps (fst v)) (meta_duration (fst v)) (map det_seg dets)
                Hfps Hstride Hvlen) as [Hin Hord].
    rewrite Hsc, Hlv, Hln, out_segments_postprocess.
    unfold suppressed, r.
    cbn [fst snd res_segments res_scores res_labels_verb res_labels_noun
         res_duration res_fps res_feat_stride res_feat_num_frames].
    rewrite !length_map.
    refine (conj eq_refl (conj eq_refl (conj eq_refl (conj Hl (conj _ _))))).
    + apply Forall_map. eapply Forall_impl; [|exact Hall]. simpl. tauto.
    + assert (Ho : Forall (fun s => fst s <= snd s) (map det_seg dets)).
      { apply Forall_map. eapply Forall_impl; [|exact Hall]. simpl.
        intros d [_ H]. lra. }
      specialize (Hord Ho).
      rewrite Forall_forall in *. intros s Hs.
      specialize (Hin s Hs). specialize (Hord s Hs). tauto.
  - apply IH. now apply Forall_inv_tail in Hready.
Qed.

Lemma inference_results_well_formed_witness :
  exists results,
    inference rational_kernels cfg_none NmsNone nms_nothing
      [(mkMeta 30 10 16 32, [level_two_points])] = Ok results
    /\ Forall2 (fun v out =>
                  length (out_scores out) = length (out_segments out)
                  /\ length (out_labels_verb out) = length (out_segments out)
                  /\ length (out_labels_noun out) = length (out_segments out)
                  /\ (length (out_segments out)
                      <= length (snd v) * test_pre_nms_topk cfg_none)%nat
                  /\ Forall (fun s => test_pre_nms_thresh cfg_none
                                      * test_pre_nms_thresh cfg_none < s)
                            (out_scores out)
                  /\ Forall (fun s => 0 <= fst s /\ fst s <= snd s
                                      /\ snd s <= meta_duration (fst v))
                            (out_segments out))
               [(mkMeta 30 10 16 32, [level_two_points])] results.
Proof.
  apply (inference_results_well_formed rational_kernels cfg_none nms_nothing
           [(mkMeta 30 10 16 32, [level_two_points])]).
  - vm_compute. discriminate.
  - constructor; [|constructor].
    unfold video_ready, level_well_shaped, level_two_points. simpl.
    split; [discriminate|]. split; [|repeat split; lra].
    constructor; [|constructor]. repeat split; repeat constructor.
Defined.

(** * The strides of the levels and the padding unit *)

Lemma level_stride_factor (s w : Z) : level_stride s w = (s * level_stride 1 w)%Z.
Proof. unfold level_stride. destruct (1 <? w)%Z; ring. Qed.

Lemma level_stride_unit_pos (w : Z) : (1 <= level_stride 1 w)%Z.
Proof.
  unfold level_stride. destruct (1 <? w)%Z eqn:E; [|lia].
  apply Z.ltb_lt in E.
  assert (1 <= w / 2)%Z by (apply Z.div_le_lower_bound; lia). lia.
Qed.

Lemma max_div_factor_loop_ok (max_seq_len : Z) (levels : list (Z * Z)) (m : Z) :
  Forall (fun sw => (max_seq_len mod level_stride (fst sw) (snd sw) = 0)%Z) levels ->
  max_div_factor_loop max_seq_len levels m
  = Ok (fold_left Z.max (map (fun sw => level_stride (fst sw) (snd sw)) levels) m).
Proof.
  intros H. revert m. induction H as [|[s w] l Hsw _ IH]; intros m; [reflexivity|].
  simpl in *. rewrite Hsw. simpl. rewrite IH. do 2 f_equal.
  destruct (m <? level_stride s w)%Z eqn:E;
    [apply Z.ltb_lt in E|apply Z.ltb_ge in E]; lia.
Qed.

Lemma max_div_factor_loop_err (max_seq_len : Z) (levels : list (Z * Z)) (m : Z) :
  Exists (fun sw => (max_seq_len mod level_stride (fst sw) (snd sw) <> 0)%Z) levels ->
  max_div_factor_loop max_seq_len levels m
  = Err (AssertionError
           "max_seq_len must be divisible by fpn stride and window size").
Proof.
  intros H. revert m. induction H as [[s w] l Hsw|[s w] l _ IH]; intros m; simpl.
  - simpl in Hsw. now rewrite (proj2 (Z.eqb_neq _ _) Hsw).
  - destruct (max_seq_len mod level_stride s w =? 0)%Z; [apply IH|reflexivity].
Qed.

Lemma fold_max_nondecreasing (f : nat -> Z) (n a : nat) (m : Z) :
  (forall i, f i <= f (S i))%Z -> (m <= f a)%Z ->
  fold_left Z.max (map f (seq a (S n))) m = f (a + n)%nat.
Proof.
  intros Hmono. revert a m. induction n as [|n IH]; intros a m Hm.
  - simpl. rewrite Nat.add_0_r. lia.
  - change (seq a (S (S n))) with (a :: seq (S a) (S n)).
    cbn [map fold_left]. rewrite IH.
    + f_equal. lia.
    + specialize (Hmono a). lia.
Qed.

Lemma combine_strides_uniform (scale_factor : positive) (n : nat) (w : Z) :
  combine (fpn_strides scale_factor n) (repeat w n)
  = map (fun i => ((Zpos scale_factor ^ Z.of_nat i)%Z, w)) (seq 0 n).
Proof.
  unfold fpn_strides. generalize 0%nat as a. induction n as [|n IH]; intros a; [reflexivity|].
  simpl. now rewrite IH.
Qed.

Lemma pow_divides (scale_factor : positive) (i n : nat) :
  (i <= n)%nat -> (Zpos scale_factor ^ Z.of_nat i | Zpos scale_factor ^ Z.of_nat n)%Z.
Proof.
  intros H. exists (Zpos scale_factor ^ Z.of_nat (n - i))%Z.
  rewrite <- Z.pow_add_r by lia. f_equal. lia.
Qed.

(** X28.  With one window size [w] for all levels, the stride of the
    last level decides the construction: when it divides [max_seq_len],
    [max_div_factor] is this stride, it is at least 1, and the stride of
    every level divides both [max_div_factor] and [max_seq_len] (so a length
    padded to a multiple of [max_div_factor] can be halved down the whole
    pyramid); when it does not, the assertion of [__init__] fails. *)
Theorem max_div_factor_of_uniform_window (scale_factor : positive) (num_levels : nat)
  (regression_range : list (Q * Q)) (max_seq_len w : Z) :
  length regression_range = S num_levels ->
  let top := level_stride (Zpos scale_factor ^ Z.of_nat num_levels) w in
  ((max_seq_len mod top = 0)%Z ->
   init_max_div_factor scale_factor (S num_levels) regression_range max_seq_len
     (WinInt w) = Ok top
   /\ (1 <= top)%Z
   /\ Forall (fun s => (level_stride s w | top)%Z
                       /\ (level_stride s w | max_seq_len)%Z)
             (fpn_strides scale_factor (S num_levels)))
  /\ ((max_seq_len mod top <> 0)%Z ->
      init_max_div_factor scale_factor (S num_levels) regression_range max_seq_len
        (WinInt w)
      = Err (AssertionError
               "max_seq_len must be divisible by fpn stride and window size")).
Proof.
  intros Hreg top.
  pose proof (level_stride_unit_pos w) as Hc.
  assert (Hpow : forall i, (1 <= Zpos scale_factor ^ Z.of_nat i)%Z).
  { intros i. assert (0 < Zpos scale_factor ^ Z.of_nat i)%Z
      by (apply Z.pow_pos_nonneg; lia). lia. }
  assert (Htop : (1 <= top)%Z).
  { unfold top. rewrite level_stride_factor. specialize (Hpow num_levels). nia. }
  assert (Hdiv : forall i, (i <= num_levels)%nat ->
            (level_stride (Zpos scale_factor ^ Z.of_nat i) w | top)%Z).
  { intros i Hi. unfold top.
    rewrite (level_stride_factor (_ ^ Z.of_nat i)), (level_stride_factor (_ ^ Z.of_nat num_levels)).
    apply Z.mul_divide_mono_r. now apply pow_divides. }
  assert (Hlen : length (fpn_strides scale_factor (S num_levels)) = S num_levels).
  { unfold fpn_strides. now rewrite length_map, length_seq. }
  assert (Hunfold : init_max_div_factor scale_factor (S num_levels) regression_range
                      max_seq_len (WinInt w)
                    = max_div_factor_loop max_seq_len
                        (map (fun i => ((Zpos scale_factor ^ Z.of_nat i)%Z, w))
                             (seq 0 (S num_levels))) 1%Z).
  { unfold init_max_div_factor. rewrite Hlen, Hreg, Nat.eqb_refl.
    unfold mha_win_sizes. rewrite bind_ok.
    now rewrite combine_strides_uniform. }
  rewrite Hunfold. split.
  - intros Hmod.
    assert (Hall : forall i, (i <= num_levels)%nat ->
              (level_stride (Zpos scale_factor ^ Z.of_nat i) w | max_seq_len)%Z).
    { intros i Hi. apply Z.divide_trans with (m := top); [now apply Hdiv|].
      apply Z.mod_divide; [lia|assumption]. }
    split; [|split; [assumption|]].
    + rewrite max_div_factor_loop_ok.
      * rewrite map_map. simpl fst. simpl snd.
        rewrite (fold_max_nondecreasing
                   (fun i => level_stride (Zpos scale_factor ^ Z.of_nat i) w)
                   num_levels 0 1).
        -- reflexivity.
        -- intros i.
           rewrite (level_stride_factor (_ ^ Z.of_nat i)),
                   (level_stride_factor (_ ^ Z.of_nat (S i))).
           apply Z.mul_le_mono_nonneg_r; [lia|].
           apply Z.pow_le_mono_r; lia.
        -- rewrite level_stride_factor. specialize (Hpow 0%nat). nia.
      * apply Forall_map, Forall_forall. intros i Hi. apply in_seq in Hi. simpl.
        apply Z.mod_divide.
        -- rewrite level_stride_factor. specialize (Hpow i). nia.
        -- apply Hall. lia.
    + unfold fpn_strides. apply Forall_map, Forall_forall. intros i Hi.
      apply in_seq in Hi. split; [apply Hdiv|apply Hall]; lia.
  - intros Hmod. apply max_div_factor_loop_err.
    apply Exists_exists. exists ((Zpos scale_factor ^ Z.of_nat num_levels)%Z, w).
    split; [|exact Hmod].
    apply in_map_iff. exists num_levels. split; [reflexivity|]. apply in_seq. lia.
Qed.

Lemma max_div_factor_of_uniform_window_witness :
  init_max_div_factor 2 6 (repeat (0, 1) 6) 2304 (WinInt 9) = Ok 256%Z
  /\ (1 <= 256)%Z
  /\ Forall (fun s => (level_stride s 9 | 256)%Z /\ (level_stride s 9 | 2304)%Z)
            (fpn_strides 2 6).
Proof.
  apply (proj1 (max_div_factor_of_uniform_window 2 5 (repeat (0, 1) 6) 2304 9
                  eq_refl)).
  reflexivity.
Defined.

(** * The epochs of a run *)

Lemma range_cons (a : Z) (n : nat) :
  map (fun i => (a + Z.of_nat i)%Z) (seq 0 (S n))
  = a :: map (fun i => ((a + 1) + Z.of_nat i)%Z) (seq 0 n).
Proof.
  simpl. f_equal; [lia|]. rewrite <- seq_shift, map_map.
  apply map_ext. intros i. lia.
Qed.

Lemma epoch_loop_trains (stop_save_epoch max_epochs ckpt_freq : Z) (n : nat)
  (a e : Z) :
  In (TrainOneEpoch e)
     (epoch_loop stop_save_epoch max_epochs ckpt_freq
        (map (fun i => (a + Z.of_nat i)%Z) (seq 0 n)))
  <-> (a <= e < a + Z.of_nat n)%Z /\ ~ (a <= stop_save_epoch <= e)%Z.
Proof.
  revert a. induction n as [|n IH]; intros a.
  - simpl. split; [intros []|lia].
  - rewrite range_cons. cbn [epoch_loop].
    destruct (a =? stop_save_epoch)%Z eqn:E.
    + apply Z.eqb_eq in E. simpl. split; [intros []|lia].
    + apply Z.eqb_neq in E. cbn [In]. rewrite in_app_iff, IH.
      assert (Hs : ~ In (TrainOneEpoch e)
                     (if saves_checkpoint max_epochs ckpt_freq a
                      then [SaveCheckpoint a] else [])).
      { destruct (saves_checkpoint max_epochs ckpt_freq a); simpl;
          intuition discriminate. }
      split.
      * intros [H|[H|H]]; [injection H as <-; lia|contradiction|lia].
      * intros H. destruct (Z.eq_dec a e) as [->|Hne]; [now left|].
        right. right. lia.
Qed.

Lemma epoch_loop_saves (stop_save_epoch max_epochs ckpt_freq : Z)
  (epochs : list Z) (e : Z) :
  In (SaveCheckpoint e) (epoch_loop stop_save_epoch max_epochs ckpt_freq epochs)
  <-> In (TrainOneEpoch e) (epoch_loop stop_save_epoch max_epochs ckpt_freq epochs)
      /\ saves_checkpoint max_epochs ckpt_freq e = true.
Proof.
  induction epochs as [|a l IH]; simpl; [tauto|].
  destruct (a =? stop_save_epoch)%Z; simpl; [tauto|].
  rewrite !in_app_iff, IH.
  destruct (saves_checkpoint max_epochs ckpt_freq a) eqn:Ea; simpl; split.
  - intros [H|[[H|[]]|H]]; [discriminate| |tauto].
    injection H as <-. auto.
  - intros [[H|[[H|[]]|H]] Hs]; [|discriminate|tauto].
    injection H as <-. auto.
  - intros [H|[[]|H]]; [discriminate|tauto].
  - intros [[H|[[]|H]] Hs]; [|tauto]. injection H as <-. congruence.
Qed.

(** X29.  The epochs of a run.  Epoch [e] is trained exactly when
    [start_epoch <= e < max_epochs] and the stop epoch was not met on the way
    from [start_epoch] to [e]; a checkpoint is saved after a trained epoch
    that is the last one ([max_epochs - 1]) or, for a positive checkpoint
    frequency, a multiple of it above 15, and at no other time.  So a run
    whose stop epoch lies in [[start_epoch, max_epochs)] never saves the
    checkpoint of the last epoch, and saves none at all when the stop epoch
    is at most 16. *)
Theorem checkpoint_schedule (start_epoch stop_save_epoch max_epochs ckpt_freq : Z) :
  let trace := training_epochs start_epoch stop_save_epoch max_epochs ckpt_freq in
  (forall e, In (TrainOneEpoch e) trace
             <-> (start_epoch <= e < max_epochs)%Z
                 /\ ~ (start_epoch <= stop_save_epoch <= e)%Z)
  /\ (forall e, In (SaveCheckpoint e) trace
                <-> In (TrainOneEpoch e) trace
                    /\ (e = max_epochs - 1
                        \/ (0 < ckpt_freq /\ e mod ckpt_freq = 0 /\ 15 < e))%Z)
  /\ ((start_epoch <= stop_save_epoch < max_epochs)%Z ->
      ~ In (SaveCheckpoint (max_epochs - 1)) trace
      /\ ((stop_save_epoch <= 16)%Z -> forall e, ~ In (SaveCheckpoint e) trace)).
Proof.
  cbv zeta. unfold training_epochs, range.
  assert (Htrain : forall e,
            In (TrainOneEpoch e)
               (epoch_loop stop_save_epoch max_epochs ckpt_freq
                  (map (fun i => (start_epoch + Z.of_nat i)%Z)
                       (seq 0 (Z.to_nat (max_epochs - start_epoch)))))
            <-> (start_epoch <= e < max_epochs)%Z
                /\ ~ (start_epoch <= stop_save_epoch <= e)%Z).
  { intros e. rewrite epoch_loop_trains. lia. }
  assert (Hsave : forall e,
            saves_checkpoint max_epochs ckpt_freq e = true
            <-> (e = max_epochs - 1
                 \/ (0 < ckpt_freq /\ e mod ckpt_freq = 0 /\ 15 < e))%Z).
  { intros e. unfold saves_checkpoint.
    rewrite orb_true_iff, !andb_true_iff, Z.eqb_eq, !Z.ltb_lt, Z.eqb_eq. tauto. }
  split; [exact Htrain|]. split.
  - intros e. rewrite epoch_loop_saves, Hsave. reflexivity.
  - intros Hstop. split.
    + rewrite epoch_loop_saves, Htrain. lia.
    + intros H16 e. rewrite epoch_loop_saves, Htrain, Hsave. lia.
Qed.

Lemma checkpoint_schedule_witness :
  ~ In (SaveCheckpoint (35 - 1)) (training_epochs 0 10 35 1)
  /\ ((10 <= 16)%Z -> forall e, ~ In (SaveCheckpoint e) (training_epochs 0 10 35 1)).
Proof.
  apply (proj2 (proj2 (checkpoint_schedule 0 10 35 1))). lia.
Defined.
